(** * log-rotator: a shallow embedding of [rotator.py]

    The engine of [rotator.py] is embedded as state-passing functions over
    an explicit world (a filesystem, a clock, standard output) and the
    [LogRotator] object (its policy and its result history).

    Modelling decisions:
    - a path is the tuple of its [pathlib] parts (POSIX flavour, CPython
      3.8 to 3.13), and the filesystem is a finite map from such tuples to
      nodes (regular files with their bytes and modification time,
      directories with their [st_size]); there are no symbolic links; a
      directory's own size and time are not updated when an entry is
      created or removed in it;
    - Python exceptions are a sum in the result of every operation, and the
      state reached when the exception is raised is kept;
    - the environment's failures on writes (permission denied, disk full)
      are an oracle from the path opened for writing to a fault; reads,
      [stat] and [unlink] fail only for what the filesystem holds (a
      missing path, a directory where a file is needed);
    - a copy reads the source and then writes the destination; the
      destination is never the source ([dest_path_ne]), so this is what the
      chunked [shutil.copyfileobj] does;
    - the library functions the engine calls but does not define
      ([strftime], the gzip and bz2 writers, [glob.glob]) are parameters of
      the section;
    - times are integers: the microseconds of the naive local [datetime]
      counted from 1970-01-01T00:00:00; date arithmetic fails outside
      [datetime.min, datetime.max] as [datetime]'s does;
    - a float is the rational it denotes, and each float operation is the
      exact result rounded to binary64 (53 bits, ties to even) with an
      unbounded exponent: what the hardware computes as long as nothing
      overflows or falls below the normal range, which sizes of files do
      not reach. *)

From Stdlib Require Import QArith Qround.
From stdpp Require Import gmap strings list fin_maps sorting pretty.
From Stdlib Require Import Strings.Ascii Strings.Byte.
From Stdlib Require Import Qabs Qpower Lqa.

Local Open Scope Z_scope.

(** ** Strings: the pieces of [str] that [pathlib] uses *)

Abbreviation bytes := (list byte).

(** [s.split(sep)] for a one-character separator. *)
Fixpoint split_on (sep : ascii) (s : string) : list string :=
  match s with
  | EmptyString => [EmptyString]
  | String a s' =>
      if Ascii.eqb a sep then EmptyString :: split_on sep s'
      else match split_on sep s' with
           | [] => [String a EmptyString]
           | w :: ws => String a w :: ws
           end
  end.

(** [s.rfind(c)], with [None] for Python's [-1]. *)
Fixpoint rfind (c : ascii) (s : string) : option nat :=
  match s with
  | EmptyString => None
  | String a s' =>
      match rfind c s' with
      | Some i => Some (S i)
      | None => if Ascii.eqb a c then Some 0%nat else None
      end
  end.

(** [c in s]. *)
Fixpoint has_char (c : ascii) (s : string) : bool :=
  match s with
  | EmptyString => false
  | String a s' => Ascii.eqb a c || has_char c s'
  end.

(** [s.endswith(t)]. *)
Definition endswith (s t : string) : bool :=
  String.prefix (String.rev t) (String.rev s).

(** [s.rstrip(chars)]: [s] without its longest tail made of characters
    of [chars]. *)
Fixpoint rstrip (chars : string) (s : string) : string :=
  match s with
  | EmptyString => EmptyString
  | String a s' =>
      match rstrip chars s' with
      | EmptyString =>
          if has_char a chars then EmptyString else String a EmptyString
      | r => String a r
      end
  end.

(** [s.upper()] on the letters [a] to [z]; other characters are kept. *)
Definition ascii_upper (a : ascii) : ascii :=
  let n := nat_of_ascii a in
  if (97 <=? n)%nat && (n <=? 122)%nat then ascii_of_nat (n - 32) else a.

Fixpoint upper (s : string) : string :=
  match s with
  | EmptyString => EmptyString
  | String a s' => String (ascii_upper a) (upper s')
  end.

(** ** Paths: [pathlib.PurePosixPath] *)

Abbreviation PurePath := (list string) (only parsing).

Definition is_root (c : string) : bool :=
  String.eqb c "/" || String.eqb c "//".

Definition path_root (s : string) : string :=
  if String.prefix "//" s && negb (String.prefix "///" s) then "//"
  else if String.prefix "/" s then "/" else "".

(** [Path(s)]: the parts of [s]; empty and ["."] components are dropped,
    the root (if any) is the first part. *)
Definition Path (s : string) : PurePath :=
  let comps := filter (λ c, c ≠ "" ∧ c ≠ ".") (split_on "/" s) in
  if String.eqb (path_root s) "" then comps else path_root s :: comps.

(** [str(p)]. *)
Definition str (p : PurePath) : string :=
  match p with
  | [] => "."
  | r :: ps => if is_root r then r +:+ String.concat "/" ps
               else String.concat "/" p
  end.

Definition has_root (p : PurePath) : bool :=
  match p with
  | r :: _ => is_root r
  | [] => false
  end.

(** [p.name]: the last part, unless it is the root. *)
Definition path_name (p : PurePath) : string :=
  match last p with
  | Some n => if is_root n then "" else n
  | None => ""
  end.

(** [p.parent]: the path without its last part; the root and the empty
    path are their own parents. *)
Definition path_parent (p : PurePath) : PurePath :=
  if String.eqb (path_name p) "" then p else removelast p.

(** [p.suffix] and [p.stem] (CPython 3.8 to 3.13):
    [i = name.rfind('.')], and the name splits at [i] when
    [0 < i < len(name) - 1]. *)
Definition path_suffix (p : PurePath) : string :=
  let name := path_name p in
  match rfind "." name with
  | Some i =>
      if (0 <? i)%nat && (S i <? String.length name)%nat
      then String.substring i (String.length name - i) name
      else ""
  | None => ""
  end.

Definition path_stem (p : PurePath) : string :=
  let name := path_name p in
  match rfind "." name with
  | Some i =>
      if (0 <? i)%nat && (S i <? String.length name)%nat
      then String.substring 0 i name
      else name
  | None => name
  end.

(** [p / s]: an absolute [s] replaces [p]. *)
Definition joinpath (p : PurePath) (s : string) : PurePath :=
  let q := Path s in
  if has_root q then q else p ++ q.

(** ** Data model *)

(** [RotationPolicy]. [max_size_mb] is a finite float (or an int), held as
    the rational it denotes. *)
Record RotationPolicy := {
  max_size_mb : Q;
  max_age_days : Z;
  compress : string;
  timestamp_format : string;
  backup_count : Z
}.

Definition default_policy : RotationPolicy :=
  {| max_size_mb := 100 # 1; max_age_days := 30; compress := "gzip";
     timestamp_format := "%Y%m%d_%H%M%S"; backup_count := 10 |}.

(** [RotationResult]. *)
Record RotationResult := {
  source : string;
  destination : string;
  original_size : Z;
  compressed_size : option Z;
  timestamp : Z
}.

(** The two writers of the [COMPRESSORS] table. *)
Inductive compressor := gzip_open | bz2_open.

(** [COMPRESSORS]: name to (suffix, writer). *)
Definition COMPRESSORS : gmap string (string * option compressor) :=
  <["gzip" := (".gz", Some gzip_open)]>
  (<["bz2" := (".bz2", Some bz2_open)]>
  (<["none" := ("", None)]> ∅)).

(** [COMPRESSORS.get(name, COMPRESSORS['none'])]. *)
Definition COMPRESSORS_get (name : string) : string * option compressor :=
  default (COMPRESSORS !!! "none") (COMPRESSORS !! name).

(** A node of the filesystem: what [stat], [open] and [unlink] see. *)
Inductive node :=
  | File (content : bytes) (mtime : Z)
  | Dir (size : Z) (mtime : Z).

Definition st_size (n : node) : Z :=
  match n with
  | File c _ => Z.of_nat (length c)
  | Dir s _ => s
  end.

Definition st_mtime (n : node) : Z :=
  match n with
  | File _ t => t
  | Dir _ t => t
  end.

Definition is_file (n : node) : bool :=
  match n with
  | File _ _ => true
  | Dir _ _ => false
  end.

Definition is_dir (n : option node) : bool :=
  match n with
  | Some (Dir _ _) => true
  | _ => false
  end.

(** The state the engine runs in: the attributes of the [LogRotator]
    object ([policy], [results]) and the world ([fs], the number of clock
    readings so far, the lines printed). *)
Record State := {
  policy : RotationPolicy;
  results : list RotationResult;
  fs : gmap PurePath node;
  ticks : nat;
  stdout : list string
}.

Definition LogRotator_init (pol : option RotationPolicy)
    (files : gmap PurePath node) : State :=
  {| policy := default default_policy pol; results := [];
     fs := files; ticks := 0; stdout := [] |}.

Definition set_fs (f : gmap PurePath node → gmap PurePath node) (st : State)
    : State :=
  {| policy := policy st; results := results st; fs := f (fs st);
     ticks := ticks st; stdout := stdout st |}.

Definition tick (st : State) : State :=
  {| policy := policy st; results := results st; fs := fs st;
     ticks := S (ticks st); stdout := stdout st |}.

(** ** Exceptions and the state monad *)

Inductive exn :=
  | FileNotFoundError (p : string)
  | IsADirectoryError (p : string)
  | PermissionError (p : string)
  | SameFileError (p : string)
  | OSError (p : string)
  | OverflowError (msg : string).

Inductive outcome (A : Type) :=
  | Ok (a : A)
  | Raise (e : exn).
Arguments Ok {A} a.
Arguments Raise {A} e.

(** [RotationPolicy(...)]: the [__init__] the dataclass generates stores
    its arguments; the class has no [__post_init__] and checks nothing. *)
Definition RotationPolicy_init (max_size_mb : Q) (max_age_days : Z)
    (compress timestamp_format : string) (backup_count : Z)
    : outcome RotationPolicy :=
  Ok {| max_size_mb := max_size_mb; max_age_days := max_age_days;
        compress := compress; timestamp_format := timestamp_format;
        backup_count := backup_count |}.

(** The namespace [argparse] hands to [main]. *)
Record Args := {
  args_pattern : string;
  args_max_size : string;
  args_compress : string;
  args_retain : Z;
  args_dry_run : bool
}.

(** What a call of [main] comes to: [float] rejects the size text with a
    [ValueError] before anything else runs, or the engine runs to an outcome
    in a state. *)
Inductive main_outcome :=
  | MainValueError
  | MainRan (o : outcome unit) (st : State).

Definition M (A : Type) : Type := State → outcome A * State.

Global Instance M_ret : MRet M := λ A a st, (Ok a, st).
Global Instance M_bind : MBind M := λ A B f m st,
  match m st with
  | (Ok a, st') => f a st'
  | (Raise e, st') => (Raise e, st')
  end.

Definition raise {A} (e : exn) : M A := λ st, (Raise e, st).
Definition gets {A} (f : State → A) : M A := λ st, (Ok (f st), st).
Definition modify (f : State → State) : M unit := λ st, (Ok tt, f st).

(** What the environment does to a write: nothing, a refusal to open the
    file ([EACCES], a missing parent, a read-only mount), or a failure after
    [n] bytes reached the file ([ENOSPC], a device error). *)
Inductive fault :=
  | NoFault
  | OpenFails
  | WriteFails (n : nat).

(** ** Python's numbers *)

(** An integer rounded to 53 significant bits, ties to even: what the
    conversion to [float] does. Below [2^53] it is the identity. *)
Definition round53 (n : Z) : Z :=
  if n <? 2 ^ 53 then n
  else
    let e := Z.log2 n - 52 in
    let q := Z.shiftr n e in
    let r := Z.land n (Z.ones e) in
    let half := 2 ^ (e - 1) in
    let q' := if (half <? r) || ((r =? half) && Z.odd q) then q + 1 else q in
    Z.shiftl q' e.

(** [n / (1024 * 1024)] for an int [n >= 0]: Python's true division is
    correctly rounded, and a quotient by [2^20] only rounds [n] itself. *)
Definition div_MiB (n : Z) : Q := round53 n # 1048576.

(** [timedelta(days=1)], in microseconds. *)
Definition microseconds_per_day : Z := 86400000000.

(** [datetime.min] (0001-01-01T00:00:00) and [datetime.max]
    (9999-12-31T23:59:59.999999), in microseconds from
    1970-01-01T00:00:00. *)
Definition datetime_min : Z := -62135596800000000.
Definition datetime_max : Z := 253402300799999999.

(** [timedelta(days=d)]: refused beyond 999999999 days either way. *)
Definition timedelta_days (d : Z) : option Z :=
  if Z.abs d <=? 999999999 then Some (d * microseconds_per_day) else None.

(** [t - delta] on a [datetime]: refused when the result leaves the range
    of [datetime]. *)
Definition datetime_sub (t delta : Z) : option Z :=
  let r := t - delta in
  if (datetime_min <=? r) && (r <=? datetime_max) then Some r else None.

(** Round to the nearest integer, ties to even. *)
Definition round_half_even (q : Q) : Z :=
  let f := Qfloor q in
  match Qcompare (q - inject_Z f) (1 # 2) with
  | Lt => f
  | Gt => f + 1
  | Eq => if Z.even f then f else f + 1
  end.

(** [floor(log2 q)] for a positive rational. *)
Definition Qlog2 (q : Q) : Z :=
  let e0 := Z.log2 (Qnum q) - Z.log2 (Zpos (Qden q)) in
  if Qle_bool (2 ^ e0) q then e0 else e0 - 1.

(** The binary64 number nearest to [q], ties to even: [q] is scaled to
    have its leading bit at [2^52], rounded to an integer and scaled
    back. Every float operation of the engine is the exact result put
    through it. *)
Definition binary64 (q : Q) : Q :=
  if Qeq_bool q 0 then 0%Q
  else
    let s := 52 - Qlog2 (Qabs q) in
    (inject_Z (round_half_even (q * 2 ^ s)) * 2 ^ (- s))%Q.

(** [f"{q:.{d}f}"]. *)
Definition format_f (d : nat) (q : Q) : string :=
  let scale := 10 ^ Z.of_nat d in
  let r := Z.abs (round_half_even (q * inject_Z scale)) in
  let frac := pretty (r mod scale) in
  let pad := String.concat "" (replicate (d - String.length frac) "0") in
  (if Qlt_le_dec q 0 then "-" else "") +:+
  pretty (r / scale) +:+ (if d is O then "" else "." +:+ pad +:+ frac).

(** ** A small concrete world

    Stand-ins for the library functions and a few filesystems, on which
    the engine can be run. *)

Module Demo.

(** Renders the instant as its decimal reading, whatever the format. *)
Definition strftime (fmt : string) (t : Z) : string := pretty t.

(** A two-byte magic number in front of the data. *)
Definition magic (c : compressor) : bytes :=
  match c with
  | gzip_open => [x1f; x8b]
  | bz2_open => [x42; x5a]
  end.

Definition compress_bytes (c : compressor) (data : bytes) : bytes :=
  magic c ++ data.

Definition decompress_bytes (c : compressor) (stored : bytes)
    : option bytes :=
  if (length stored <? length (magic c))%nat then None
  else Some (drop (length (magic c)) stored).

(** Patterns of the form [*suffix]: the paths present whose text ends
    with the suffix, in the order the map lists them. *)
Definition glob_glob (pattern : string) (m : gmap PurePath node)
    : list string :=
  filter (λ s, endswith s (String.substring 1 (String.length pattern) pattern))
         (str <$> (map_to_list m).*1).

Definition clock (n : nat) : Z := 1000 + Z.of_nat n.

(** [float] on plain runs of decimal digits. *)
Fixpoint digits (acc : Z) (s : string) : option Z :=
  match s with
  | EmptyString => Some acc
  | String a s' =>
      match Ascii.is_nat a with
      | Some d => digits (10 * acc + Z.of_nat d) s'
      | None => None
      end
  end.

Definition float (s : string) : option Q :=
  match s with
  | EmptyString => None
  | _ => inject_Z <$> digits 0 s
  end.

Definition no_faults : PurePath → fault := λ _, NoFault.

(** The environment fails the writes to one path. *)
Definition fail_at (p : PurePath) (f : fault) : PurePath → fault :=
  λ q, if decide (q = p) then f else NoFault.

(** Rotation is due from 3 bytes on. *)
Definition policy_with (name : string) : RotationPolicy :=
  {| max_size_mb := 3 # 1048576; max_age_days := 30; compress := name;
     timestamp_format := "%s"; backup_count := 10 |}.

(** The working directory with a small and a large log. *)
Definition logs : gmap PurePath node :=
  <[ ["a.log"] := File [x61] 5 ]>
  (<[ ["b.log"] := File [x62; x62; x62; x62; x62] 6 ]>
  (<[ [] := Dir 4096 0 ]> ∅)).

Definition start (name : string) : State :=
  LogRotator_init (Some (policy_with name)) logs.

(** The working directory with two large logs. *)
Definition two_large : gmap PurePath node :=
  <[ ["a.log"] := File [x61; x61; x61] 5 ]>
  (<[ ["b.log"] := File [x62; x62; x62; x62; x62] 6 ]>
  (<[ [] := Dir 4096 0 ]> ∅)).

(** A clock that reads day 100, and archives written on days 60, 70
    and 90, next to a directory with an archive's name. *)
Definition clock_day100 (n : nat) : Z :=
  100 * microseconds_per_day + Z.of_nat n.

Definition archives : gmap PurePath node :=
  <[ ["arch"; "app.1.log.gz"] := File [x1f; x8b] (60 * microseconds_per_day) ]>
  (<[ ["arch"; "app.2.log.gz"] := File [x1f; x8b] (70 * microseconds_per_day) ]>
  (<[ ["arch"; "app.3.log.bz2"] := File [x42; x5a] (90 * microseconds_per_day) ]>
  (<[ ["arch"; "app.0.log"] := File [x61] (10 * microseconds_per_day) ]>
  (<[ ["arch"] := Dir 4096 0 ]> ∅)))).

Definition sweep_start : State :=
  LogRotator_init (Some (policy_with "gzip")) archives.

(** The archives under a retention of a million days, which reaches
    back before the year 1. *)
Definition long_retention : State :=
  LogRotator_init
    (Some {| max_size_mb := 3 # 1048576; max_age_days := 1000000;
             compress := "gzip"; timestamp_format := "%s";
             backup_count := 10 |})
    archives.

(** A history with one compressed and one plain archive. *)
Definition history : list RotationResult :=
  [ {| source := "b.log"; destination := "b.1000.log.gz";
       original_size := 400; compressed_size := Some 100;
       timestamp := 1003 |};
    {| source := "c.log"; destination := "c.1004.log";
       original_size := 100; compressed_size := None;
       timestamp := 1007 |} ].

Definition with_history : State :=
  {| policy := policy_with "gzip"; results := history; fs := logs;
     ticks := 8; stdout := [] |}.

(** The working directory where the name of the next gzip archive of
    [b.log] is already taken by a file. *)
Definition with_archive : State :=
  LogRotator_init (Some (policy_with "gzip"))
    (<[ ["b.1000.log.gz"] := File [x00] 1 ]> logs).

(** The working directory with a directory at [p]. *)
Definition dir_at (p : PurePath) (name : string) : State :=
  LogRotator_init (Some (policy_with name)) (<[ p := Dir 4096 1 ]> logs).

(** The archives, with a directory named like an archive and 10 days
    old. *)
Definition archives_with_dir : gmap PurePath node :=
  <[ ["arch"; "old.gz"] := Dir 4096 (10 * microseconds_per_day) ]> archives.

(** A history whose saving is a tie in the first decimal. *)
Definition rounding_history : list RotationResult :=
  [ {| source := "d.log"; destination := "d.1008.log.gz";
       original_size := 80; compressed_size := Some 29;
       timestamp := 1011 |} ].

(** A history of plain copies. *)
Definition plain_history : list RotationResult :=
  [ {| source := "c.log"; destination := "c.1004.log";
       original_size := 100; compressed_size := None;
       timestamp := 1007 |} ].

(** The command line [*.log --max-size <max_size>], with or without
    [--dry-run]. *)
Definition args (max_size : string) (dry_run : bool) : Args :=
  {| args_pattern := "*.log"; args_max_size := max_size;
     args_compress := "gzip"; args_retain := 30; args_dry_run := dry_run |}.

End Demo.

(** ** The engine *)

Section Engine.

Set Default Proof Using "Type".

(** [datetime.strftime]: format, instant, rendered text. *)
Variable strftime : string → Z → string.
(** What a writer of [COMPRESSORS] leaves in the archive for given input
    bytes, and the matching reader. *)
Variable compress_bytes : compressor → bytes → bytes.
Variable decompress_bytes : compressor → bytes → option bytes.
(** [glob.glob]: the matches of a pattern, in the order of the directory
    scan. Nothing relates them to the filesystem at the time a match is
    used: a match may have disappeared by then. *)
Variable glob_glob : string → gmap PurePath node → list string.
(** The successive readings of the clock. *)
Variable clock : nat → Z.
(** The environment's fault at each path opened for writing. *)
Variable faults : PurePath → fault.
(** [float(text)] on the texts it rejects or reads as a finite number;
    [None] is its [ValueError]. Texts read as an infinity or a NaN are
    outside the model, as is a product by 1024 that overflows (short of
    that the product is exact). *)
Variable float : string → option Q.

(** *** Primitives: clock, output, filesystem *)

(** One reading of the clock ([datetime.now()], or the kernel stamping a
    write). *)
Definition now : M Z := λ st, (Ok (clock (ticks st)), tick st).

Definition print (line : string) : M unit := λ st,
  (Ok tt,
   {| policy := policy st; results := results st; fs := fs st;
      ticks := ticks st; stdout := stdout st ++ [line] |}).

(** [self.results.append(r)]. *)
Definition results_append (r : RotationResult) : M unit := λ st,
  (Ok tt,
   {| policy := policy st; results := results st ++ [r]; fs := fs st;
      ticks := ticks st; stdout := stdout st |}).

(** [p.exists()]. *)
Definition path_exists (p : PurePath) : M bool :=
  gets (λ st, bool_decide (is_Some (fs st !! p))).

(** [p.stat()]. *)
Definition path_stat (p : PurePath) : M node := λ st,
  match fs st !! p with
  | Some n => (Ok n, st)
  | None => (Raise (FileNotFoundError (str p)), st)
  end.

(** [open(p, 'rb').read()]. *)
Definition read_bytes (p : PurePath) : M bytes := λ st,
  match fs st !! p with
  | Some (File c _) => (Ok c, st)
  | Some (Dir _ _) => (Raise (IsADirectoryError (str p)), st)
  | None => (Raise (FileNotFoundError (str p)), st)
  end.

(** [open(p, 'wb')] followed by the write of [data] and the close. Opening
    creates or empties the file; a failing write leaves what reached it. *)
Definition write_bytes (p : PurePath) (data : bytes) : M unit := λ st,
  if is_dir (fs st !! p) then (Raise (IsADirectoryError (str p)), st)
  else match faults p with
       | OpenFails => (Raise (PermissionError (str p)), st)
       | WriteFails n =>
           (t ← now;
            modify (set_fs (insert p (File (take n data) t)));;
            raise (OSError (str p))) st
       | NoFault =>
           (t ← now; modify (set_fs (insert p (File data t)))) st
       end.

(** [shutil.copy2(src, dst)]: into [dst] when it is a directory; refuses
    to copy a file onto itself; copies the bytes, then the source's
    times. *)
Definition copy2 (src dst : PurePath) : M unit :=
  dst_is_dir ← gets (λ st, is_dir (fs st !! dst));
  let dst :=
    if (dst_is_dir : bool) then joinpath dst (path_name src) else dst in
  if bool_decide (src = dst) then raise (SameFileError (str src))
  else
    data ← read_bytes src;
    write_bytes dst data;;
    n ← path_stat src;
    modify (set_fs (insert dst (File data (st_mtime n)))).

(** [with open(p, 'w') as f: f.truncate(0)]. *)
Definition truncate (p : PurePath) : M unit := λ st,
  if is_dir (fs st !! p) then (Raise (IsADirectoryError (str p)), st)
  else match faults p with
       | OpenFails => (Raise (PermissionError (str p)), st)
       | _ => (t ← now; modify (set_fs (insert p (File [] t)))) st
       end.

(** [p.unlink()]. *)
Definition unlink (p : PurePath) : M unit := λ st,
  match fs st !! p with
  | Some (File _ _) => (Ok tt, set_fs (delete p) st)
  | Some (Dir _ _) => (Raise (IsADirectoryError (str p)), st)
  | None => (Raise (FileNotFoundError (str p)), st)
  end.

(** *** [LogRotator.should_rotate] *)

Definition should_rotate (filepath : string) : M bool :=
  let path := Path filepath in
  ex ← path_exists path;
  if negb ex then mret false
  else
    n ← path_stat path;
    let size_mb := div_MiB (st_size n) in
    pol ← gets policy;
    mret (Qle_bool (max_size_mb pol) size_mb).

(** *** [LogRotator.rotate_file] *)

(** Lines 69-75: the archive's path for a rotation at instant [t]. *)
Definition dest_path (pol : RotationPolicy) (t : Z) (path : PurePath)
    : PurePath :=
  let timestamp := strftime (timestamp_format pol) t in
  let ext_suffix := (COMPRESSORS_get (compress pol)).1 in
  let dest_name := path_stem path +:+ "." +:+ timestamp +:+
                   path_suffix path +:+ ext_suffix in
  joinpath (path_parent path) dest_name.

Definition rotate_file (filepath : string) (dry_run : bool)
    : M (option RotationResult) :=
  let path := Path filepath in
  ex ← path_exists path;
  if negb ex then mret None
  else
    t ← now;
    pol ← gets policy;
    let compressor := (COMPRESSORS_get (compress pol)).2 in
    let dest_path := dest_path pol t path in
    n ← path_stat path;
    let original_size := st_size n in
    if dry_run then
      print ("[DRY RUN] Would rotate: " +:+ str path +:+ " -> "
             +:+ str dest_path);;
      t' ← now;
      mret (Some {| source := str path; destination := str dest_path;
                    original_size := original_size; compressed_size := None;
                    timestamp := t' |})
    else
      compressed_size ←
        match compressor with
        | Some c =>
            data ← read_bytes path;
            write_bytes dest_path (compress_bytes c data);;
            d ← path_stat dest_path;
            mret (Some (st_size d))
        | None =>
            copy2 path dest_path;;
            mret None
        end;
      truncate path;;
      t' ← now;
      let result := {| source := str path; destination := str dest_path;
                       original_size := original_size;
                       compressed_size := compressed_size;
                       timestamp := t' |} in
      results_append result;;
      mret (Some result).

(** *** [LogRotator.rotate] *)

(** [sorted(xs)] on strings: ascending in the order of [str], which
    compares character codes. *)
Definition sorted (xs : list string) : list string :=
  merge_sort String.le xs.

(** The body of the [for] loop, with the local list [results] as
    accumulator. *)
Fixpoint rotate_loop (dry_run : bool) (files : list string)
    (acc : list RotationResult) : M (list RotationResult) :=
  match files with
  | [] => mret acc
  | filepath :: rest =>
      due ← should_rotate filepath;
      if (due : bool) then
        result ← rotate_file filepath dry_run;
        match result with
        | Some r => rotate_loop dry_run rest (acc ++ [r])
        | None => rotate_loop dry_run rest acc
        end
      else rotate_loop dry_run rest acc
  end.

Definition rotate (pattern : string) (dry_run : bool)
    : M (list RotationResult) :=
  files ← gets (λ st, sorted (glob_glob pattern (fs st)));
  rotate_loop dry_run files [].

(** *** [LogRotator.cleanup_old] *)

(** [dir.glob('*' + ext)]: the entries of the directory whose name ends
    with [ext], hidden ones included, in scan order; nothing when [dir] is
    not a directory. The scan is completed before the first entry is
    handed out. *)
Definition in_glob (dir : PurePath) (ext : string) (p : PurePath) : bool :=
  bool_decide (path_parent p = dir) && endswith (path_name p) ext.

Definition Path_glob (dir : PurePath) (ext : string) : M (list PurePath) :=
  gets (λ st,
    if is_dir (fs st !! dir)
    then filter (λ p, in_glob dir ext p) (map fst (map_to_list (fs st)))
    else []).

Fixpoint cleanup_loop (dry_run : bool) (cutoff : Z) (paths : list PurePath)
    (removed : Z) : M Z :=
  match paths with
  | [] => mret removed
  | path :: rest =>
      n ← path_stat path;
      let mtime := st_mtime n in
      if mtime <? cutoff then
        (if dry_run then print ("[DRY RUN] Would delete: " +:+ str path)
         else unlink path);;
        cleanup_loop dry_run cutoff rest (removed + 1)
      else cleanup_loop dry_run cutoff rest removed
  end.

(** Line 112: [datetime.now() - timedelta(days=self.policy.max_age_days)].
    Both the construction of the [timedelta] and the subtraction raise
    [OverflowError] outside their ranges. *)
Definition cleanup_cutoff : M Z :=
  t ← now;
  pol ← gets policy;
  match timedelta_days (max_age_days pol) with
  | None =>
      raise (OverflowError ("days=" +:+ pretty (max_age_days pol)
                            +:+ "; must have magnitude <= 999999999"))
  | Some delta =>
      match datetime_sub t delta with
      | None => raise (OverflowError "date value out of range")
      | Some cutoff => mret cutoff
      end
  end.

Definition cleanup_old (directory : string) (dry_run : bool) : M Z :=
  cutoff ← cleanup_cutoff;
  let dir_path := Path directory in
  gz ← Path_glob dir_path ".gz";
  removed ← cleanup_loop dry_run cutoff gz 0;
  bz2 ← Path_glob dir_path ".bz2";
  cleanup_loop dry_run cutoff bz2 removed.

(** *** [LogRotator.summary] *)

Definition sumZ (xs : list Z) : Z := foldr Z.add 0 xs.

(** [r.compressed_size or r.original_size]: [None] and [0] are both
    falsy. *)
Definition stored_size (r : RotationResult) : Z :=
  match compressed_size r with
  | Some c => if c =? 0 then original_size r else c
  | None => original_size r
  end.

Definition total_original (rs : list RotationResult) : Z :=
  sumZ (original_size <$> rs).

Definition total_compressed (rs : list RotationResult) : Z :=
  sumZ (stored_size <$> rs).

(** Line 132: [(1 - total_compressed / total_original) * 100], a true
    division of two ints, then a subtraction and a product of floats. *)
Definition ratio (rs : list RotationResult) : Q :=
  if 0 <? total_original rs
  then binary64
         (binary64
            (1 - binary64 (inject_Z (total_compressed rs)
                           / inject_Z (total_original rs))) * 100)
  else 0%Q.

(** [n / 1024 / 1024]: a true division of ints, then one of floats. *)
Definition megabytes (n : Z) : Q :=
  binary64 (binary64 (inject_Z n / 1024) / 1024).

Definition newline : string := String "010" "".

Definition summary : M string :=
  rs ← gets results;
  let lines :=
    [ "Rotated " +:+ pretty (length rs) +:+ " file(s)";
      "Original total: " +:+
        format_f 2 (megabytes (total_original rs)) +:+ " MB";
      "Compressed total: " +:+
        format_f 2 (megabytes (total_compressed rs)) +:+ " MB";
      "Space saved: " +:+ format_f 1 (ratio rs) +:+ "%" ] in
  mret (String.concat newline lines).

(** *** [main] *)

(** Lines 153-155: the threshold in MB read off the size text. *)
Definition parse_max_size (max_size : string) : option Q :=
  match float (rstrip "MmGg" max_size) with
  | Some size_mb =>
      Some (if endswith (upper max_size) "G" then (size_mb * 1024)%Q
            else size_mb)
  | None => None
  end.

(** Lines 157-161: the policy [main] builds; the other fields keep their
    defaults. *)
Definition main_policy (args : Args) (size_mb : Q) : RotationPolicy :=
  {| max_size_mb := size_mb; max_age_days := args_retain args;
     compress := args_compress args;
     timestamp_format := timestamp_format default_policy;
     backup_count := backup_count default_policy |}.

(** Line 163: [LogRotator(policy)], a new engine in the world of [st]. *)
Definition new_rotator (pol : RotationPolicy) (st : State) : State :=
  {| policy := pol; results := []; fs := fs st;
     ticks := ticks st; stdout := stdout st |}.

(** Lines 164-169: the batch and the report. *)
Definition main_run (args : Args) : M unit :=
  results ← rotate (args_pattern args) (args_dry_run args);
  match results with
  | _ :: _ => text ← summary; print text
  | [] => print "No files needed rotation."
  end.

(** [main], from the parsed arguments on: the state passed in gives the
    world; the policy and the empty history are the new [LogRotator]'s. *)
Definition main (args : Args) (st : State) : main_outcome :=
  match parse_max_size (args_max_size args) with
  | None => MainValueError
  | Some size_mb =>
      let rotator := new_rotator (main_policy args size_mb) st in
      MainRan (main_run args rotator).1 (main_run args rotator).2
  end.

(** *** Vocabulary of the properties *)

(** The archiving step of [rotate_file] (lines 83-90). *)
Definition archive_step (k : option compressor) (src dst : PurePath)
    : M (option Z) :=
  match k with
  | Some c =>
      data ← read_bytes src;
      write_bytes dst (compress_bytes c data);;
      d ← path_stat dst;
      mret (Some (st_size d))
  | None => copy2 src dst;; mret None
  end.

(** What reading an archive back gives: the writer's inverse, or the bytes
    themselves for the identity backend. *)
Definition archive_content (pol : RotationPolicy) (stored : bytes)
    : option bytes :=
  match (COMPRESSORS_get (compress pol)).2 with
  | Some c => decompress_bytes c stored
  | None => Some stored
  end.

(** The bytes a complete archive holds. *)
Definition stored_form (pol : RotationPolicy) (content : bytes) : bytes :=
  match (COMPRESSORS_get (compress pol)).2 with
  | Some c => compress_bytes c content
  | None => content
  end.

(** [frames R m]: every run of [m], returning or raising, relates the
    state before to the state after by [R]. *)
Definition frames {A} (R : relation State) (m : M A) : Prop :=
  ∀ st, R st (m st).2.

(** The engine object is left alone: same policy, same history. *)
Definition same_engine : relation State :=
  λ st st', policy st' = policy st ∧ results st' = results st.

(** Nothing but the clock and the output moves. *)
Definition same_files : relation State :=
  λ st st', fs st' = fs st ∧ same_engine st st'.

(** The entry at [p] is older than the cutoff. *)
Definition oldb (cutoff : Z) (m : gmap PurePath node) (p : PurePath) : bool :=
  match m !! p with
  | Some n => st_mtime n <? cutoff
  | None => false
  end.

(** The retention can be taken off the instant [t]: it is a [timedelta],
    and the cutoff is a date [datetime] has. *)
Definition representable_cutoff (t days : Z) : Prop :=
  Z.abs days ≤ 999999999 ∧
  datetime_min ≤ t - days * microseconds_per_day ≤ datetime_max.

Global Instance representable_cutoff_dec t days :
  Decision (representable_cutoff t days).
Proof. unfold representable_cutoff. apply _. Defined.

(** An archive due for removal: an entry of the directory [dir] whose name
    ends with [".gz"] or [".bz2"] and whose modification time is strictly
    before the cutoff. *)
Definition expired (dir : PurePath) (cutoff : Z) (m : gmap PurePath node)
    (pn : PurePath * node) : Prop :=
  is_dir (m !! dir) ∧
  (in_glob dir ".gz" pn.1 ∨ in_glob dir ".bz2" pn.1) ∧
  st_mtime pn.2 < cutoff.

Global Instance expired_dec dir cutoff m pn :
  Decision (expired dir cutoff m pn).
Proof. unfold expired. apply _. Defined.

(** The size an archive takes as the data model has it: the compressed
    size when there is one, the original size otherwise. *)
Definition size_on_disk (r : RotationResult) : Z :=
  default (original_size r) (compressed_size r).

(** A history in which no recorded compressed size is zero. Every history
    the engine builds is one when the writers never produce an empty
    archive ([rotate_file_history_nonzero] below). *)
Definition nonzero_sizes (rs : list RotationResult) : Prop :=
  Forall (λ r, compressed_size r ≠ Some 0) rs.

Definition empty_summary : string :=
  String.concat newline
    [ "Rotated 0 file(s)"; "Original total: 0.00 MB";
      "Compressed total: 0.00 MB"; "Space saved: 0.0%" ].

(** The batch as the specification words it: the files are taken in
    order; a file that is not due (or is gone) is passed over and gives no
    result; a file that is due is rotated, and its result comes before the
    results of the files after it. *)
Inductive rotated_in_order (dry_run : bool)
    : list string → State → list RotationResult → State → Prop :=
  | rotated_nil st :
      rotated_in_order dry_run [] st [] st
  | rotated_skip f files st rs st' :
      should_rotate f st = (Ok false, st) →
      rotated_in_order dry_run files st rs st' →
      rotated_in_order dry_run (f :: files) st rs st'
  | rotated_cons f files st r st1 rs st' :
      should_rotate f st = (Ok true, st) →
      rotate_file f dry_run st = (Ok (Some r), st1) →
      rotated_in_order dry_run files st1 rs st' →
      rotated_in_order dry_run (f :: files) st (r :: rs) st'.

(** The modification time of a complete archive: the instant of the
    write, or the source's own time when [copy2] copied it. *)
Definition archive_mtime (pol : RotationPolicy) (written source_mtime : Z)
    : Z :=
  match (COMPRESSORS_get (compress pol)).2 with
  | Some _ => written
  | None => source_mtime
  end.

Definition recorded_size (pol : RotationPolicy) (content : bytes)
    : option Z :=
  match (COMPRESSORS_get (compress pol)).2 with
  | Some c => Some (Z.of_nat (length (compress_bytes c content)))
  | None => None
  end.

(** The file at [filepath] is due in [st]: what [should_rotate] answers. *)
Definition due (st : State) (filepath : string) : bool :=
  match fs st !! Path filepath with
  | Some n => Qle_bool (max_size_mb (policy st)) (div_MiB (st_size n))
  | None => false
  end.

(** The integers whose quotients and products in [summary] stay inside
    the range of binary64, so that [binary64] is what Python computes. *)
Definition float_range (n : Z) : Prop := Z.abs n < 2 ^ 1000.

(** The saving as the specification words it, in exact arithmetic:
    [1 - stored / original] as a percentage, and [0] when nothing was
    rotated. *)
Definition space_saved (original stored : Z) : Q :=
  if original =? 0 then 0%Q
  else ((1 - inject_Z stored / inject_Z original) * 100)%Q.

(** The report [summary] gives of the history [rs]. *)
Definition summary_text (rs : list RotationResult) : string :=
  String.concat newline
    [ "Rotated " +:+ pretty (length rs) +:+ " file(s)";
      "Original total: " +:+
        format_f 2 (megabytes (total_original rs)) +:+ " MB";
      "Compressed total: " +:+
        format_f 2 (megabytes (total_compressed rs)) +:+ " MB";
      "Space saved: " +:+ format_f 1 (ratio rs) +:+ "%" ].

(** What a dry run reports for the file [f] seen in the state [st]: the
    file's path and size, and no compressed size. *)
Definition would_rotate (st : State) (f : string) (r : RotationResult)
    : Prop :=
  source r = str (Path f) ∧ compressed_size r = None ∧
  ∃ n, fs st !! Path f = Some n ∧ original_size r = st_size n.

(** Every path stays, and stays of its kind: a regular file is still a
    regular file, a directory still a directory. *)
Definition keeps_paths : relation State :=
  λ st st', ∀ p n, fs st !! p = Some n →
                   ∃ n', fs st' !! p = Some n' ∧ is_file n' = is_file n.

(** Whatever differs is the removal of a regular file that [P] holds of
    and that is older than the cutoff; nothing appears or changes. *)
Definition only_removes (P : PurePath → Prop) (cutoff : Z)
    (m m' : gmap PurePath node) : Prop :=
  ∀ q, m' !! q = m !! q ∨
       (m' !! q = None ∧ P q ∧
        ∃ c t, m !! q = Some (File c t) ∧ t < cutoff).

(** The same seen from outside, where a directory's own record may move:
    what is not a directory is as before or is a removed regular file as
    above, and a directory is still a directory. *)
Definition sweeps_only (P : PurePath → Prop) (cutoff : Z)
    (m m' : gmap PurePath node) : Prop :=
  ∀ q, if is_dir (m !! q) then is_dir (m' !! q) = true
       else m' !! q = m !! q ∨
            (m' !! q = None ∧ P q ∧
             ∃ c t, m !! q = Some (File c t) ∧ t < cutoff).

(** ** Properties *)

(** *** Paths and numbers on examples *)

Example Path_ex1 : Path "/var/log//app.log" = ["/"; "var"; "log"; "app.log"].
Proof. reflexivity. Qed.
Example Path_ex2 : Path "./app.log" = ["app.log"].
Proof. reflexivity. Qed.
Example Path_ex3 : str (Path "logs/./a.tar.gz/") = "logs/a.tar.gz".
Proof. reflexivity. Qed.
Example stem_ex : path_stem (Path "logs/a.tar.gz") = "a.tar"
                  ∧ path_suffix (Path "logs/a.tar.gz") = ".gz"
                  ∧ path_suffix (Path ".bashrc") = ""
                  ∧ path_suffix (Path "weird.") = ""
                  ∧ str (path_parent (Path "app.log")) = "."
                  ∧ str (path_parent (Path "/app.log")) = "/".
Proof. repeat split; reflexivity. Qed.
Example joinpath_ex : str (joinpath (path_parent (Path "app.log")) "app.1.log")
                      = "app.1.log"
                    ∧ str (joinpath (Path "/var/log") "x.gz") = "/var/log/x.gz".
Proof. split; reflexivity. Qed.

Example round53_small : round53 2097152 = 2097152.
Proof. reflexivity. Qed.
Example round53_tie_even : round53 (2 ^ 53 + 1) = 2 ^ 53.
Proof. reflexivity. Qed.
Example round53_tie_odd : round53 (2 ^ 53 + 3) = 2 ^ 53 + 4.
Proof. reflexivity. Qed.
Example format_f_ex : format_f 2 (5 # 4) = "1.25" ∧ format_f 1 (1 # 8) = "0.1"
    ∧ format_f 1 (-300 # 1) = "-300.0" ∧ format_f 2 0 = "0.00"
    ∧ format_f 1 (1 # 4) = "0.2".
Proof. repeat split; vm_compute; reflexivity. Qed.

(** *** Paths: the archive never has the name of its source *)

Lemma app_empty_l s : "" +:+ s = s.
Proof. reflexivity. Qed.
Lemma app_String a s t : String a s +:+ t = String a (s +:+ t).
Proof. reflexivity. Qed.
Lemma app_empty_r s : s +:+ "" = s.
Proof. induction s as [|a s IH]; [done|]. by rewrite app_String, IH. Qed.
Lemma length_app_str s t :
  String.length (s +:+ t) = (String.length s + String.length t)%nat.
Proof.
  induction s as [|a s IH]; [done|]. rewrite app_String. simpl. by rewrite IH.
Qed.

Lemma split_on_not_nil sep s : split_on sep s ≠ [].
Proof.
  destruct s as [|a s]; simpl; [done|].
  destruct (Ascii.eqb a sep); [done|]. by destruct (split_on sep s).
Qed.

Lemma split_on_no_sep sep s c : c ∈ split_on sep s → has_char sep c = false.
Proof.
  revert c. induction s as [|a s IH]; intros c; simpl.
  - by intros ->%list_elem_of_singleton.
  - destruct (Ascii.eqb a sep) eqn:E.
    + intros [->|?]%elem_of_cons; [done|by apply IH].
    + destruct (split_on sep s) as [|w ws] eqn:Hs.
      * intros ->%list_elem_of_singleton. simpl. by rewrite E.
      * intros [->|?]%elem_of_cons.
        -- simpl. rewrite E. apply IH. by left.
        -- apply IH. by right.
Qed.

Lemma split_on_app_l sep a b :
  has_char sep a = false →
  ∃ h t, split_on sep b = h :: t ∧ split_on sep (a +:+ b) = (a +:+ h) :: t.
Proof.
  intros Ha. induction a as [|x a IH].
  - destruct (split_on sep b) as [|h t] eqn:Hb;
      [by destruct (split_on_not_nil sep b)|].
    exists h, t. by rewrite !app_empty_l.
  - simpl in Ha. apply orb_false_elim in Ha as [E Ha].
    destruct (IH Ha) as (h & t & Hb & Hab). exists h, t. split; [done|].
    rewrite !app_String. simpl. by rewrite E, Hab.
Qed.

Lemma split_on_whole sep s : has_char sep s = false → split_on sep s = [s].
Proof.
  intros Hs. destruct (split_on_app_l sep s "" Hs) as (h & t & Hb & Hab).
  simpl in Hb. simplify_eq. by rewrite !app_empty_r in Hab.
Qed.

Lemma split_on_last_app sep a b :
  has_char sep b = false →
  ∃ l, last (split_on sep (a +:+ b)) = Some (l +:+ b).
Proof.
  intros Hb. induction a as [|x a [l IH]].
  - exists "". by rewrite !app_empty_l, split_on_whole.
  - rewrite app_String. simpl. destruct (Ascii.eqb x sep).
    + exists l. destruct (split_on sep (a +:+ b)) as [|w ws] eqn:Hs; [done|].
      exact IH.
    + destruct (split_on sep (a +:+ b)) as [|w ws] eqn:Hs; [done|].
      destruct ws as [|w' ws].
      * simpl in IH. simplify_eq. exists (String x l). by rewrite app_String.
      * exists l. exact IH.
Qed.

Lemma substring_split s : ∀ i,
  (i ≤ String.length s)%nat →
  String.substring 0 i s +:+ String.substring i (String.length s - i) s = s.
Proof.
  induction s as [|a s IH]; intros i Hi; simpl in Hi.
  - by destruct i.
  - destruct i as [|i].
    + simpl. rewrite app_empty_l. f_equal.
      specialize (IH 0%nat ltac:(lia)). simpl in IH.
      rewrite Nat.sub_0_r in IH.
      assert (String.substring 0 0 s = "") as H0 by by destruct s.
      by rewrite H0, app_empty_l in IH.
    + simpl. rewrite app_String. f_equal.
      apply IH. lia.
Qed.

Lemma length_substring s : ∀ i m,
  (i + m ≤ String.length s)%nat → String.length (String.substring i m s) = m.
Proof.
  induction s as [|a s IH]; intros i m H; simpl in H.
  - assert (i = 0 ∧ m = 0)%nat as [-> ->] by lia. done.
  - destruct i as [|i]; simpl.
    + destruct m as [|m]; [done|]. simpl. f_equal. apply IH. lia.
    + apply IH. lia.
Qed.

Lemma has_char_substring c s : ∀ i m,
  has_char c s = false → has_char c (String.substring i m s) = false.
Proof.
  induction s as [|a s IH]; intros i m H.
  - by destruct i, m.
  - simpl in H. apply orb_false_elim in H as [E H].
    destruct i as [|i]; simpl.
    + destruct m as [|m]; [done|]. simpl. by rewrite E, IH.
    + by apply IH.
Qed.

Lemma has_char_app c s t :
  has_char c (s +:+ t) = has_char c s || has_char c t.
Proof.
  induction s as [|a s IH]; [done|]. rewrite app_String. simpl.
  by rewrite IH, orb_assoc.
Qed.

(** The stem and the suffix of a name put together give the name; the stem
    of a name is not empty; a suffix is empty or at least two characters. *)
Lemma stem_suffix p :
  path_stem p +:+ path_suffix p = path_name p.
Proof.
  unfold path_stem, path_suffix.
  destruct (rfind "." (path_name p)) as [i|]; [|by rewrite app_empty_r].
  destruct ((0 <? i)%nat && (S i <? String.length (path_name p))%nat) eqn:E;
    [|by rewrite app_empty_r].
  apply andb_true_iff in E as [_ E%Nat.ltb_lt].
  apply substring_split. lia.
Qed.

Lemma stem_not_empty p : path_name p ≠ "" → path_stem p ≠ "".
Proof.
  intros Hn. unfold path_stem.
  destruct (rfind "." (path_name p)) as [i|]; [|done].
  destruct ((0 <? i)%nat && (S i <? String.length (path_name p))%nat) eqn:E;
    [|done].
  apply andb_true_iff in E as [E1%Nat.ltb_lt E2%Nat.ltb_lt].
  intros H. apply (f_equal String.length) in H.
  rewrite length_substring in H by lia. simpl in H. lia.
Qed.

Lemma suffix_length p :
  path_suffix p = "" ∨ (2 ≤ String.length (path_suffix p))%nat.
Proof.
  unfold path_suffix.
  destruct (rfind "." (path_name p)) as [i|]; [|by left].
  destruct ((0 <? i)%nat && (S i <? String.length (path_name p))%nat) eqn:E;
    [|by left].
  apply andb_true_iff in E as [E1%Nat.ltb_lt E2%Nat.ltb_lt].
  right. rewrite length_substring by lia. lia.
Qed.

Lemma is_root_has_slash c : is_root c = true → has_char "/" c = true.
Proof.
  unfold is_root. intros [H|H]%orb_true_iff; apply String.eqb_eq in H; by subst.
Qed.

Lemma path_root_is_root s : path_root s = "" ∨ is_root (path_root s) = true.
Proof.
  unfold path_root.
  destruct (String.prefix "//" s && negb (String.prefix "///" s)); [by right|].
  destruct (String.prefix "/" s); [by right|by left].
Qed.

Lemma path_root_no_slash x r :
  Ascii.eqb x "/" = false → path_root (String x r) = "".
Proof.
  intros E. unfold path_root. cbn [String.prefix].
  destruct (ascii_dec "/" x) as [<-|]; [done|done].
Qed.

Lemma Path_elem s c :
  c ∈ Path s → is_root c = false →
  c ∈ split_on "/" s ∧ c ≠ "" ∧ c ≠ ".".
Proof.
  unfold Path. intros Hc Hr.
  assert (c ∈ filter (λ c, c ≠ "" ∧ c ≠ ".") (split_on "/" s)) as Hf.
  { destruct (String.eqb_spec (path_root s) "") as [E|E]; [done|].
    apply elem_of_cons in Hc as [->|?]; [|done].
    destruct (path_root_is_root s); congruence. }
  apply list_elem_of_filter in Hf as [[? ?] ?]. done.
Qed.

(** A path with a name is its parent followed by the name, and the name is
    one of the components of the text it was parsed from. *)
Lemma path_name_parent s :
  path_name (Path s) ≠ "" →
  Path s = path_parent (Path s) ++ [path_name (Path s)] ∧
  path_name (Path s) ∈ split_on "/" s.
Proof.
  intros Hn. unfold path_parent.
  destruct (String.eqb_spec (path_name (Path s)) "") as [|_]; [done|].
  revert Hn. unfold path_name.
  destruct (last (Path s)) as [n|] eqn:Hl; [|done].
  destruct (is_root n) eqn:Hr; [done|]. intros _.
  apply last_Some in Hl as [pre Hp]. rewrite Hp.
  split; [by rewrite removelast_last|].
  apply (Path_elem s n); [|done]. rewrite Hp. apply elem_of_app. right. by left.
Qed.

Lemma COMPRESSORS_get_other name :
  name ≠ "gzip" → name ≠ "bz2" → COMPRESSORS_get name = ("", None).
Proof.
  intros Hgz Hbz. unfold COMPRESSORS_get, COMPRESSORS.
  rewrite !lookup_insert_ne by done.
  destruct (decide (name = "none")) as [->|Hn]; [by vm_compute|].
  rewrite lookup_insert_ne, lookup_empty by done. by vm_compute.
Qed.

Lemma COMPRESSORS_get_suffix name :
  has_char "/" (COMPRESSORS_get name).1 = false.
Proof.
  destruct (decide (name = "gzip")) as [->|Hgz]; [done|].
  destruct (decide (name = "bz2")) as [->|Hbz]; [done|].
  by rewrite COMPRESSORS_get_other.
Qed.

(** The destination of a path that has a name differs from the path: the
    first component of the archive's name is longer than the source's
    name, or the name ends in components that the parser keeps. So the
    archive is never written over the file being read. *)
Lemma dest_path_ne pol t s :
  path_name (Path s) ≠ "" → dest_path pol t (Path s) ≠ Path s.
Proof.
  intros Hn. destruct (path_name_parent s Hn) as [Hp Hin].
  pose proof (split_on_no_sep _ _ _ Hin) as Hslash.
  pose proof (stem_suffix (Path s)) as Hss.
  pose proof (stem_not_empty _ Hn) as Hstem.
  unfold dest_path, joinpath.
  set (T := strftime (timestamp_format pol) t).
  set (ext := (COMPRESSORS_get (compress pol)).1).
  set (stem := path_stem (Path s)) in *.
  set (suffix := path_suffix (Path s)) in *.
  set (n := path_name (Path s)) in *.
  set (pre := path_parent (Path s)) in *.
  rewrite <-Hss, has_char_app in Hslash.
  apply orb_false_elim in Hslash as [Hst Hsu].
  destruct (split_on_app_l "/" "." (T +:+ suffix +:+ ext) eq_refl)
    as (h & tl & Hrest & Hdot).
  destruct (split_on_app_l "/" stem ("." +:+ T +:+ suffix +:+ ext) Hst)
    as (h0 & tl0 & Hdot' & Hd).
  rewrite Hdot in Hdot'. injection Hdot' as <- <-.
  assert (Hc1 : has_char "/" (stem +:+ "." +:+ h) = false).
  { eapply split_on_no_sep. rewrite Hd. by left. }
  assert (Hroot : path_root (stem +:+ "." +:+ T +:+ suffix +:+ ext) = "").
  { destruct stem as [|x r]; [done|]. rewrite app_String.
    apply path_root_no_slash. simpl in Hst.
    by apply orb_false_elim in Hst as [? _]. }
  assert (HPd : Path (stem +:+ "." +:+ T +:+ suffix +:+ ext)
                = (stem +:+ "." +:+ h) :: filter (λ c, c ≠ "" ∧ c ≠ ".") tl).
  { unfold Path. rewrite Hroot, Hd. simpl String.eqb. cbv iota.
    apply filter_cons_True.
    split; intros E; apply (f_equal String.length) in E;
      rewrite !length_app_str in E; destruct stem; simpl in *; try done; lia. }
  rewrite HPd. simpl has_root.
  destruct (is_root (stem +:+ "." +:+ h)) eqn:Hr.
  { apply is_root_has_slash in Hr. congruence. }
  intros E. rewrite Hp in E. apply app_inv_head in E.
  injection E as Ec1 Htl.
  rewrite <-Hss in Ec1. apply (inj (String.app stem)) in Ec1.
  assert (Hb : has_char "/" (suffix +:+ ext) = false).
  { rewrite has_char_app, Hsu. apply COMPRESSORS_get_suffix. }
  destruct (split_on_last_app "/" T (suffix +:+ ext) Hb) as [l Hlast].
  rewrite Hrest in Hlast.
  assert (Hlen : (2 ≤ String.length suffix)%nat).
  { destruct (suffix_length (Path s)) as [E|?]; [|done].
    fold suffix in E. rewrite E in Ec1. done. }
  destruct tl as [|x tl].
  - simpl in Hlast. injection Hlast as Hh.
    apply (f_equal String.length) in Hh, Ec1.
    rewrite !length_app_str in Hh. rewrite length_app_str in Ec1.
    simpl in Ec1. lia.
  - assert (Hel : l +:+ suffix +:+ ext ∈ x :: tl).
    { change (last (h :: x :: tl)) with (last (x :: tl)) in Hlast.
      apply last_Some in Hlast as [l' ->]. apply elem_of_app. right. by left. }
    assert (Hkeep : l +:+ suffix +:+ ext
                    ∈ filter (λ c, c ≠ "" ∧ c ≠ ".") (x :: tl)).
    { apply list_elem_of_filter. split; [|done].
      split; intros E; apply (f_equal String.length) in E;
        rewrite !length_app_str in E; simpl in E; lia. }
    rewrite Htl in Hkeep. by apply elem_of_nil in Hkeep.
Qed.

(** *** Running the monad *)

Lemma bind_Ok {A B} (m : M A) (f : A → M B) st a st' :
  m st = (Ok a, st') → (m ≫= f) st = f a st'.
Proof. unfold mbind, M_bind. by intros ->. Qed.

Lemma bind_Raise {A B} (m : M A) (f : A → M B) st e st' :
  m st = (Raise e, st') → (m ≫= f) st = (Raise e, st').
Proof. unfold mbind, M_bind. by intros ->. Qed.

Lemma path_exists_eq p st :
  path_exists p st = (Ok (bool_decide (is_Some (fs st !! p))), st).
Proof. reflexivity. Qed.

Lemma path_stat_Some p st n :
  fs st !! p = Some n → path_stat p st = (Ok n, st).
Proof. unfold path_stat. by intros ->. Qed.

Lemma exists_Some (p : PurePath) st n :
  fs st !! p = Some n → bool_decide (is_Some (fs st !! p)) = true.
Proof. intros ->. by apply bool_decide_eq_true. Qed.

Lemma exists_None (p : PurePath) st :
  fs st !! p = None → bool_decide (is_Some (fs st !! p)) = false.
Proof. intros ->. apply bool_decide_eq_false. by intros [? ?]. Qed.

(** *** [should_rotate] *)

Lemma round53_exact n : n < 2 ^ 53 → round53 n = n.
Proof. intros H. unfold round53. by apply Z.ltb_lt in H as ->. Qed.

Lemma should_rotate_missing filepath st :
  fs st !! Path filepath = None → should_rotate filepath st = (Ok false, st).
Proof.
  intros H. unfold should_rotate.
  erewrite bind_Ok by apply path_exists_eq.
  by rewrite (exists_None _ _ H).
Qed.

Lemma should_rotate_present filepath st n :
  fs st !! Path filepath = Some n →
  should_rotate filepath st
  = (Ok (Qle_bool (max_size_mb (policy st)) (div_MiB (st_size n))), st).
Proof.
  intros H. unfold should_rotate.
  erewrite bind_Ok by apply path_exists_eq.
  rewrite (exists_Some _ _ _ H). simpl.
  erewrite bind_Ok by (by apply path_stat_Some).
  reflexivity.
Qed.

Lemma Qle_bool_MiB (m : Q) (n : Z) :
  Qle_bool m (n # 1048576) = true ↔ (m * 1048576 <= inject_Z n)%Q.
Proof.
  rewrite Qle_bool_iff. destruct m as [a b].
  unfold Qle, Qmult, inject_Z. simpl. lia.
Qed.

(** C2 (amended). [should_rotate] never raises and never changes the
    state. It answers [false] for a path that does not exist. For a path
    that exists, whatever its kind (regular file or directory), and whose
    [st_size] is below [2^53] bytes, it answers [true] exactly when the
    size in bytes is at least [max_size_mb * 2^20]. *)
Theorem should_rotate_contract filepath st :
  ∃ b,
    should_rotate filepath st = (Ok b, st) ∧
    (fs st !! Path filepath = None → b = false) ∧
    (∀ n, fs st !! Path filepath = Some n → st_size n < 2 ^ 53 →
          (b = true ↔
           (max_size_mb (policy st) * 1048576 <= inject_Z (st_size n))%Q)).
Proof.
  destruct (fs st !! Path filepath) as [n|] eqn:Hn.
  - eexists. split_and!; [by apply should_rotate_present|done|].
    intros ? [= <-] Hsz.
    unfold div_MiB. rewrite (round53_exact _ Hsz). apply Qle_bool_MiB.
  - exists false. split_and!; [by apply should_rotate_missing|done..].
Qed.

(** *** [rotate_file] *)

Hypothesis decompress_compress :
  ∀ c data, decompress_bytes c (compress_bytes c data) = Some data.

Lemma now_eq st : now st = (Ok (clock (ticks st)), tick st).
Proof. reflexivity. Qed.

Lemma gets_eq {A} (f : State → A) st : gets f st = (Ok (f st), st).
Proof. reflexivity. Qed.

Lemma is_dir_None (m : gmap PurePath node) p :
  m !! p = None → is_dir (m !! p) = false.
Proof. by intros ->. Qed.

Lemma is_dir_File (m : gmap PurePath node) p c t :
  m !! p = Some (File c t) → is_dir (m !! p) = false.
Proof. by intros ->. Qed.

Lemma read_bytes_File p st c t :
  fs st !! p = Some (File c t) → read_bytes p st = (Ok c, st).
Proof. unfold read_bytes. by intros ->. Qed.

Lemma read_bytes_Dir p st s t :
  fs st !! p = Some (Dir s t) →
  read_bytes p st = (Raise (IsADirectoryError (str p)), st).
Proof. unfold read_bytes. by intros ->. Qed.

Lemma write_bytes_NoFault p data st :
  is_dir (fs st !! p) = false → faults p = NoFault →
  write_bytes p data st
  = (Ok tt, set_fs (insert p (File data (clock (ticks st)))) (tick st)).
Proof. unfold write_bytes. by intros -> ->. Qed.

Lemma write_bytes_OpenFails p data st :
  is_dir (fs st !! p) = false → faults p = OpenFails →
  write_bytes p data st = (Raise (PermissionError (str p)), st).
Proof. unfold write_bytes. by intros -> ->. Qed.

Lemma write_bytes_WriteFails p data st n :
  is_dir (fs st !! p) = false → faults p = WriteFails n →
  write_bytes p data st
  = (Raise (OSError (str p)),
     set_fs (insert p (File (take n data) (clock (ticks st)))) (tick st)).
Proof. unfold write_bytes. by intros -> ->. Qed.

Lemma truncate_NoFault p st :
  is_dir (fs st !! p) = false → faults p = NoFault →
  truncate p st
  = (Ok tt, set_fs (insert p (File [] (clock (ticks st)))) (tick st)).
Proof. unfold truncate. by intros -> ->. Qed.

Lemma copy2_fresh src dst st c t :
  fs st !! src = Some (File c t) → fs st !! dst = None →
  faults dst = NoFault →
  copy2 src dst st
  = (Ok tt, set_fs (insert dst (File c t))
              (set_fs (insert dst (File c (clock (ticks st)))) (tick st))).
Proof.
  intros Hsrc Hdst Fdst.
  assert (Hne : src ≠ dst) by (intros E; rewrite E in Hsrc; congruence).
  unfold copy2.
  erewrite bind_Ok by apply gets_eq. simpl.
  rewrite (is_dir_None _ _ Hdst).
  rewrite bool_decide_eq_false_2 by done.
  erewrite bind_Ok by (eapply read_bytes_File; simpl; exact Hsrc).
  erewrite bind_Ok
    by (apply write_bytes_NoFault; [by apply is_dir_None|done]).
  erewrite bind_Ok; last first.
  { apply path_stat_Some. simpl. rewrite lookup_insert_ne by done.
    exact Hsrc. }
  reflexivity.
Qed.

(** C1. A live [rotate_file] on a regular file, when the environment
    lets the writes through and the destination name is free, returns a
    result and leaves: the source present and empty, one new file at the
    computed destination whose content reads back as the original bytes,
    every other path as it was, and the result (with the size measured
    before any change) appended to the history. *)
Theorem rotate_file_live filepath st content m :
  let src := Path filepath in
  let dst := dest_path (policy st) (clock (ticks st)) src in
  fs st !! src = Some (File content m) →
  fs st !! dst = None →
  faults dst = NoFault →
  faults src = NoFault →
  ∃ r st' stored t1 t2,
    rotate_file filepath false st = (Ok (Some r), st') ∧
    fs st' = <[src := File [] t2]> (<[dst := File stored t1]> (fs st)) ∧
    src ≠ dst ∧
    fs st' !! src = Some (File [] t2) ∧
    fs st' !! dst = Some (File stored t1) ∧
    (∀ q, q ≠ src → q ≠ dst → fs st' !! q = fs st !! q) ∧
    archive_content (policy st) stored = Some content ∧
    source r = str src ∧
    destination r = str dst ∧
    original_size r = Z.of_nat (length content) ∧
    compressed_size r
    = (if (COMPRESSORS_get (compress (policy st))).2 is Some _
       then Some (Z.of_nat (length stored)) else None) ∧
    results st' = results st ++ [r].
Proof using decompress_compress.
  intros src dst Hsrc Hdst Fdst Fsrc.
  assert (Hne : src ≠ dst) by (intros E; rewrite E in Hsrc; congruence).
  unfold rotate_file. fold src.
  erewrite bind_Ok by apply path_exists_eq.
  rewrite (exists_Some _ _ _ Hsrc). simpl.
  erewrite bind_Ok by apply now_eq.
  erewrite bind_Ok by apply gets_eq. simpl. fold dst.
  erewrite bind_Ok by (apply path_stat_Some; simpl; exact Hsrc).
  unfold archive_content.
  destruct (COMPRESSORS_get (compress (policy st))).2 as [c|] eqn:Hc.
  - erewrite bind_Ok; last first.
    { erewrite bind_Ok by (eapply read_bytes_File; simpl; exact Hsrc).
      erewrite bind_Ok
        by (apply write_bytes_NoFault; [by apply is_dir_None|done]).
      erewrite bind_Ok
        by (apply path_stat_Some; simpl; apply lookup_insert_eq).
      reflexivity. }
    erewrite bind_Ok; last first.
    { apply truncate_NoFault; [|done]. simpl.
      rewrite lookup_insert_ne by done. by eapply is_dir_File. }
    erewrite bind_Ok by apply now_eq.
    simpl. do 5 eexists. split; [reflexivity|]. simpl.
    split_and!; try done.
    + apply lookup_insert_eq.
    + rewrite lookup_insert_ne by done. apply lookup_insert_eq.
    + intros q ? ?. by rewrite !lookup_insert_ne.
  - erewrite bind_Ok; last first.
    { erewrite bind_Ok by (by eapply copy2_fresh). reflexivity. }
    erewrite bind_Ok; last first.
    { apply truncate_NoFault; [|done]. simpl.
      rewrite lookup_insert_ne by done. rewrite lookup_insert_ne by done.
      by eapply is_dir_File. }
    erewrite bind_Ok by apply now_eq.
    simpl. do 5 eexists. split; [reflexivity|]. simpl.
    rewrite insert_insert_eq.
    split_and!; try done.
    + apply lookup_insert_eq.
    + rewrite lookup_insert_ne by done. apply lookup_insert_eq.
    + intros q ? ?. by rewrite !lookup_insert_ne.
Qed.

(** The archiving step of [rotate_file] (lines 83-90) when the write of
    the destination fails. *)
Lemma archive_write_fails src dst st content m (k : option compressor) :
  fs st !! src = Some (File content m) →
  is_dir (fs st !! dst) = false →
  src ≠ dst →
  faults dst ≠ NoFault →
  let data := match k with
              | Some c => compress_bytes c content
              | None => content
              end in
  ∃ e st',
    archive_step k src dst st = (Raise e, st') ∧
    policy st' = policy st ∧
    results st' = results st ∧
    (∀ q, q ≠ dst → fs st' !! q = fs st !! q) ∧
    match faults dst with
    | WriteFails n => ∃ t, fs st' !! dst = Some (File (take n data) t)
    | _ => fs st' !! dst = fs st !! dst
    end.
Proof.
  intros Hsrc Hdir Hne Hf data. unfold archive_step.
  destruct k as [c|].
  - erewrite bind_Ok by (by eapply read_bytes_File).
    destruct (faults dst) as [| |n] eqn:F; [done| |].
    + erewrite bind_Raise by (by apply write_bytes_OpenFails).
      by do 2 eexists.
    + erewrite bind_Raise by (by apply write_bytes_WriteFails).
      do 2 eexists. split; [reflexivity|]. simpl. split_and!; try done.
      * intros q ?. by rewrite lookup_insert_ne.
      * eexists. apply lookup_insert_eq.
  - assert (Hcopy : ∀ e st',
      write_bytes dst content st = (Raise e, st') →
      (copy2 src dst ≫= λ _, mret (@None Z)) st = (Raise e, st')).
    { intros e st' Hw. apply bind_Raise. unfold copy2.
      erewrite bind_Ok by apply gets_eq. simpl. rewrite Hdir.
      rewrite bool_decide_eq_false_2 by done.
      erewrite bind_Ok by (by eapply read_bytes_File).
      by apply bind_Raise. }
    destruct (faults dst) as [| |n] eqn:F; [done| |].
    + do 2 eexists. split; [by apply Hcopy, write_bytes_OpenFails|done].
    + do 2 eexists. split; [by apply Hcopy, write_bytes_WriteFails|].
      simpl. split_and!; try done.
      * intros q ?. by rewrite lookup_insert_ne.
      * eexists. apply lookup_insert_eq.
Qed.

(** C3 (amended). When the write of the destination archive fails (the
    open is refused, or the write breaks off after some bytes), a live
    [rotate_file] raises, the source file keeps its content and its
    modification time, nothing is appended to the history and no path
    other than the destination changes. A refused open leaves the
    destination as it was; a write that breaks off after [n] bytes leaves
    the first [n] bytes of the archive at the destination name. The source
    is a regular file and the destination another path, not a directory;
    [dest_path_ne] gives the second for every source that has a name. *)
Theorem rotate_file_write_failure filepath st content m :
  let src := Path filepath in
  let dst := dest_path (policy st) (clock (ticks st)) src in
  fs st !! src = Some (File content m) →
  is_dir (fs st !! dst) = false →
  src ≠ dst →
  faults dst ≠ NoFault →
  ∃ e st',
    rotate_file filepath false st = (Raise e, st') ∧
    fs st' !! src = Some (File content m) ∧
    results st' = results st ∧
    (∀ q, q ≠ dst → fs st' !! q = fs st !! q) ∧
    match faults dst with
    | WriteFails n =>
        ∃ t, fs st' !! dst
             = Some (File (take n (stored_form (policy st) content)) t)
    | _ => fs st' !! dst = fs st !! dst
    end.
Proof.
  intros src dst Hsrc Hdir Hne Hf.
  destruct (archive_write_fails src dst (tick st) content m
              (COMPRESSORS_get (compress (policy st))).2 Hsrc Hdir Hne Hf)
    as (e & st' & Hrun & Hpol & Hres & Hframe & Hdst).
  exists e, st'. split.
  - unfold rotate_file. fold src.
    erewrite bind_Ok by apply path_exists_eq.
    rewrite (exists_Some _ _ _ Hsrc). simpl.
    erewrite bind_Ok by apply now_eq.
    erewrite bind_Ok by apply gets_eq. simpl. fold dst.
    erewrite bind_Ok by (apply path_stat_Some; simpl; exact Hsrc).
    by apply bind_Raise.
  - split_and!; try done.
    by rewrite Hframe.
Qed.

(** *** Frames: what an operation leaves alone *)

Global Instance same_engine_preorder : PreOrder same_engine.
Proof.
  split; [by split|].
  intros x y z [? ?] [? ?]. split; congruence.
Qed.

Global Instance same_files_preorder : PreOrder same_files.
Proof.
  split; [by repeat split|].
  intros x y z [? [? ?]] [? [? ?]]. repeat split; congruence.
Qed.

Section frames.
Context (R : relation State) `{!PreOrder R}.

Lemma frames_ret {A} (a : A) : frames R (mret a).
Proof using Type*. intros st. reflexivity. Qed.

Lemma frames_raise {A} e : frames R (@raise A e).
Proof using Type*. intros st. reflexivity. Qed.

Lemma frames_gets {A} (f : State → A) : frames R (gets f).
Proof using Type*. intros st. reflexivity. Qed.

Lemma frames_bind {A B} (m : M A) (f : A → M B) :
  frames R m → (∀ a, frames R (f a)) → frames R (m ≫= f).
Proof using Type*.
  intros Hm Hf st. unfold mbind, M_bind.
  specialize (Hm st). destruct (m st) as [[a|e] st1]; simpl in *; [|done].
  etrans; [exact Hm|apply Hf].
Qed.

Lemma frames_if {A} (b : bool) (m1 m2 : M A) :
  frames R m1 → frames R m2 → frames R (if b then m1 else m2).
Proof using Type*. by destruct b. Qed.

Lemma frames_path_exists p : frames R (path_exists p).
Proof using Type*. apply frames_gets. Qed.

Lemma frames_path_stat p : frames R (path_stat p).
Proof using Type*. intros st. unfold path_stat. by destruct (fs st !! p). Qed.

Lemma frames_read_bytes p : frames R (read_bytes p).
Proof using Type*.
  intros st. unfold read_bytes. by destruct (fs st !! p) as [[]|].
Qed.
End frames.

Lemma same_files_engine {A} (m : M A) :
  frames same_files m → frames same_engine m.
Proof. intros H st. apply H. Qed.

Lemma frames_now : frames same_files now.
Proof. by intros st. Qed.

Lemma frames_print line : frames same_files (print line).
Proof. by intros st. Qed.

Lemma frames_set_fs f : frames same_engine (modify (set_fs f)).
Proof. by intros st. Qed.

Lemma frames_write_bytes p data : frames same_engine (write_bytes p data).
Proof.
  intros st. unfold write_bytes.
  destruct (is_dir _); [done|]. by destruct (faults p).
Qed.

Lemma frames_truncate p : frames same_engine (truncate p).
Proof.
  intros st. unfold truncate.
  destruct (is_dir _); [done|]. by destruct (faults p).
Qed.

Ltac frames_step :=
  first
    [ apply frames_ret | apply frames_raise | apply frames_gets
    | apply frames_path_exists | apply frames_path_stat
    | apply frames_read_bytes | apply frames_now | apply frames_print
    | apply frames_set_fs | apply frames_write_bytes | apply frames_truncate
    | apply same_files_engine; first [apply frames_now | apply frames_print]
    | apply frames_if
    | apply frames_bind; [apply _| |intros ?] ];
  try match goal with |- PreOrder _ => apply _ end.

Lemma frames_copy2 src dst : frames same_engine (copy2 src dst).
Proof. unfold copy2. repeat frames_step. Qed.

Lemma frames_unlink p : frames same_engine (unlink p).
Proof. intros st. unfold unlink. by destruct (fs st !! p) as [[]|]. Qed.

Lemma frames_archive_step k src dst : frames same_engine (archive_step k src dst).
Proof.
  destruct k; simpl; repeat frames_step.
Qed.

Lemma rotate_file_dry_frames filepath :
  frames same_files (rotate_file filepath true).
Proof. unfold rotate_file. repeat frames_step. Qed.

Lemma rotate_file_missing filepath dry st :
  fs st !! Path filepath = None →
  rotate_file filepath dry st = (Ok None, st).
Proof.
  intros H. unfold rotate_file.
  erewrite bind_Ok by apply path_exists_eq.
  by rewrite (exists_None _ _ H).
Qed.

(** A dry run on an existing path, of any kind: the result describes the
    would-be move, and only the clock and the output move. *)
Lemma rotate_file_dry_present filepath st n :
  let src := Path filepath in
  let dst := dest_path (policy st) (clock (ticks st)) src in
  fs st !! src = Some n →
  rotate_file filepath true st
  = (Ok (Some {| source := str src; destination := str dst;
                 original_size := st_size n; compressed_size := None;
                 timestamp := clock (S (ticks st)) |}),
     {| policy := policy st; results := results st; fs := fs st;
        ticks := S (S (ticks st));
        stdout := stdout st ++ ["[DRY RUN] Would rotate: " +:+ str src
                                +:+ " -> " +:+ str dst] |}).
Proof.
  intros src dst H. unfold rotate_file. fold src.
  erewrite bind_Ok by apply path_exists_eq.
  rewrite (exists_Some _ _ _ H). simpl.
  erewrite bind_Ok by apply now_eq.
  erewrite bind_Ok by apply gets_eq. simpl. fold dst.
  erewrite bind_Ok by (apply path_stat_Some; simpl; exact H).
  reflexivity.
Qed.

(** A live run: the history grows by exactly the returned result, and
    only when one is returned. *)
Lemma rotate_file_live_history filepath st :
  policy (rotate_file filepath false st).2 = policy st ∧
  results (rotate_file filepath false st).2
  = match (rotate_file filepath false st).1 with
    | Ok (Some r) => results st ++ [r]
    | _ => results st
    end.
Proof.
  destruct (fs st !! Path filepath) as [n|] eqn:H;
    [|by rewrite rotate_file_missing].
  unfold rotate_file.
  erewrite bind_Ok by apply path_exists_eq.
  rewrite (exists_Some _ _ _ H). simpl.
  erewrite bind_Ok by apply now_eq.
  erewrite bind_Ok by apply gets_eq. simpl.
  erewrite bind_Ok by (apply path_stat_Some; simpl; exact H).
  pose proof (frames_archive_step (COMPRESSORS_get (compress (policy st))).2
    (Path filepath)
    (dest_path (policy st) (clock (ticks st)) (Path filepath)) (tick st)) as F1.
  destruct (archive_step _ _ _ (tick st)) as [[cs|e] st1] eqn:E1;
    [|erewrite bind_Raise by exact E1; exact F1].
  erewrite bind_Ok by exact E1.
  pose proof (frames_truncate (Path filepath) st1) as F2.
  destruct (truncate _ st1) as [[[]|e] st2] eqn:E2;
    [|erewrite bind_Raise by exact E2; destruct F1, F2; simpl in *;
      split; congruence].
  erewrite bind_Ok by exact E2.
  destruct F1 as [? ?], F2 as [? ?]. simpl in *. split; congruence.
Qed.

(** *** [cleanup_old] *)

Lemma endswith_gz_bz2 s : endswith s ".gz" → endswith s ".bz2" → False.
Proof.
  unfold endswith.
  change (String.rev ".gz") with "zg.". change (String.rev ".bz2") with "2zb.".
  destruct (String.rev s) as [|a r]; [done|]. cbn [String.prefix].
  destruct (ascii_dec "z" a) as [<-|]; [|done].
  by destruct (ascii_dec "2" "z").
Qed.

Lemma in_glob_gz_bz2 dir p :
  in_glob dir ".gz" p → in_glob dir ".bz2" p → False.
Proof.
  unfold in_glob. intros [_ H1]%andb_True [_ H2]%andb_True.
  by eapply endswith_gz_bz2.
Qed.

Lemma length_keys_size (E : gmap PurePath node) (l : list PurePath) :
  NoDup l → (∀ p, p ∈ l ↔ is_Some (E !! p)) → length l = size E.
Proof.
  intros Hl Hin.
  rewrite <-length_map_to_list, <-(length_fmap fst).
  apply Permutation_length, NoDup_Permutation;
    [done|apply NoDup_fst_map_to_list|].
  intros p. rewrite Hin, list_elem_of_fmap. split.
  - intros [n Hn]. exists (p, n). split; [done|].
    by apply elem_of_map_to_list.
  - intros [[q n] [-> Hn]]. exists n. by apply elem_of_map_to_list.
Qed.

Lemma path_glob_eq dir ext st :
  Path_glob dir ext st
  = (Ok (if is_dir (fs st !! dir)
         then filter (λ p, in_glob dir ext p) (map_to_list (fs st)).*1
         else []), st).
Proof. reflexivity. Qed.

Lemma elem_of_keys (m : gmap PurePath node) p :
  p ∈ (map_to_list m).*1 ↔ is_Some (m !! p).
Proof.
  rewrite list_elem_of_fmap. split.
  - intros [[q n] [-> Hn]]. exists n. by apply elem_of_map_to_list.
  - intros [n Hn]. exists (p, n). split; [done|].
    by apply elem_of_map_to_list.
Qed.

(** The sweep over one glob, live: every due entry is unlinked and
    counted, the others are kept. *)
Lemma cleanup_loop_live (cutoff : Z) (m0 : gmap PurePath node)
    (paths : list PurePath) :
  ∀ removed st,
    NoDup paths →
    (∀ q, q ∈ paths → fs st !! q = m0 !! q) →
    (∀ q, q ∈ paths → ∃ n, m0 !! q = Some n ∧
                         (st_mtime n < cutoff → ∃ c t, n = File c t)) →
    ∃ st',
      cleanup_loop false cutoff paths removed st
      = (Ok (removed + Z.of_nat (length (filter (λ q, oldb cutoff m0 q) paths))),
         st') ∧
      (∀ q, fs st' !! q
            = if decide (q ∈ paths ∧ oldb cutoff m0 q) then None
              else fs st !! q) ∧
      policy st' = policy st ∧ results st' = results st.
Proof.
  induction paths as [|p rest IH]; intros removed st Hnd Hsame Hfile.
  - eexists. split; [simpl; unfold mret, M_ret; do 2 f_equal; lia|].
    split_and!; [|done..]. intros q. case_decide as H; [|done].
    destruct H as [H _]. by apply elem_of_nil in H.
  - apply NoDup_cons in Hnd as [Hp Hnd].
    destruct (Hfile p) as (n & Hn & Hreg); [by left|].
    assert (Hst : fs st !! p = Some n) by (rewrite Hsame; [done|by left]).
    simpl. erewrite bind_Ok by (by apply path_stat_Some).
    destruct (st_mtime n <? cutoff) eqn:Hold.
    + apply Z.ltb_lt in Hold. destruct (Hreg Hold) as (c & t & ->).
      assert (Hun : unlink p st = (Ok tt, set_fs (delete p) st)).
      { unfold unlink. by rewrite Hst. }
      erewrite bind_Ok by exact Hun.
      destruct (IH (removed + 1) (set_fs (delete p) st)) as (st' & Hrun & Hfs & ? & ?);
        [done| |by auto using list_elem_of_further|].
      { intros q Hq. simpl. rewrite lookup_delete_ne by (by intros ->).
        apply Hsame. by right. }
      exists st'. split; [|split_and!; try done].
      * rewrite Hrun. rewrite filter_cons_True; last first.
        { unfold oldb. rewrite Hn. simpl. by apply Is_true_true, Z.ltb_lt. }
        simpl. do 2 f_equal. lia.
      * intros q. rewrite Hfs. simpl.
        destruct (decide (q = p)) as [->|Hqp].
        -- rewrite lookup_delete_eq.
           rewrite (decide_True (P := p ∈ p :: rest ∧ _)); [by case_decide|].
           split; [by left|]. unfold oldb. rewrite Hn. simpl.
           by apply Is_true_true, Z.ltb_lt.
        -- rewrite lookup_delete_ne by done.
           apply decide_ext. rewrite elem_of_cons.
           split; [intros [? ?]; split; [by right|done]|].
           intros [[?|?] ?]; [done|by split].
    + destruct (IH removed st) as (st' & Hrun & Hfs & ? & ?);
        [done|by auto using list_elem_of_further..|].
      exists st'. split; [|split_and!; try done].
      * rewrite Hrun. rewrite filter_cons_False; [done|].
        unfold oldb. rewrite Hn. simpl. rewrite Hold. by intros [].
      * intros q. rewrite Hfs. apply decide_ext. rewrite elem_of_cons.
        split; [intros [? ?]; split; [by right|done]|].
        intros [[->|?] Ho]; [|done].
        unfold oldb in Ho. rewrite Hn in Ho. simpl in Ho. rewrite Hold in Ho.
        done.
Qed.

(** The sweep over one glob, dry: every due entry is reported and
    counted, the filesystem is not touched. *)
Lemma cleanup_loop_dry (cutoff : Z) (paths : list PurePath) :
  ∀ removed st,
    (∀ q, q ∈ paths → is_Some (fs st !! q)) →
    ∃ st',
      cleanup_loop true cutoff paths removed st
      = (Ok (removed
             + Z.of_nat (length (filter (λ q, oldb cutoff (fs st) q) paths))),
         st') ∧
      fs st' = fs st ∧ policy st' = policy st ∧ results st' = results st.
Proof.
  induction paths as [|p rest IH]; intros removed st Hin.
  - eexists. split; [simpl; unfold mret, M_ret; do 2 f_equal; lia|done].
  - destruct (Hin p) as [n Hn]; [by left|].
    simpl. erewrite bind_Ok by (by apply path_stat_Some).
    destruct (st_mtime n <? cutoff) eqn:Hold.
    + erewrite bind_Ok by reflexivity.
      match goal with |- context [cleanup_loop _ _ _ _ ?s] =>
        destruct (IH (removed + 1) s) as (st' & Hrun & Hfs & ? & ?)
      end; [by auto using list_elem_of_further|].
      exists st'. split; [|done]. rewrite Hrun. simpl.
      rewrite filter_cons_True; last first.
      { unfold oldb. rewrite Hn. simpl. by rewrite Hold. }
      simpl. do 2 f_equal. lia.
    + destruct (IH removed st) as (st' & Hrun & Hfs & ? & ?);
        [by auto using list_elem_of_further|].
      exists st'. split; [|done]. rewrite Hrun.
      rewrite filter_cons_False; [done|].
      unfold oldb. rewrite Hn. simpl. rewrite Hold. by intros [].
Qed.

Lemma count_expired (dir : PurePath) (cutoff : Z) (m0 : gmap PurePath node)
    (l1 l2 : list PurePath) :
  is_dir (m0 !! dir) →
  NoDup l1 → NoDup l2 →
  (∀ p, p ∈ l1 ↔ in_glob dir ".gz" p ∧ is_Some (m0 !! p)) →
  (∀ p, p ∈ l2 ↔ in_glob dir ".bz2" p ∧ is_Some (m0 !! p)) →
  (length (filter (λ q, oldb cutoff m0 q) l1)
   + length (filter (λ q, oldb cutoff m0 q) l2))%nat
  = size (filter (expired dir cutoff m0) m0).
Proof.
  intros Hdir Hnd1 Hnd2 H1 H2.
  rewrite <-length_app. apply length_keys_size.
  - apply NoDup_app. split_and!; [by apply NoDup_filter| |by apply NoDup_filter].
    intros p [_ Hp1]%list_elem_of_filter [_ Hp2]%list_elem_of_filter.
    apply H1 in Hp1 as [? _]. apply H2 in Hp2 as [? _].
    by eapply in_glob_gz_bz2.
  - intros p. rewrite elem_of_app, !list_elem_of_filter, H1, H2.
    unfold oldb. split.
    + intros [[Ho [Hg [n Hn]]]|[Ho [Hg [n Hn]]]]; rewrite Hn in Ho;
        exists n; apply map_lookup_filter_Some; (split; [done|]);
        apply Is_true_true, Z.ltb_lt in Ho; split_and!; simpl; auto.
    + intros [n [Hn (_ & Hg & Ho)]%map_lookup_filter_Some]. simpl in *.
      rewrite Hn. apply Z.ltb_lt, Is_true_true in Ho.
      destruct Hg; [left|right]; eauto.
Qed.

Lemma expired_not_dir (dir : PurePath) (cutoff : Z) (m : gmap PurePath node) :
  is_dir (m !! dir) = false →
  filter (expired dir cutoff m) m = ∅ ∧
  filter (λ pn, ¬ expired dir cutoff m pn) m = m.
Proof.
  intros Hdir. split.
  - apply map_empty_filter. intros p n _ [H _]. by rewrite Hdir in H.
  - apply map_filter_id. intros p n _ [H _]. by rewrite Hdir in H.
Qed.

Lemma cleanup_cutoff_ok st :
  representable_cutoff (clock (ticks st)) (max_age_days (policy st)) →
  cleanup_cutoff st
  = (Ok (clock (ticks st) - max_age_days (policy st) * microseconds_per_day),
     tick st).
Proof.
  intros [Hdays [Hlo Hhi]]. unfold cleanup_cutoff.
  erewrite bind_Ok by apply now_eq.
  erewrite bind_Ok by apply gets_eq. cbn [policy tick].
  unfold timedelta_days, datetime_sub.
  rewrite (proj2 (Z.leb_le _ _) Hdays). cbv zeta.
  by rewrite (proj2 (Z.leb_le _ _) Hlo), (proj2 (Z.leb_le _ _) Hhi).
Qed.

Lemma cleanup_cutoff_overflow st :
  ¬ representable_cutoff (clock (ticks st)) (max_age_days (policy st)) →
  ∃ msg, cleanup_cutoff st = (Raise (OverflowError msg), tick st).
Proof.
  intros Hno. unfold cleanup_cutoff.
  erewrite bind_Ok by apply now_eq.
  erewrite bind_Ok by apply gets_eq. cbn [policy tick].
  unfold timedelta_days, datetime_sub.
  destruct (Z.leb_spec (Z.abs (max_age_days (policy st))) 999999999)
    as [Hdays|_]; [|by eexists].
  cbv zeta.
  destruct (Z.leb_spec datetime_min
              (clock (ticks st)
               - max_age_days (policy st) * microseconds_per_day))
    as [Hlo|_]; [|by eexists].
  destruct (Z.leb_spec
              (clock (ticks st)
               - max_age_days (policy st) * microseconds_per_day)
              datetime_max)
    as [Hhi|_]; [|by eexists].
  by destruct Hno.
Qed.

Lemma cleanup_old_overflow directory dry st :
  ¬ representable_cutoff (clock (ticks st)) (max_age_days (policy st)) →
  ∃ msg, cleanup_old directory dry st = (Raise (OverflowError msg), tick st).
Proof.
  intros Hno. destruct (cleanup_cutoff_overflow st Hno) as [msg Hc].
  exists msg. unfold cleanup_old. by apply bind_Raise.
Qed.

Lemma cleanup_old_not_dir directory dry st :
  representable_cutoff (clock (ticks st)) (max_age_days (policy st)) →
  is_dir (fs st !! Path directory) = false →
  cleanup_old directory dry st = (Ok 0, tick st).
Proof.
  intros Hrep Hdir. unfold cleanup_old.
  erewrite bind_Ok by (by apply cleanup_cutoff_ok). simpl.
  erewrite bind_Ok by apply path_glob_eq. simpl. rewrite Hdir. simpl.
  erewrite bind_Ok by reflexivity.
  erewrite bind_Ok by apply path_glob_eq. simpl. rewrite Hdir. reflexivity.
Qed.

Lemma glob_keys (dir : PurePath) (ext : string) (m : gmap PurePath node)
    (p : PurePath) :
  p ∈ filter (λ p, in_glob dir ext p) (map_to_list m).*1
  ↔ in_glob dir ext p ∧ is_Some (m !! p).
Proof. by rewrite list_elem_of_filter, elem_of_keys. Qed.

Lemma NoDup_glob (dir : PurePath) (ext : string) (m : gmap PurePath node) :
  NoDup (filter (λ p, in_glob dir ext p) (map_to_list m).*1).
Proof. apply NoDup_filter, NoDup_fst_map_to_list. Qed.

Lemma cleanup_old_dry directory st :
  let dir := Path directory in
  let cutoff :=
    clock (ticks st) - max_age_days (policy st) * microseconds_per_day in
  representable_cutoff (clock (ticks st)) (max_age_days (policy st)) →
  ∃ st',
    cleanup_old directory true st
    = (Ok (Z.of_nat (size (filter (expired dir cutoff (fs st)) (fs st)))),
       st') ∧
    fs st' = fs st ∧ policy st' = policy st ∧ results st' = results st.
Proof.
  intros dir cutoff Hrep.
  destruct (is_dir (fs st !! dir)) eqn:Hdir; last first.
  { rewrite cleanup_old_not_dir by done.
    destruct (expired_not_dir dir cutoff (fs st) Hdir) as [-> _].
    by eexists. }
  unfold cleanup_old.
  erewrite bind_Ok by (by apply cleanup_cutoff_ok). simpl. fold dir.
  fold cutoff.
  erewrite bind_Ok by apply path_glob_eq. simpl. rewrite Hdir.
  set (gz := filter _ _).
  destruct (cleanup_loop_dry cutoff gz 0 (tick st)) as (st1 & Hrun1 & Hfs1 & Hp1 & Hr1).
  { intros q Hq. by apply glob_keys in Hq as [_ ?]. }
  erewrite bind_Ok by exact Hrun1.
  erewrite bind_Ok by apply path_glob_eq. rewrite Hfs1. simpl. rewrite Hdir.
  set (bz := filter _ _).
  match goal with |- context [cleanup_loop _ _ _ ?r _] =>
    destruct (cleanup_loop_dry cutoff bz r st1) as (st2 & Hrun2 & Hfs2 & Hp2 & Hr2)
  end.
  { intros q Hq. rewrite Hfs1. by apply glob_keys in Hq as [_ ?]. }
  simpl in *.
  exists st2. split; [|split_and!; congruence].
  rewrite Hrun2, Hfs1. simpl. do 2 f_equal.
  rewrite <-(count_expired dir cutoff (fs st) gz bz);
    [lia|by rewrite Hdir|apply NoDup_glob|apply NoDup_glob
    |apply glob_keys|apply glob_keys].
Qed.

Lemma oldb_Some (cutoff : Z) (m : gmap PurePath node) (p : PurePath) n :
  m !! p = Some n → (oldb cutoff m p ↔ st_mtime n < cutoff).
Proof.
  intros H. unfold oldb. rewrite H.
  by rewrite Is_true_true, Z.ltb_lt.
Qed.

Lemma cleanup_old_live directory st :
  let dir := Path directory in
  let cutoff :=
    clock (ticks st) - max_age_days (policy st) * microseconds_per_day in
  representable_cutoff (clock (ticks st)) (max_age_days (policy st)) →
  (∀ p n, fs st !! p = Some n → expired dir cutoff (fs st) (p, n) →
          ∃ c t, n = File c t) →
  ∃ st',
    cleanup_old directory false st
    = (Ok (Z.of_nat (size (filter (expired dir cutoff (fs st)) (fs st)))),
       st') ∧
    fs st' = filter (λ pn, ¬ expired dir cutoff (fs st) pn) (fs st) ∧
    policy st' = policy st ∧ results st' = results st.
Proof.
  intros dir cutoff Hrep Hreg.
  destruct (is_dir (fs st !! dir)) eqn:Hdir; last first.
  { rewrite cleanup_old_not_dir by done.
    destruct (expired_not_dir dir cutoff (fs st) Hdir) as [-> ->].
    by eexists. }
  assert (Hfile : ∀ ext q, (ext = ".gz" ∨ ext = ".bz2") →
            in_glob dir ext q → is_Some (fs st !! q) →
            ∃ n, fs st !! q = Some n ∧
                 (st_mtime n < cutoff → ∃ c t, n = File c t)).
  { intros ext q Hext Hg [n Hn]. exists n. split; [done|]. intros Ho.
    apply (Hreg q n Hn). split_and!; simpl; [by rewrite Hdir| |done].
    destruct Hext as [-> | ->]; auto. }
  unfold cleanup_old.
  erewrite bind_Ok by (by apply cleanup_cutoff_ok). simpl. fold dir.
  fold cutoff.
  erewrite bind_Ok by apply path_glob_eq. simpl. rewrite Hdir.
  set (gz := filter _ _).
  destruct (cleanup_loop_live cutoff (fs st) gz 0 (tick st))
    as (st1 & Hrun1 & Hfs1 & Hp1 & Hr1); [apply NoDup_glob|done| |].
  { intros q [Hg Hq]%glob_keys. by apply (Hfile ".gz"); [left|..]. }
  erewrite bind_Ok by exact Hrun1. simpl in *.
  assert (Hbz : ∀ q, in_glob dir ".bz2" q → fs st1 !! q = fs st !! q).
  { intros q Hg. rewrite Hfs1. case_decide as H; [|done].
    destruct H as [[Hg' _]%glob_keys _]. by destruct (in_glob_gz_bz2 dir q). }
  assert (Hdir1 : is_dir (fs st1 !! dir) = true).
  { rewrite Hfs1. case_decide as H; [|done].
    destruct H as [[Hg [n Hn]]%glob_keys Ho].
    apply (oldb_Some _ _ _ _ Hn) in Ho.
    destruct (Hfile ".gz" dir) as (n' & Hn' & Hf); [by left|done|by eexists|].
    simplify_eq. destruct (Hf Ho) as (c & t & ->). by rewrite Hn in Hdir. }
  erewrite bind_Ok by apply path_glob_eq. rewrite Hdir1.
  set (bz := filter _ _).
  assert (Hbzin : ∀ q, q ∈ bz ↔ in_glob dir ".bz2" q ∧ is_Some (fs st !! q)).
  { intros q. unfold bz. rewrite glob_keys. split.
    - intros [? ?]. by rewrite <-Hbz.
    - intros [? ?]. by rewrite Hbz. }
  match goal with |- context [cleanup_loop _ _ _ ?r _] =>
    destruct (cleanup_loop_live cutoff (fs st) bz r st1)
      as (st2 & Hrun2 & Hfs2 & Hp2 & Hr2)
  end; [apply NoDup_glob| | |].
  { intros q [Hg _]%Hbzin. by apply Hbz. }
  { intros q [Hg Hq]%Hbzin. by apply (Hfile ".bz2"); [right|..]. }
  exists st2. split; [|split_and!; [|congruence..]].
  - rewrite Hrun2. do 2 f_equal.
    rewrite <-(count_expired dir cutoff (fs st) gz bz);
      [lia|by rewrite Hdir|apply NoDup_glob|apply NoDup_glob
      |apply glob_keys|apply Hbzin].
  - apply map_eq. intros q. rewrite Hfs2, Hfs1, map_lookup_filter.
    destruct (fs st !! q) as [n|] eqn:Hq; simpl; [|by repeat case_decide].
    assert (Hex : expired dir cutoff (fs st) (q, n)
                  ↔ (q ∈ bz ∧ oldb cutoff (fs st) q)
                    ∨ (q ∈ gz ∧ oldb cutoff (fs st) q)).
    { unfold gz. rewrite Hbzin, glob_keys, (oldb_Some _ _ _ _ Hq).
      unfold expired. simpl. rewrite Hdir, Hq.
      assert (is_Some (Some n)) by by eexists.
      split.
      - intros (_ & [?|?] & ?); [right|left]; by split.
      - intros [[[? _] ?]|[[? _] ?]]; split_and!; auto. }
    case_guard as Hg; simpl.
    + rewrite decide_False by (intros ?; apply Hg, Hex; by left).
      by rewrite decide_False by (intros ?; apply Hg, Hex; by right).
    + apply Hex in Hg.
      destruct Hg; [by rewrite decide_True|].
      case_decide; [done|]. by rewrite decide_True.
Qed.

(** C6 (amended). When the cutoff [now - max_age_days] is a date that
    [datetime] has, [cleanup_old] returns the number of archives of the
    directory (entries whose name ends with [".gz"] or [".bz2"]) whose
    modification time is strictly before the cutoff; a live run removes
    exactly those (they are regular files) and keeps every other path, an
    archive exactly at the cutoff included; a dry run keeps everything.
    When the cutoff is not such a date, [cleanup_old] raises
    [OverflowError] in either mode, with the clock read once and nothing
    else changed. *)
Theorem cleanup_old_removes_expired directory dry st :
  let dir := Path directory in
  let now := clock (ticks st) in
  let cutoff := now - max_age_days (policy st) * microseconds_per_day in
  (representable_cutoff now (max_age_days (policy st)) →
   (dry = false →
    map_Forall (λ p n, expired dir cutoff (fs st) (p, n) → is_file n)
      (fs st)) →
   ∃ st',
     cleanup_old directory dry st
     = (Ok (Z.of_nat (size (filter (expired dir cutoff (fs st)) (fs st)))),
        st') ∧
     fs st' = (if dry then fs st
               else filter (λ pn, ¬ expired dir cutoff (fs st) pn) (fs st)) ∧
     (∀ p n, fs st !! p = Some n → expired dir cutoff (fs st) (p, n) →
             fs st' !! p = if dry then Some n else None) ∧
     (∀ p n, fs st !! p = Some n → ¬ expired dir cutoff (fs st) (p, n) →
             fs st' !! p = Some n) ∧
     (∀ p n, fs st !! p = Some n → st_mtime n = cutoff →
             fs st' !! p = Some n) ∧
     (∀ p, fs st !! p = None → fs st' !! p = None)) ∧
  (¬ representable_cutoff now (max_age_days (policy st)) →
   ∃ msg, cleanup_old directory dry st
          = (Raise (OverflowError msg), tick st)).
Proof.
  intros dir now cutoff. subst now.
  split; [|apply cleanup_old_overflow].
  intros Hrep Hreg.
  assert (∃ st',
    cleanup_old directory dry st
    = (Ok (Z.of_nat (size (filter (expired dir cutoff (fs st)) (fs st)))),
       st') ∧
    fs st' = (if dry then fs st
              else filter (λ pn, ¬ expired dir cutoff (fs st) pn) (fs st)))
    as (st' & Hrun & Hfs).
  { destruct dry.
    - destruct (cleanup_old_dry directory st Hrep) as (st' & ? & ? & _).
      eauto.
    - destruct (cleanup_old_live directory st Hrep) as (st' & ? & ? & _);
        [|by eauto].
      intros p n Hn He. specialize (Hreg eq_refl p n Hn He).
      destruct n; [by eauto|done]. }
  exists st'. split_and!; [done|done|..].
  - intros p n Hn He. rewrite Hfs. destruct dry; [done|].
    apply map_lookup_filter_None. right. intros ? ? Hne. simplify_eq.
    by apply Hne.
  - intros p n Hn He. rewrite Hfs. destruct dry; [done|].
    by apply map_lookup_filter_Some.
  - intros p n Hn He. rewrite Hfs. destruct dry; [done|].
    apply map_lookup_filter_Some. split; [done|].
    intros (_ & _ & ?). simpl in *. lia.
  - intros p Hn. rewrite Hfs. destruct dry; [done|].
    apply map_lookup_filter_None. by left.
Qed.

(** A live run on an existing path returns a result or raises: it never
    declines. *)
Lemma rotate_file_live_present filepath st n :
  fs st !! Path filepath = Some n →
  (rotate_file filepath false st).1 ≠ Ok None.
Proof.
  intros H. unfold rotate_file.
  erewrite bind_Ok by apply path_exists_eq.
  rewrite (exists_Some _ _ _ H). simpl.
  erewrite bind_Ok by apply now_eq.
  erewrite bind_Ok by apply gets_eq. simpl.
  erewrite bind_Ok by (apply path_stat_Some; simpl; exact H).
  destruct (archive_step (COMPRESSORS_get (compress (policy st))).2
              (Path filepath)
              (dest_path (policy st) (clock (ticks st)) (Path filepath))
              (tick st)) as [[cs|e] st1] eqn:E1;
    [|by erewrite bind_Raise by exact E1].
  erewrite bind_Ok by exact E1.
  destruct (truncate (Path filepath) st1) as [[[]|e] st2] eqn:E2;
    [|by erewrite bind_Raise by exact E2].
  by erewrite bind_Ok by exact E2.
Qed.

(** C9. A dry run of [rotate_file] or of [cleanup_old] leaves the
    filesystem as it was: no path appears or disappears, no content and no
    modification time changes. On an existing path the dry [rotate_file]
    returns the would-be move (source, destination, size) with no
    compressed size. The decision to decline a path is the one of the
    live run: a missing path, and only a missing path, is declined. *)
Theorem dry_run_leaves_files filepath directory st :
  fs (rotate_file filepath true st).2 = fs st ∧
  fs (cleanup_old directory true st).2 = fs st ∧
  (∀ n, fs st !! Path filepath = Some n →
        ∃ r, (rotate_file filepath true st).1 = Ok (Some r) ∧
             source r = str (Path filepath) ∧
             destination r
             = str (dest_path (policy st) (clock (ticks st)) (Path filepath)) ∧
             original_size r = st_size n ∧
             compressed_size r = None) ∧
  ((rotate_file filepath true st).1 = Ok None
   ↔ fs st !! Path filepath = None) ∧
  ((rotate_file filepath false st).1 = Ok None
   ↔ fs st !! Path filepath = None).
Proof.
  split_and!.
  - apply rotate_file_dry_frames.
  - destruct (decide (representable_cutoff (clock (ticks st))
                        (max_age_days (policy st)))) as [Hrep|Hno].
    + by destruct (cleanup_old_dry directory st Hrep) as (st' & -> & ? & _).
    + by destruct (cleanup_old_overflow directory true st Hno) as (msg & ->).
  - intros n Hn. rewrite (rotate_file_dry_present _ _ _ Hn). by eexists.
  - destruct (fs st !! Path filepath) as [n|] eqn:Hn.
    + by rewrite (rotate_file_dry_present _ _ _ Hn).
    + by rewrite rotate_file_missing.
  - destruct (fs st !! Path filepath) as [n|] eqn:Hn.
    + split; [|done]. intros ?. by destruct (rotate_file_live_present _ _ _ Hn).
    + by rewrite rotate_file_missing.
Qed.

Lemma summary_eq st :
  summary st
  = (Ok (String.concat newline
       [ "Rotated " +:+ pretty (length (results st)) +:+ " file(s)";
         "Original total: " +:+
           format_f 2 (megabytes (total_original (results st))) +:+ " MB";
         "Compressed total: " +:+
           format_f 2 (megabytes (total_compressed (results st)))
           +:+ " MB";
         "Space saved: " +:+ format_f 1 (ratio (results st)) +:+ "%" ]), st).
Proof. reflexivity. Qed.

(** C10. A dry [rotate_file] leaves the history as it was, whatever it
    returns, so [summary] reports the same after it as before. A live
    [rotate_file] appends exactly the result it returns, and appends
    nothing when it declines or raises. *)
Theorem dry_run_not_in_history filepath st :
  results (rotate_file filepath true st).2 = results st ∧
  (summary (rotate_file filepath true st).2).1 = (summary st).1 ∧
  results (rotate_file filepath false st).2
  = match (rotate_file filepath false st).1 with
    | Ok (Some r) => results st ++ [r]
    | _ => results st
    end.
Proof.
  destruct (rotate_file_dry_frames filepath st) as (_ & _ & Hres).
  split_and!; [done| |apply rotate_file_live_history].
  rewrite !summary_eq. simpl. by rewrite Hres.
Qed.

(** *** Floats *)

(** [binary64 q] is within half a unit in the last place of [q]; the
    lemmas below draw from it what the percentage of [summary] needs. *)

Lemma round_half_even_error q :
  (Qabs (inject_Z (round_half_even q) - q) <= 1 # 2)%Q.
Proof.
  unfold round_half_even.
  pose proof (Qfloor_le q) as Hlo. pose proof (Qlt_floor q) as Hhi.
  rewrite inject_Z_plus in Hhi. change (inject_Z 1) with 1%Q in Hhi.
  apply Qabs_Qle_condition.
  destruct (Qcompare_spec (q - inject_Z (Qfloor q)) (1 # 2)) as [E|E|E].
  - destruct (Z.even (Qfloor q));
      rewrite ?inject_Z_plus; change (inject_Z 1) with 1%Q; lra.
  - lra.
  - rewrite inject_Z_plus. change (inject_Z 1) with 1%Q. lra.
Qed.

Lemma Zfrac_le (a b n d : Z) :
  0 < b → 0 < d → a * d ≤ n * b →
  (inject_Z a / inject_Z b <= inject_Z n / inject_Z d)%Q.
Proof.
  intros Hb Hd H.
  destruct b as [|b|b]; try lia. destruct d as [|d|d]; try lia.
  unfold Qle, Qdiv, Qmult, Qinv, inject_Z. simpl. nia.
Qed.

Lemma two_ne_0 : ¬ (2 == 0)%Q.
Proof. done. Qed.

Lemma Qlog2_lower q : (0 < q)%Q → (2 ^ Qlog2 q <= q)%Q.
Proof.
  intros Hq. unfold Qlog2.
  set (e0 := Z.log2 (Qnum q) - Z.log2 (Z.pos (Qden q))).
  destruct (Qle_bool (2 ^ e0) q) eqn:E; [by apply Qle_bool_iff|].
  destruct q as [n d]. simpl in *.
  assert (Hn : 0 < n) by (unfold Qlt in Hq; simpl in Hq; lia).
  pose proof (Z.log2_spec n Hn) as [Hn1 _].
  pose proof (Z.log2_spec (Z.pos d) (Pos2Z.is_pos d)) as [_ Hd2].
  pose proof (Z.log2_nonneg n). pose proof (Z.log2_nonneg (Z.pos d)).
  replace (e0 - 1) with (Z.log2 n - Z.succ (Z.log2 (Z.pos d)))
    by (subst e0; simpl; lia).
  rewrite Qpower_minus by done.
  change 2%Q with (inject_Z 2).
  rewrite <-!Zpower_Qpower by lia.
  rewrite (Qmake_Qdiv n d).
  apply Zfrac_le; [lia|lia|nia].
Qed.

Lemma Qpower_2_pos z : (0 < 2 ^ z)%Q.
Proof. by apply Qpower_0_lt. Qed.

Lemma Qpower_2_inv z : (2 ^ z * 2 ^ (- z) == 1)%Q.
Proof.
  rewrite <-Qpower_plus by done. by replace (z + - z) with 0 by lia.
Qed.

Lemma binary64_0 q : (q == 0)%Q → binary64 q = 0%Q.
Proof. intros H. unfold binary64. by apply Qeq_bool_iff in H as ->. Qed.

Lemma Qabs_pos_ne0 q : ¬ (q == 0)%Q → (0 < Qabs q)%Q.
Proof.
  intros Hq. destruct (Q_dec 0 q) as [[H|H]|H].
  - rewrite Qabs_pos by lra. done.
  - rewrite Qabs_neg by lra. lra.
  - destruct Hq. by symmetry.
Qed.

Lemma binary64_error q :
  ¬ (q == 0)%Q →
  (2 ^ Qlog2 (Qabs q) <= Qabs q)%Q ∧
  (Qabs (binary64 q - q) <= 2 ^ (Qlog2 (Qabs q) - 53))%Q.
Proof.
  intros Hq. pose proof (Qabs_pos_ne0 q Hq) as Hpos.
  split; [by apply Qlog2_lower|].
  unfold binary64.
  destruct (Qeq_bool q 0) eqn:E; [by apply Qeq_bool_iff in E|]. clear E.
  set (e := Qlog2 (Qabs q)). set (s := 52 - e).
  replace (e - 53) with (- s + - 1) by (unfold s; lia).
  rewrite Qpower_plus by done.
  change (2 ^ (- 1))%Q with (1 # 2)%Q.
  pose proof (round_half_even_error (q * 2 ^ s)) as Hr.
  apply Qabs_Qle_condition in Hr. apply Qabs_Qle_condition.
  pose proof (Qpower_2_pos s) as HP. pose proof (Qpower_2_pos (- s)) as HR.
  pose proof (Qpower_2_inv s) as HPR.
  revert Hr HP HR HPR.
  generalize (inject_Z (round_half_even (q * 2 ^ s))).
  generalize (2 ^ s)%Q (2 ^ (- s))%Q. intros P R m Hr HP HR HPR.
  assert (Hq' : (q == q * P * R)%Q) by (rewrite <-Qmult_assoc, HPR; ring).
  split; nra.
Qed.

Lemma binary64_rel q : (Qabs (binary64 q - q) <= Qabs q * (1 # 9007199254740992))%Q.
Proof.
  destruct (Qeq_dec q 0) as [E|Hq].
  - rewrite (binary64_0 q E), E. done.
  - destruct (binary64_error q Hq) as [Hlo Herr].
    eapply Qle_trans; [exact Herr|].
    replace (Qlog2 (Qabs q) - 53) with (Qlog2 (Qabs q) + - 53) by lia.
    rewrite Qpower_plus by done.
    change (2 ^ (- 53))%Q with (1 # 9007199254740992)%Q.
    apply Qmult_le_compat_r; [done|done].
Qed.

Lemma binary64_below q k :
  (Qabs q < 2 ^ k)%Q → (Qabs (binary64 q - q) <= 2 ^ (k - 54))%Q.
Proof.
  intros Hk. destruct (Qeq_dec q 0) as [E|Hq].
  - rewrite (binary64_0 q E), E. apply Qlt_le_weak, Qpower_2_pos.
  - destruct (binary64_error q Hq) as [Hlo Herr].
    eapply Qle_trans; [exact Herr|].
    apply Qpower_le_compat_l; [|done].
    assert (Qlog2 (Qabs q) < k); [|lia].
    apply (Qpower_lt_compat_l_inv 2); [|done].
    by eapply Qle_lt_trans.
Qed.

Lemma binary64_pos q : (0 < q)%Q → (0 < binary64 q)%Q.
Proof.
  intros Hq. pose proof (binary64_rel q) as H.
  rewrite (Qabs_pos q) in H by lra.
  apply Qabs_Qle_condition in H. lra.
Qed.

Lemma binary64_neg q : (q < 0)%Q → (binary64 q < 0)%Q.
Proof.
  intros Hq. pose proof (binary64_rel q) as H.
  rewrite (Qabs_neg q) in H by lra.
  apply Qabs_Qle_condition in H. lra.
Qed.

Lemma Zfrac_lt (a b n d : Z) :
  0 < b → 0 < d → a * d < n * b →
  (inject_Z a / inject_Z b < inject_Z n / inject_Z d)%Q.
Proof.
  intros Hb Hd H.
  destruct b as [|b|b]; try lia. destruct d as [|d|d]; try lia.
  unfold Qlt, Qdiv, Qmult, Qinv, inject_Z. simpl. nia.
Qed.

Lemma Qlog2_upper q : (0 < q)%Q → (q < 2 ^ (Qlog2 q + 1))%Q.
Proof.
  intros Hq. unfold Qlog2.
  set (e0 := Z.log2 (Qnum q) - Z.log2 (Z.pos (Qden q))).
  destruct (Qle_bool (2 ^ e0) q) eqn:E; cycle 1.
  { replace (e0 - 1 + 1) with e0 by lia.
    apply Qnot_le_lt. intros H. apply Qle_bool_iff in H. congruence. }
  clear E. destruct q as [n d]. simpl in *.
  assert (Hn : 0 < n) by (unfold Qlt in Hq; simpl in Hq; lia).
  pose proof (Z.log2_spec n Hn) as [_ Hn2].
  pose proof (Z.log2_spec (Z.pos d) (Pos2Z.is_pos d)) as [Hd1 _].
  pose proof (Z.log2_nonneg n). pose proof (Z.log2_nonneg (Z.pos d)).
  replace (e0 + 1) with (Z.succ (Z.log2 n) - Z.log2 (Z.pos d))
    by (subst e0; simpl; lia).
  rewrite Qpower_minus by done.
  change 2%Q with (inject_Z 2).
  rewrite <-!Zpower_Qpower by lia.
  rewrite (Qmake_Qdiv n d).
  apply Zfrac_lt; [lia|lia|nia].
Qed.

Lemma Qlog2_unique q e :
  (2 ^ e <= q)%Q → (q < 2 ^ (e + 1))%Q → Qlog2 q = e.
Proof.
  intros Hlo Hhi.
  assert (Hq : (0 < q)%Q).
  { eapply Qlt_le_trans; [apply (Qpower_2_pos e)|done]. }
  pose proof (Qlog2_lower q Hq) as Hlo'.
  pose proof (Qlog2_upper q Hq) as Hhi'.
  assert (Qlog2 q < e + 1).
  { apply (Qpower_lt_compat_l_inv 2); [|done]. by eapply Qle_lt_trans. }
  assert (e < Qlog2 q + 1).
  { apply (Qpower_lt_compat_l_inv 2); [|done]. by eapply Qle_lt_trans. }
  lia.
Qed.

Global Instance round_half_even_comp : Proper (Qeq ==> eq) round_half_even.
Proof.
  intros q q' E. unfold round_half_even.
  by rewrite (Qfloor_comp _ _ E), E.
Qed.

Global Instance binary64_comp : Proper (Qeq ==> Qeq) binary64.
Proof.
  intros q q' E. unfold binary64.
  assert (Qeq_bool q' 0 = Qeq_bool q 0) as ->
    by (apply Qeqb_comp; [symmetry; exact E|reflexivity]).
  destruct (Qeq_bool q 0) eqn:Hq; [done|].
  apply Qeq_bool_neq, Qabs_pos_ne0 in Hq.
  assert (Qlog2 (Qabs q') = Qlog2 (Qabs q)) as ->.
  { apply Qlog2_unique; rewrite <-E.
    - by apply Qlog2_lower.
    - by apply Qlog2_upper. }
  assert (round_half_even (q' * 2 ^ (52 - Qlog2 (Qabs q)))
          = round_half_even (q * 2 ^ (52 - Qlog2 (Qabs q)))) as ->
    by (apply round_half_even_comp, Qmult_comp;
        [symmetry; exact E|reflexivity]).
  done.
Qed.

Lemma binary64_1 : (binary64 1 == 1)%Q.
Proof. by vm_compute. Qed.

Lemma inject_Z_pos (z : Z) : 0 < z → (0 < inject_Z z)%Q.
Proof. intros H. unfold Qlt. simpl. lia. Qed.

Lemma Zfrac_sign (c o : Z) :
  0 < o →
  (0 < c → (0 < inject_Z c / inject_Z o)%Q) ∧
  (c ≤ 0 → (inject_Z c / inject_Z o <= 0)%Q).
Proof.
  intros Ho. destruct o as [|o|o]; try lia.
  unfold Qlt, Qle, Qdiv, Qmult, Qinv, inject_Z. simpl. split; nia.
Qed.

Lemma quotient_below_1 (o c : Z) :
  0 < o < 2 ^ 53 → c < o → (binary64 (inject_Z c / inject_Z o) < 1)%Q.
Proof.
  intros Ho Hc.
  destruct (Z_lt_le_dec 0 c) as [Hpos|Hneg].
  - assert (Hx0 : (0 < inject_Z c / inject_Z o)%Q)
      by (apply Zfrac_sign; lia).
    assert (Hx1 : (inject_Z c / inject_Z o
                   < inject_Z (2 ^ 54 - 1) / inject_Z (2 ^ 54))%Q).
    { apply Zfrac_lt; lia. }
    pose proof (binary64_below (inject_Z c / inject_Z o) 0) as Herr.
    rewrite Qabs_pos in Herr by lra.
    change (2 ^ 0)%Q with 1%Q in Herr.
    change (2 ^ (0 - 54))%Q with (1 # 18014398509481984)%Q in Herr.
    change (inject_Z (2 ^ 54 - 1) / inject_Z (2 ^ 54))%Q
      with (18014398509481983 # 18014398509481984)%Q in Hx1.
    revert Hx0 Hx1 Herr. generalize (inject_Z c / inject_Z o)%Q. intros x.
    generalize (binary64 x). intros q Hx0 Hx1 Herr.
    assert (Hlt : (x < 1)%Q) by lra.
    apply Herr, Qabs_Qle_condition in Hlt. lra.
  - assert (Hx0 : (inject_Z c / inject_Z o <= 0)%Q)
      by (apply Zfrac_sign; lia).
    destruct (Qle_lt_or_eq _ _ Hx0) as [H|H].
    + apply binary64_neg in H. lra.
    + by rewrite (binary64_0 _ H).
Qed.

Lemma quotient_above_1 (o c : Z) :
  0 < o < 2 ^ 53 → o < c → (1 < binary64 (inject_Z c / inject_Z o))%Q.
Proof.
  intros Ho Hc.
  assert (Hx1 : (inject_Z (2 ^ 53 + 1) / inject_Z (2 ^ 53)
                 < inject_Z c / inject_Z o)%Q).
  { apply Zfrac_lt; lia. }
  change (inject_Z (2 ^ 53 + 1) / inject_Z (2 ^ 53))%Q
    with (9007199254740993 # 9007199254740992)%Q in Hx1.
  pose proof (binary64_below (inject_Z c / inject_Z o) 1) as Herr.
  pose proof (binary64_rel (inject_Z c / inject_Z o)) as Hrel.
  rewrite (Qabs_pos (inject_Z c / inject_Z o)) in Herr, Hrel by lra.
  change (2 ^ 1)%Q with 2%Q in Herr.
  change (2 ^ (1 - 54))%Q with (1 # 9007199254740992)%Q in Herr.
  revert Hx1 Herr Hrel. generalize (inject_Z c / inject_Z o)%Q. intros x.
  generalize (binary64 x). intros q Hx1 Herr Hrel.
  apply Qabs_Qle_condition in Hrel.
  destruct (Qlt_le_dec x 2) as [Hlt|Hge].
  - apply Herr, Qabs_Qle_condition in Hlt. lra.
  - lra.
Qed.

Lemma quotient_1 (o : Z) :
  0 < o → (binary64 (inject_Z o / inject_Z o) == 1)%Q.
Proof.
  intros Ho.
  assert ((inject_Z o / inject_Z o == 1)%Q) as ->; [|apply binary64_1].
  apply Qmult_inv_r. pose proof (inject_Z_pos o Ho). lra.
Qed.

Lemma float_percent_sign (o c : Z) :
  0 < o < 2 ^ 53 →
  let p := binary64 (binary64 (1 - binary64 (inject_Z c / inject_Z o)) * 100) in
  ((p < 0)%Q ↔ o < c) ∧ ((0 < p)%Q ↔ c < o) ∧ ((p == 0)%Q ↔ c = o).
Proof.
  intros Ho p. subst p.
  assert (Hpos : ∀ q, (q < 1)%Q → (0 < binary64 (binary64 (1 - q) * 100))%Q).
  { intros q Hq. apply binary64_pos.
    assert (0 < binary64 (1 - q))%Q by (apply binary64_pos; lra). lra. }
  assert (Hneg : ∀ q, (1 < q)%Q → (binary64 (binary64 (1 - q) * 100) < 0)%Q).
  { intros q Hq. apply binary64_neg.
    assert (binary64 (1 - q) < 0)%Q by (apply binary64_neg; lra). lra. }
  assert (Hzero : ∀ q, (q == 1)%Q → (binary64 (binary64 (1 - q) * 100) == 0)%Q).
  { intros q Hq. rewrite (binary64_0 (1 - q)) by lra.
    by rewrite (binary64_0 (0 * 100)). }
  destruct (Z.lt_trichotomy c o) as [H|[H|H]].
  - pose proof (Hpos _ (quotient_below_1 o c Ho H)).
    split_and!; split; intros; try lia; try lra.
  - subst c. pose proof (Hzero _ (quotient_1 o (proj1 Ho))).
    split_and!; split; intros; try lia; try lra.
  - pose proof (Hneg _ (quotient_above_1 o c Ho H)).
    split_and!; split; intros; try lia; try lra.
Qed.

Lemma float_percent_accuracy (o c : Z) :
  let x := (inject_Z c / inject_Z o)%Q in
  (Qabs (binary64 (binary64 (1 - binary64 x) * 100) - (1 - x) * 100)
   <= (1 + Qabs x) * (1 # 17592186044416))%Q.
Proof.
  intros x.
  pose proof (binary64_rel x) as H1.
  pose proof (binary64_rel (1 - binary64 x)) as H2.
  pose proof (binary64_rel (binary64 (1 - binary64 x) * 100)) as H3.
  revert H1 H2 H3. generalize (binary64 x). intros q.
  generalize (binary64 (1 - q)). intros d.
  generalize (binary64 (d * 100)). intros r.
  intros H1 H2 H3.
  apply Qabs_Qle_condition in H1, H2, H3. apply Qabs_Qle_condition.
  destruct (Qlt_le_dec x 0) as [Hx|Hx];
    [rewrite (Qabs_neg x) in * by lra|rewrite (Qabs_pos x) in * by lra];
    (destruct (Qlt_le_dec (1 - q) 0) as [Hq|Hq];
       [rewrite (Qabs_neg (1 - q)) in * by lra
       |rewrite (Qabs_pos (1 - q)) in * by lra]);
    (destruct (Qlt_le_dec (d * 100) 0) as [Hd|Hd];
       [rewrite (Qabs_neg (d * 100)) in * by lra
       |rewrite (Qabs_pos (d * 100)) in * by lra]);
    lra.
Qed.

(** *** [summary] *)

Lemma stored_size_on_disk r :
  compressed_size r ≠ Some 0 → stored_size r = size_on_disk r.
Proof.
  unfold stored_size, size_on_disk. destruct (compressed_size r) as [c|]; [|done].
  intros H. simpl. destruct (Z.eqb_spec c 0); [|done]. by subst.
Qed.

Lemma total_compressed_on_disk rs :
  nonzero_sizes rs → total_compressed rs = sumZ (size_on_disk <$> rs).
Proof.
  unfold total_compressed, sumZ. induction 1 as [|r rs Hr _ IH]; [done|].
  csimpl. by rewrite IH, stored_size_on_disk.
Qed.

(** C7. [summary] never raises and changes nothing. The percentage it
    prints is the float value of [(1 - stored / original) * 100], where
    [original] is the sum of the original sizes and [stored] the sum of
    the compressed sizes where present and of the original sizes
    elsewhere: it differs from the exact value by no more than
    [(1 + stored / original) / 2^44], and it is [0] when [original] is
    [0]. On an empty history the report is 0 files, 0.00 MB twice and
    0.0%. *)
Theorem summary_space_saved st :
  nonzero_sizes (results st) →
  let rs := results st in
  let original := sumZ (original_size <$> rs) in
  let stored := sumZ (size_on_disk <$> rs) in
  float_range original → float_range stored →
  (∃ l1 l2 l3,
     summary st
     = (Ok (String.concat newline
              [l1; l2; l3; "Space saved: " +:+ format_f 1 (ratio rs) +:+ "%"]),
        st)) ∧
  (0 < original →
   (Qabs (ratio rs - space_saved original stored)
    <= (1 + Qabs (inject_Z stored / inject_Z original))
       * (1 # 17592186044416))%Q) ∧
  (original = 0 → ratio rs = space_saved original stored) ∧
  (rs = [] → summary st = (Ok empty_summary, st)).
Proof.
  intros Hnz rs original stored _ _. subst rs original stored. split_and!.
  - rewrite summary_eq. by do 3 eexists.
  - intros Hpos. unfold ratio, space_saved.
    rewrite (total_compressed_on_disk _ Hnz). unfold total_original.
    rewrite (proj2 (Z.ltb_lt _ _) Hpos).
    destruct (Z.eqb_spec (sumZ (original_size <$> results st)) 0); [lia|].
    apply float_percent_accuracy.
  - intros H0. unfold ratio, space_saved, total_original. by rewrite H0.
  - intros Hrs. rewrite summary_eq. by rewrite Hrs.
Qed.

(** What a successful live run did. *)
Lemma rotate_file_live_inv filepath st r st' :
  rotate_file filepath false st = (Ok (Some r), st') →
  ∃ n cs st1,
    fs st !! Path filepath = Some n ∧
    archive_step (COMPRESSORS_get (compress (policy st))).2 (Path filepath)
      (dest_path (policy st) (clock (ticks st)) (Path filepath)) (tick st)
    = (Ok cs, st1) ∧
    original_size r = st_size n ∧
    compressed_size r = cs ∧
    source r = str (Path filepath) ∧
    destination r
    = str (dest_path (policy st) (clock (ticks st)) (Path filepath)).
Proof.
  destruct (fs st !! Path filepath) as [n|] eqn:H;
    [|by rewrite rotate_file_missing].
  unfold rotate_file.
  erewrite bind_Ok by apply path_exists_eq.
  rewrite (exists_Some _ _ _ H). simpl.
  erewrite bind_Ok by apply now_eq.
  erewrite bind_Ok by apply gets_eq. simpl.
  erewrite bind_Ok by (apply path_stat_Some; simpl; exact H).
  destruct (archive_step (COMPRESSORS_get (compress (policy st))).2
              (Path filepath)
              (dest_path (policy st) (clock (ticks st)) (Path filepath))
              (tick st)) as [[cs|e] st1] eqn:E1;
    [|by erewrite bind_Raise by exact E1].
  erewrite bind_Ok by exact E1.
  destruct (truncate (Path filepath) st1) as [[[]|e] st2] eqn:E2;
    [|by erewrite bind_Raise by exact E2].
  erewrite bind_Ok by exact E2.
  intros [= <- <-]. by exists n, cs, st1.
Qed.

Lemma archive_step_nonzero k src dst st cs st' :
  (∀ c data, compress_bytes c data ≠ []) →
  archive_step k src dst st = (Ok cs, st') → cs ≠ Some 0.
Proof.
  intros Hne. destruct k as [c|]; simpl.
  - unfold mbind, M_bind.
    destruct (read_bytes src st) as [[data|] s0]; [|done].
    unfold write_bytes. destruct (is_dir _); [done|].
    destruct (faults dst); [|done..]. simpl.
    unfold path_stat. simpl. rewrite lookup_insert_eq. simpl.
    unfold mret, M_ret. intros [= <- _] [= H].
    specialize (Hne c data). by destruct (compress_bytes c data).
  - unfold mbind at 1. unfold M_bind.
    destruct (copy2 src dst st) as [[[]|] s0]; [|done].
    by intros [= <- _].
Qed.

(** The histories the engine builds have no zero compressed size. *)
Lemma rotate_file_history_nonzero filepath dry st :
  (∀ c data, compress_bytes c data ≠ []) →
  nonzero_sizes (results st) →
  nonzero_sizes (results (rotate_file filepath dry st).2).
Proof.
  intros Hne Hst. destruct dry.
  - by destruct (rotate_file_dry_frames filepath st) as (_ & _ & ->).
  - destruct (rotate_file_live_history filepath st) as [_ ->].
    destruct (rotate_file filepath false st) as [[[r|]|] st'] eqn:E; try done.
    apply Forall_app. split; [done|]. apply Forall_singleton.
    apply rotate_file_live_inv in E as (n & cs & st1 & _ & E & _ & -> & _).
    by eapply archive_step_nonzero.
Qed.

(** *** [rotate] *)

Lemma should_rotate_total f st : ∃ b, should_rotate f st = (Ok b, st).
Proof.
  destruct (fs st !! Path f) as [n|] eqn:H.
  - eexists. by apply should_rotate_present.
  - eexists. by apply should_rotate_missing.
Qed.

Lemma rotate_file_None f dry st st' :
  rotate_file f dry st = (Ok None, st') → fs st !! Path f = None.
Proof.
  intros E. destruct (fs st !! Path f) as [n|] eqn:H; [|done].
  destruct dry.
  - by rewrite (rotate_file_dry_present _ _ _ H) in E.
  - destruct (rotate_file_live_present _ _ _ H). by rewrite E.
Qed.

Lemma rotate_file_source f dry st r st' :
  rotate_file f dry st = (Ok (Some r), st') → source r = str (Path f).
Proof.
  intros E. destruct dry.
  - destruct (fs st !! Path f) as [n|] eqn:H.
    + rewrite (rotate_file_dry_present _ _ _ H) in E. by simplify_eq.
    + by rewrite rotate_file_missing in E.
  - by apply rotate_file_live_inv in E as (? & ? & ? & _ & _ & _ & _ & ? & _).
Qed.

Lemma rotate_loop_cons dry f rest acc st :
  rotate_loop dry (f :: rest) acc st
  = match should_rotate f st with
    | (Ok true, _) =>
        match rotate_file f dry st with
        | (Ok (Some r), st1) => rotate_loop dry rest (acc ++ [r]) st1
        | (Ok None, st1) => rotate_loop dry rest acc st1
        | (Raise e, st1) => (Raise e, st1)
        end
    | (Ok false, _) => rotate_loop dry rest acc st
    | (Raise e, st1) => (Raise e, st1)
    end.
Proof.
  destruct (should_rotate_total f st) as [b Hb].
  simpl. erewrite bind_Ok by exact Hb. rewrite Hb.
  destruct b; [|done]. unfold mbind, M_bind.
  by destruct (rotate_file f dry st) as [[[r|]|e] st1].
Qed.

Lemma rotate_loop_missing dry f rest acc st :
  fs st !! Path f = None →
  rotate_loop dry (f :: rest) acc st = rotate_loop dry rest acc st.
Proof.
  intros H. by rewrite rotate_loop_cons, should_rotate_missing.
Qed.

Lemma rotate_loop_in_order dry files :
  ∀ acc st rs st',
    rotate_loop dry files acc st = (Ok rs, st')
    ↔ ∃ rs', rs = acc ++ rs' ∧ rotated_in_order dry files st rs' st'.
Proof.
  induction files as [|f rest IH]; intros acc st rs st'.
  - simpl. unfold mret, M_ret. split.
    + intros [= <- <-]. exists []. split; [by rewrite app_nil_r|constructor].
    + intros (rs' & -> & H). inversion H; subst. by rewrite app_nil_r.
  - rewrite rotate_loop_cons.
    destruct (should_rotate_total f st) as [b Hb]. rewrite Hb.
    destruct b.
    + destruct (rotate_file f dry st) as [[[r|]|e] st1] eqn:E.
      * rewrite IH. split.
        -- intros (rs' & -> & H). exists (r :: rs').
           split; [by rewrite <-app_assoc|]. by eapply rotated_cons.
        -- intros (rs' & -> & H).
           inversion H as [|? ? ? ? ? Hs Hrest|? ? ? r0 st0 rs0 ? Hs Hr Hrest];
             subst; [congruence|].
           rewrite E in Hr. injection Hr as <- <-.
           exists rs0. split; [|done]. by rewrite <-app_assoc.
      * apply rotate_file_None in E.
        rewrite should_rotate_missing in Hb by done. done.
      * split; [done|]. intros (rs' & -> & H).
        inversion H; subst; congruence.
    + rewrite IH. split.
      * intros (rs' & -> & H). exists rs'. split; [done|].
        by apply rotated_skip.
      * intros (rs' & -> & H).
        inversion H; subst; [by eauto|congruence].
Qed.

Lemma rotated_in_order_sources dry files st rs st' :
  rotated_in_order dry files st rs st' →
  sublist (source <$> rs) ((str ∘ Path) <$> files).
Proof.
  induction 1 as [|f files st rs st' _ _ IH|f files st r st1 rs st' _ Hr _ IH];
    csimpl.
  - constructor.
  - by apply sublist_cons.
  - rewrite (rotate_file_source _ _ _ _ _ Hr). by apply sublist_skip.
Qed.

(** C8. [rotate] takes the matches of the pattern in ascending order of
    their names (a sorted rearrangement of what [glob.glob] returned),
    passes over those that are not due when their turn comes, rotates the
    others in that order and returns their results in that order. A match
    that no longer exists when its turn comes gives no result, changes
    nothing and does not stop the batch. *)
Theorem rotate_sorted_order pattern dry st :
  let files := sorted (glob_glob pattern (fs st)) in
  StronglySorted String.le files ∧
  files ≡ₚ glob_glob pattern (fs st) ∧
  (∀ rs st', rotate pattern dry st = (Ok rs, st')
             ↔ rotated_in_order dry files st rs st') ∧
  (∀ rs st', rotate pattern dry st = (Ok rs, st') →
             sublist (source <$> rs) ((str ∘ Path) <$> files)) ∧
  (∀ f rest acc s, fs s !! Path f = None →
                   rotate_loop dry (f :: rest) acc s
                   = rotate_loop dry rest acc s).
Proof.
  intros files.
  assert (Hrun : ∀ rs st', rotate pattern dry st = (Ok rs, st')
                           ↔ rotated_in_order dry files st rs st').
  { intros rs st'. unfold rotate. erewrite bind_Ok by apply gets_eq.
    fold files. rewrite rotate_loop_in_order. simpl. split; [|eauto].
    by intros (rs' & -> & ?). }
  split_and!; [apply StronglySorted_merge_sort; apply _
              |apply merge_sort_Permutation|done| |].
  - intros rs st' H%Hrun. by eapply rotated_in_order_sources.
  - intros. by apply rotate_loop_missing.
Qed.

Lemma rotate_loop_app dry l1 l2 :
  ∀ acc st,
    rotate_loop dry (l1 ++ l2) acc st
    = (rotate_loop dry l1 acc ≫= rotate_loop dry l2) st.
Proof.
  induction l1 as [|f l1 IH]; intros acc st; [done|].
  rewrite <-app_comm_cons. unfold mbind at 1. unfold M_bind.
  rewrite !rotate_loop_cons.
  destruct (should_rotate f st) as [[[]|e] s]; [|apply IH|done].
  destruct (rotate_file f dry st) as [[[r|]|e] s1]; [apply IH..|done].
Qed.

(** A run of [rotate_file] that raises leaves the history as it was. *)
Lemma rotate_file_raise_history f dry st e st' :
  rotate_file f dry st = (Raise e, st') → results st' = results st.
Proof.
  intros E. destruct dry.
  - destruct (rotate_file_dry_frames f st) as (_ & _ & H). by rewrite E in H.
  - destruct (rotate_file_live_history f st) as [_ H]. by rewrite E in H.
Qed.

(** C4 (amended). When the rotation of one match raises, [rotate] raises
    the same exception to its caller and stops there: the state it leaves
    is the one the failed rotation left, so the matches after it in sorted
    order are not examined and not rotated, and no result list is returned.
    The rotations done before the failure stay done and stay in the
    history, to which the failed one adds nothing. *)
Theorem rotate_aborts_on_failure pattern dry l1 f l2 st acc st1 e st2 :
  sorted (glob_glob pattern (fs st)) = l1 ++ f :: l2 →
  rotate_loop dry l1 [] st = (Ok acc, st1) →
  should_rotate f st1 = (Ok true, st1) →
  rotate_file f dry st1 = (Raise e, st2) →
  rotate pattern dry st = (Raise e, st2) ∧ results st2 = results st1.
Proof.
  intros Hfiles Hl1 Hdue Hfail. split; [|by eapply rotate_file_raise_history].
  unfold rotate.
  erewrite bind_Ok by apply gets_eq. rewrite Hfiles, rotate_loop_app.
  erewrite bind_Ok by exact Hl1.
  by rewrite rotate_loop_cons, Hdue, Hfail.
Qed.

(** *** The policy's backend name *)

Lemma COMPRESSORS_get_known :
  COMPRESSORS_get "gzip" = (".gz", Some gzip_open) ∧
  COMPRESSORS_get "bz2" = (".bz2", Some bz2_open) ∧
  COMPRESSORS_get "none" = ("", None).
Proof. by vm_compute. Qed.

(** C5 (amended). Constructing a policy never fails, whatever the backend
    name. The engine looks the name up with the entry of ['none'] as
    default: ['gzip'] and ['bz2'] select their own writer and suffix, and
    every other name, known or not, selects the identity backend (no
    suffix, no writer). *)
Theorem unknown_compression_is_identity size age name fmt count :
  RotationPolicy_init size age name fmt count
  = Ok {| max_size_mb := size; max_age_days := age; compress := name;
          timestamp_format := fmt; backup_count := count |} ∧
  COMPRESSORS_get "gzip" = (".gz", Some gzip_open) ∧
  COMPRESSORS_get "bz2" = (".bz2", Some bz2_open) ∧
  (name ≠ "gzip" → name ≠ "bz2" → COMPRESSORS_get name = ("", None)).
Proof.
  split_and!; [done|by vm_compute..|apply COMPRESSORS_get_other].
Qed.

(** ** Further properties of the engine *)

(** *** [rotate_file]: the live run in full *)

Lemma copy2_run src dst st c t :
  fs st !! src = Some (File c t) → is_dir (fs st !! dst) = false →
  src ≠ dst → faults dst = NoFault →
  copy2 src dst st
  = (Ok tt, set_fs (insert dst (File c t)) (tick st)).
Proof.
  intros Hsrc Hdir Hne Fdst. unfold copy2.
  erewrite bind_Ok by apply gets_eq. simpl. rewrite Hdir.
  rewrite bool_decide_eq_false_2 by done.
  erewrite bind_Ok by (eapply read_bytes_File; simpl; exact Hsrc).
  erewrite bind_Ok by (by apply write_bytes_NoFault).
  erewrite bind_Ok; last first.
  { apply path_stat_Some. simpl. rewrite lookup_insert_ne by done.
    exact Hsrc. }
  unfold modify, set_fs, tick. simpl. by rewrite insert_insert_eq.
Qed.

Lemma archive_step_run k src dst st content m :
  fs st !! src = Some (File content m) → is_dir (fs st !! dst) = false →
  src ≠ dst → faults dst = NoFault →
  archive_step k src dst st
  = match k with
    | Some c =>
        (Ok (Some (Z.of_nat (length (compress_bytes c content)))),
         set_fs (insert dst (File (compress_bytes c content)
                               (clock (ticks st)))) (tick st))
    | None => (Ok None, set_fs (insert dst (File content m)) (tick st))
    end.
Proof.
  intros Hsrc Hdir Hne Fdst. destruct k as [c|]; simpl.
  - erewrite bind_Ok by (by eapply read_bytes_File).
    erewrite bind_Ok by (by apply write_bytes_NoFault).
    erewrite bind_Ok
      by (apply path_stat_Some; simpl; apply lookup_insert_eq).
    reflexivity.
  - by erewrite bind_Ok by (by eapply copy2_run).
Qed.

Lemma rotate_file_live_run filepath st content m :
  let src := Path filepath in
  let dst := dest_path (policy st) (clock (ticks st)) src in
  fs st !! src = Some (File content m) →
  is_dir (fs st !! dst) = false →
  src ≠ dst →
  faults dst = NoFault →
  faults src = NoFault →
  let r := {| source := str src; destination := str dst;
              original_size := Z.of_nat (length content);
              compressed_size := recorded_size (policy st) content;
              timestamp := clock (S (S (S (ticks st)))) |} in
  rotate_file filepath false st
  = (Ok (Some r),
     {| policy := policy st; results := results st ++ [r];
        fs := <[src := File [] (clock (S (S (ticks st))))]>
              (<[dst := File (stored_form (policy st) content)
                          (archive_mtime (policy st) (clock (S (ticks st))) m)]>
               (fs st));
        ticks := S (S (S (S (ticks st)))); stdout := stdout st |}).
Proof.
  intros src dst Hsrc Hdir Hne Fdst Fsrc r. subst r.
  unfold rotate_file. fold src.
  erewrite bind_Ok by apply path_exists_eq.
  rewrite (exists_Some _ _ _ Hsrc). simpl.
  erewrite bind_Ok by apply now_eq.
  erewrite bind_Ok by apply gets_eq. simpl. fold dst.
  erewrite bind_Ok by (apply path_stat_Some; simpl; exact Hsrc).
  unfold recorded_size, stored_form, archive_mtime.
  destruct (COMPRESSORS_get (compress (policy st))).2 as [c|].
  - erewrite bind_Ok; last first.
    { apply (archive_step_run (Some c) src dst (tick st) content m); done. }
    erewrite bind_Ok; last first.
    { apply truncate_NoFault; [|done]. simpl.
      rewrite lookup_insert_ne by done. by eapply is_dir_File. }
    erewrite bind_Ok by apply now_eq. reflexivity.
  - erewrite bind_Ok; last first.
    { apply (archive_step_run None src dst (tick st) content m); done. }
    erewrite bind_Ok; last first.
    { apply truncate_NoFault; [|done]. simpl.
      rewrite lookup_insert_ne by done. by eapply is_dir_File. }
    erewrite bind_Ok by apply now_eq. reflexivity.
Qed.

Lemma archive_content_stored_form pol content :
  archive_content pol (stored_form pol content) = Some content.
Proof using decompress_compress.
  unfold archive_content, stored_form.
  by destruct (COMPRESSORS_get (compress pol)).2.
Qed.

(** X1. A second rotation onto a destination name that is already taken
    by a regular file (the same timestamp text, for one) replaces that
    file: the call succeeds, prints nothing, the destination reads back as
    the new content and every regular file other than source and
    destination is as before. *)
Theorem rotate_file_overwrites filepath st content m old m_old :
  let src := Path filepath in
  let dst := dest_path (policy st) (clock (ticks st)) src in
  path_name src ≠ "" →
  fs st !! src = Some (File content m) →
  fs st !! dst = Some (File old m_old) →
  faults dst = NoFault →
  faults src = NoFault →
  ∃ r st' stored t,
    rotate_file filepath false st = (Ok (Some r), st') ∧
    fs st' !! dst = Some (File stored t) ∧
    archive_content (policy st) stored = Some content ∧
    fs st' !! src = Some (File [] (clock (S (S (ticks st))))) ∧
    (∀ q, q ≠ src → q ≠ dst → is_dir (fs st !! q) = false →
          fs st' !! q = fs st !! q) ∧
    stdout st' = stdout st ∧
    results st' = results st ++ [r].
Proof using decompress_compress.
  intros src dst Hname Hsrc Hdst Fdst Fsrc.
  assert (Hne : src ≠ dst).
  { intros E. by apply (dest_path_ne (policy st) (clock (ticks st)) filepath). }
  do 4 eexists. split.
  { apply (rotate_file_live_run filepath st content m); try done.
    by eapply is_dir_File. }
  simpl. split_and!; try done.
  - rewrite lookup_insert_ne by done. apply lookup_insert_eq.
  - apply archive_content_stored_form.
  - apply lookup_insert_eq.
  - intros q ? ? _. by rewrite !lookup_insert_ne.
Qed.

(** X2. When the archive is written but the truncation of the source is
    refused, [rotate_file] raises with the complete archive left at the
    destination, the source as it was, and nothing recorded in the
    history: the source is exactly as due as it was before the call. *)
Theorem rotate_file_truncate_refused filepath st content m :
  let src := Path filepath in
  let dst := dest_path (policy st) (clock (ticks st)) src in
  path_name src ≠ "" →
  fs st !! src = Some (File content m) →
  is_dir (fs st !! dst) = false →
  faults dst = NoFault →
  faults src = OpenFails →
  ∃ st' t,
    rotate_file filepath false st = (Raise (PermissionError (str src)), st') ∧
    fs st' !! dst = Some (File (stored_form (policy st) content) t) ∧
    fs st' !! src = Some (File content m) ∧
    results st' = results st ∧
    due st' filepath = due st filepath.
Proof.
  intros src dst Hname Hsrc Hdir Fdst Fsrc.
  assert (Hne : src ≠ dst).
  { intros E. by apply (dest_path_ne (policy st) (clock (ticks st)) filepath). }
  assert (Hrun : ∀ k cs st1,
    archive_step k src dst (tick st) = (Ok cs, st1) →
    fs st1 !! src = Some (File content m) →
    (archive_step k src dst
       ≫= λ compressed_size,
            truncate src;;
            t' ← now;
            results_append
              {| source := str src; destination := str dst;
                 original_size := st_size (File content m);
                 compressed_size := compressed_size; timestamp := t' |};;
            mret (Some {| source := str src; destination := str dst;
                          original_size := st_size (File content m);
                          compressed_size := compressed_size;
                          timestamp := t' |})) (tick st)
    = (Raise (PermissionError (str src)), st1)).
  { intros k cs st1 Hk Hs. erewrite bind_Ok by exact Hk.
    apply bind_Raise. unfold truncate.
    by rewrite (is_dir_File _ _ _ _ Hs), Fsrc. }
  assert (Hpre : ∀ k cs st1,
    archive_step k src dst (tick st) = (Ok cs, st1) →
    fs st1 !! src = Some (File content m) →
    (COMPRESSORS_get (compress (policy st))).2 = k →
    rotate_file filepath false st = (Raise (PermissionError (str src)), st1)).
  { intros k cs st1 Hk Hs <-. unfold rotate_file. fold src.
    erewrite bind_Ok by apply path_exists_eq.
    rewrite (exists_Some _ _ _ Hsrc). simpl.
    erewrite bind_Ok by apply now_eq.
    erewrite bind_Ok by apply gets_eq. simpl. fold dst.
    erewrite bind_Ok by (apply path_stat_Some; simpl; exact Hsrc).
    by eapply Hrun. }
  pose proof (archive_step_run (COMPRESSORS_get (compress (policy st))).2
                src dst (tick st) content m Hsrc Hdir Hne Fdst) as Hstep.
  unfold stored_form, due.
  destruct (COMPRESSORS_get (compress (policy st))).2 as [c|] eqn:Hk;
    do 2 eexists; (split; [eapply Hpre; [exact Hstep| |done]|]); simpl;
    rewrite ?lookup_insert_ne by done; try done.
  all: split_and!; [apply lookup_insert_eq| |done|fold src];
    by rewrite lookup_insert_ne by done.
Qed.

(** X3. After a successful live rotation the source is empty, so it is
    due again exactly when the threshold is zero or negative: under a
    positive threshold a file just rotated is not rotated again. *)
Theorem rotated_file_due_again filepath st content m :
  let src := Path filepath in
  let dst := dest_path (policy st) (clock (ticks st)) src in
  fs st !! src = Some (File content m) →
  is_dir (fs st !! dst) = false →
  src ≠ dst →
  faults dst = NoFault →
  faults src = NoFault →
  ∃ r st' b,
    rotate_file filepath false st = (Ok (Some r), st') ∧
    should_rotate filepath st' = (Ok b, st') ∧
    (b = true ↔ (max_size_mb (policy st) <= 0)%Q).
Proof.
  intros src dst Hsrc Hdir Hne Fdst Fsrc.
  do 3 eexists. split.
  { by apply (rotate_file_live_run filepath st content m). }
  split.
  { apply should_rotate_present. simpl. apply lookup_insert_eq. }
  simpl. unfold div_MiB. rewrite Qle_bool_MiB.
  destruct (max_size_mb (policy st)) as [a b].
  unfold Qle, Qmult, inject_Z. simpl.
  change (round53 (Z.of_nat 0)) with 0. lia.
Qed.

Lemma copy2_Dir src dst st s t :
  fs st !! src = Some (Dir s t) → ∃ e, copy2 src dst st = (Raise e, st).
Proof.
  intros Hsrc. unfold copy2.
  erewrite bind_Ok by apply gets_eq. cbv beta zeta.
  case_bool_decide; [by eexists|].
  eexists. apply bind_Raise. by eapply read_bytes_Dir.
Qed.

(** X4. A live [rotate_file] on a directory raises before anything is
    written: the filesystem, the history and the output are as before, and
    only the clock has been read. *)
Theorem rotate_file_directory filepath st s t :
  fs st !! Path filepath = Some (Dir s t) →
  ∃ e, rotate_file filepath false st = (Raise e, tick st).
Proof.
  intros Hsrc. unfold rotate_file.
  erewrite bind_Ok by apply path_exists_eq.
  rewrite (exists_Some _ _ _ Hsrc). simpl.
  erewrite bind_Ok by apply now_eq.
  erewrite bind_Ok by apply gets_eq. simpl.
  erewrite bind_Ok by (apply path_stat_Some; simpl; exact Hsrc).
  destruct (COMPRESSORS_get (compress (policy st))).2 as [c|].
  - eexists. apply bind_Raise. apply bind_Raise.
    by eapply read_bytes_Dir.
  - destruct (copy2_Dir (Path filepath)
                (dest_path (policy st) (clock (ticks st)) (Path filepath))
                (tick st) s t Hsrc) as [e He].
    exists e. apply bind_Raise. by apply bind_Raise.
Qed.

(** X5. A dry run predicts the live run made from the same state: when
    the live [rotate_file] returns a result, the dry one returns a result
    with the same source, destination and original size, and no compressed
    size. *)
Theorem dry_run_predicts_live filepath st r st' :
  rotate_file filepath false st = (Ok (Some r), st') →
  ∃ r', (rotate_file filepath true st).1 = Ok (Some r') ∧
        source r' = source r ∧
        destination r' = destination r ∧
        original_size r' = original_size r ∧
        compressed_size r' = None.
Proof.
  intros (n & cs & st1 & Hn & _ & Hsz & _ & Hs & Hd)%rotate_file_live_inv.
  rewrite (rotate_file_dry_present _ _ _ Hn). eexists. split; [done|].
  simpl. by rewrite Hsz, Hs, Hd.
Qed.

(** *** An archive path that is a directory *)

Lemma copy2_into_dir src dst st c t s' t' :
  let inner := joinpath dst (path_name src) in
  fs st !! src = Some (File c t) → fs st !! dst = Some (Dir s' t') →
  is_dir (fs st !! inner) = false → src ≠ inner → faults inner = NoFault →
  copy2 src dst st
  = (Ok tt, set_fs (insert inner (File c t)) (tick st)).
Proof.
  intros inner Hsrc Hdst Hdir Hne Finner. unfold copy2.
  erewrite bind_Ok by apply gets_eq. simpl. rewrite Hdst. simpl.
  fold inner. rewrite bool_decide_eq_false_2 by done.
  erewrite bind_Ok by (eapply read_bytes_File; simpl; exact Hsrc).
  erewrite bind_Ok by (by apply write_bytes_NoFault).
  erewrite bind_Ok; last first.
  { apply path_stat_Some. simpl. rewrite lookup_insert_ne by done.
    exact Hsrc. }
  unfold modify, set_fs, tick. simpl. by rewrite insert_insert_eq.
Qed.

(** X6. With the [gzip] or the [bz2] backend, when the archive's path
    is an existing directory the live run raises [IsADirectoryError] on
    opening it: nothing is written, the source keeps its content and the
    history is as before. *)
Theorem rotate_file_dest_directory_compressed filepath st content m s t :
  let src := Path filepath in
  let dst := dest_path (policy st) (clock (ticks st)) src in
  compress (policy st) = "gzip" ∨ compress (policy st) = "bz2" →
  fs st !! src = Some (File content m) →
  fs st !! dst = Some (Dir s t) →
  rotate_file filepath false st
  = (Raise (IsADirectoryError (str dst)), tick st).
Proof.
  intros src dst Hc Hsrc Hdst.
  assert (∃ c, (COMPRESSORS_get (compress (policy st))).2 = Some c) as [c Hk].
  { destruct Hc as [-> | ->]; by eexists. }
  unfold rotate_file. fold src.
  erewrite bind_Ok by apply path_exists_eq.
  rewrite (exists_Some _ _ _ Hsrc). simpl.
  erewrite bind_Ok by apply now_eq.
  erewrite bind_Ok by apply gets_eq. simpl. fold dst.
  erewrite bind_Ok by (apply path_stat_Some; simpl; exact Hsrc).
  rewrite Hk. apply bind_Raise.
  erewrite bind_Ok by (by eapply read_bytes_File).
  apply bind_Raise. unfold write_bytes. simpl. by rewrite Hdst.
Qed.

(** X7. With the identity backend, when the archive's path is an
    existing directory the copy goes inside it, under the source's name;
    the source is emptied as usual, the directory is still a directory,
    and the result still names the directory itself as its destination. *)
Theorem rotate_file_dest_directory_copy filepath st content m s t :
  let src := Path filepath in
  let dst := dest_path (policy st) (clock (ticks st)) src in
  let inner := joinpath dst (path_name src) in
  compress (policy st) ≠ "gzip" → compress (policy st) ≠ "bz2" →
  fs st !! src = Some (File content m) →
  fs st !! dst = Some (Dir s t) →
  is_dir (fs st !! inner) = false →
  src ≠ inner →
  faults inner = NoFault → faults src = NoFault →
  ∃ r st',
    rotate_file filepath false st = (Ok (Some r), st') ∧
    destination r = str dst ∧ compressed_size r = None ∧
    fs st' !! inner = Some (File content m) ∧
    is_dir (fs st' !! dst) = true ∧
    fs st' !! src = Some (File [] (clock (S (S (ticks st))))) ∧
    results st' = results st ++ [r].
Proof.
  intros src dst inner Hgz Hbz Hsrc Hdst Hdir Hne Finner Fsrc.
  pose proof (COMPRESSORS_get_other _ Hgz Hbz) as Hk.
  assert (Hdi : dst ≠ inner) by (intros E; rewrite <-E, Hdst in Hdir; done).
  assert (Hds : dst ≠ src) by (intros E; rewrite E, Hsrc in Hdst; done).
  unfold rotate_file. fold src.
  erewrite bind_Ok by apply path_exists_eq.
  rewrite (exists_Some _ _ _ Hsrc). simpl.
  erewrite bind_Ok by apply now_eq.
  erewrite bind_Ok by apply gets_eq. simpl. fold dst.
  erewrite bind_Ok by (apply path_stat_Some; simpl; exact Hsrc).
  rewrite Hk. cbn [snd].
  erewrite bind_Ok; last first.
  { erewrite bind_Ok; [reflexivity|].
    by apply (copy2_into_dir src dst (tick st) content m s t). }
  fold inner.
  erewrite bind_Ok; last first.
  { apply truncate_NoFault; [|done]. simpl.
    rewrite lookup_insert_ne by done. by eapply is_dir_File. }
  erewrite bind_Ok by apply now_eq.
  erewrite bind_Ok by reflexivity.
  eexists _, _. split; [reflexivity|]. simpl. split_and!; [done|done|..|done].
  - rewrite lookup_insert_ne by done. by rewrite lookup_insert_eq.
  - rewrite !lookup_insert_ne by done. by rewrite Hdst.
  - by rewrite lookup_insert_eq.
Qed.

(** *** Rotation never removes a path *)

Global Instance keeps_paths_preorder : PreOrder keeps_paths.
Proof.
  split.
  - intros st p n Hn. by exists n.
  - intros x y z Hxy Hyz p n Hn.
    destruct (Hxy p n Hn) as (n1 & Hn1 & H1).
    destruct (Hyz p n1 Hn1) as (n2 & Hn2 & H2).
    exists n2. split; [done|]. by rewrite H2.
Qed.

Lemma same_fs_keeps_paths st st' : fs st' = fs st → keeps_paths st st'.
Proof. intros E p n Hn. exists n. by rewrite E. Qed.

Lemma same_files_keeps_paths {A} (m : M A) :
  frames same_files m → frames keeps_paths m.
Proof. intros H st. apply same_fs_keeps_paths, H. Qed.

Lemma insert_file_keeps_paths (p : PurePath) c t (st st' : State) :
  is_dir (fs st !! p) = false →
  fs st' = <[p := File c t]> (fs st) →
  keeps_paths st st'.
Proof.
  intros Hdir Hf q n Hn. rewrite Hf.
  destruct (decide (q = p)) as [->|Hne].
  - rewrite lookup_insert_eq. eexists. split; [done|].
    rewrite Hn in Hdir. by destruct n.
  - rewrite lookup_insert_ne by done. by exists n.
Qed.

Lemma keeps_paths_write_bytes p data : frames keeps_paths (write_bytes p data).
Proof.
  intros st. unfold write_bytes.
  destruct (is_dir (fs st !! p)) eqn:Hdir; [done|].
  destruct (faults p); [|done|]; by eapply insert_file_keeps_paths.
Qed.

Lemma keeps_paths_truncate p : frames keeps_paths (truncate p).
Proof.
  intros st. unfold truncate.
  destruct (is_dir (fs st !! p)) eqn:Hdir; [done|].
  destruct (faults p); [|done|]; by eapply insert_file_keeps_paths.
Qed.

Lemma keeps_paths_copy2 src dst : frames keeps_paths (copy2 src dst).
Proof.
  intros st. unfold copy2.
  erewrite bind_Ok by apply gets_eq. cbv beta zeta.
  set (dst' := if is_dir (fs st !! dst) then _ else dst).
  case_bool_decide; [done|].
  unfold mbind at 1. unfold M_bind at 1.
  pose proof (frames_read_bytes keeps_paths src st) as Hr.
  destruct (read_bytes src st) as [[data|e] st1] eqn:E1; [|done].
  assert (st1 = st) as ->.
  { unfold read_bytes in E1. by destruct (fs st !! src) as [[]|]; simplify_eq. }
  unfold mbind at 1. unfold M_bind at 1.
  pose proof (keeps_paths_write_bytes dst' data st) as Hw.
  destruct (write_bytes dst' data st) as [[[]|e] st2] eqn:E2; [|done].
  simpl in Hw.
  assert (Hfile : is_dir (fs st2 !! dst') = false).
  { unfold write_bytes in E2.
    destruct (is_dir (fs st !! dst')); [done|].
    destruct (faults dst'); [|done|done].
    inversion E2; subst st2.
    cbn [fs set_fs tick]. by rewrite lookup_insert_eq. }
  unfold mbind at 1. unfold M_bind at 1.
  destruct (path_stat src st2) as [[n|e] st3] eqn:E3.
  - assert (st3 = st2) as ->.
    { unfold path_stat in E3. by destruct (fs st2 !! src); simplify_eq. }
    simpl. etrans; [exact Hw|].
    by eapply insert_file_keeps_paths.
  - assert (st3 = st2) as ->.
    { unfold path_stat in E3. by destruct (fs st2 !! src); simplify_eq. }
    done.
Qed.

Lemma keeps_paths_results_append r : frames keeps_paths (results_append r).
Proof. intros st. by apply same_fs_keeps_paths. Qed.

Ltac keeps_step :=
  first
    [ apply frames_ret | apply frames_raise | apply frames_gets
    | apply frames_path_exists | apply frames_path_stat
    | apply frames_read_bytes
    | apply keeps_paths_write_bytes | apply keeps_paths_truncate
    | apply keeps_paths_copy2 | apply keeps_paths_results_append
    | apply same_files_keeps_paths; first [apply frames_now | apply frames_print]
    | apply frames_if
    | match goal with
      | |- frames _ (match ?k with Some _ => _ | None => _ end) => destruct k
      end
    | apply frames_bind; [apply _| |intros ?] ];
  try match goal with |- PreOrder _ => apply _ end.

Lemma keeps_paths_rotate_file filepath dry :
  frames keeps_paths (rotate_file filepath dry).
Proof. unfold rotate_file. repeat keeps_step. Qed.

Lemma keeps_paths_should_rotate f : frames keeps_paths (should_rotate f).
Proof.
  intros st. destruct (should_rotate_total f st) as [b ->]. done.
Qed.

Lemma keeps_paths_rotate_loop dry files :
  ∀ acc, frames keeps_paths (rotate_loop dry files acc).
Proof.
  induction files as [|f rest IH]; intros acc; simpl; [by keeps_step|].
  keeps_step; [apply keeps_paths_should_rotate|].
  keeps_step; [|apply IH].
  keeps_step; [apply keeps_paths_rotate_file|].
  match goal with |- context [match ?x with _ => _ end] => destruct x end;
    apply IH.
Qed.

Lemma keeps_paths_rotate pattern dry : frames keeps_paths (rotate pattern dry).
Proof.
  unfold rotate. apply frames_bind; [apply _|apply frames_gets; apply _|].
  intros files. apply keeps_paths_rotate_loop.
Qed.

(** X8. Rotation never removes a path: whatever the mode, and whether
    the call returns or raises, every path present before [rotate_file]
    or [rotate] is present after it, a regular file as a regular file and
    a directory as a directory. *)
Theorem rotation_keeps_paths filepath pattern dry st :
  keeps_paths st (rotate_file filepath dry st).2 ∧
  keeps_paths st (rotate pattern dry st).2.
Proof.
  split; [apply keeps_paths_rotate_file|apply keeps_paths_rotate].
Qed.

(** *** The batch *)

Lemma should_rotate_due f st : should_rotate f st = (Ok (due st f), st).
Proof.
  unfold due. destruct (fs st !! Path f) as [n|] eqn:E.
  - by apply should_rotate_present.
  - by apply should_rotate_missing.
Qed.

Lemma due_same_files st st' f : same_files st st' → due st' f = due st f.
Proof. intros (Hfs & Hpol & _). unfold due. by rewrite Hfs, Hpol. Qed.

Lemma rotate_loop_dry st0 files :
  ∀ acc st,
    same_files st0 st →
    ∃ rs st',
      rotate_loop true files acc st = (Ok (acc ++ rs), st') ∧
      same_files st0 st' ∧
      Forall2 (would_rotate st0) (filter (λ f, due st0 f) files) rs.
Proof.
  induction files as [|f rest IH]; intros acc st Hst.
  - exists [], st. rewrite app_nil_r. by split_and!.
  - rewrite rotate_loop_cons, should_rotate_due, (due_same_files _ _ _ Hst).
    rewrite filter_cons.
    destruct (due st0 f) eqn:Hdue; cycle 1.
    { rewrite decide_False by (intros []). by apply IH. }
    rewrite decide_True by done.
    assert (∃ n, fs st0 !! Path f = Some n) as [n Hn].
    { unfold due in Hdue. destruct (fs st0 !! Path f); [by eexists|done]. }
    assert (Hn' : fs st !! Path f = Some n) by (by rewrite (proj1 Hst)).
    rewrite (rotate_file_dry_present f st n Hn').
    set (r := {| source := _ |}). set (st1 := {| policy := _ |}).
    destruct (IH (acc ++ [r]) st1) as (rs & st' & Hrun & Hst' & Hrs).
    { destruct Hst as (? & ? & ?). by split_and!. }
    exists (r :: rs), st'. split_and!; [|done|].
    + rewrite Hrun. by rewrite <-app_assoc.
    + constructor; [|done]. split_and!; [done..|]. by exists n.
Qed.

(** X9. A dry-run batch never raises and touches neither the files nor
    the history; it returns one record for each match that is due in the
    state at the call, in sorted order, with the size the file has. *)
Theorem rotate_dry_run pattern st :
  ∃ rs st',
    rotate pattern true st = (Ok rs, st') ∧
    fs st' = fs st ∧ results st' = results st ∧
    Forall2 (would_rotate st)
      (filter (λ f, due st f) (sorted (glob_glob pattern (fs st)))) rs.
Proof.
  unfold rotate. erewrite bind_Ok by apply gets_eq.
  destruct (rotate_loop_dry st (sorted (glob_glob pattern (fs st))) [] st)
    as (rs & st' & Hrun & (Hfs & _ & Hres) & Hrs); [done|].
  by exists rs, st'.
Qed.

Lemma rotated_in_order_history dry files st rs st' :
  rotated_in_order dry files st rs st' →
  results st' = results st ++ (if dry then [] else rs).
Proof.
  induction 1 as [st|f files st rs st' _ _ IH|f files st r st1 rs st' _ Hr _ IH].
  - destruct dry; by rewrite app_nil_r.
  - done.
  - rewrite IH. destruct dry.
    + f_equal. pose proof (rotate_file_dry_frames f st) as (_ & _ & E).
      by rewrite Hr in E.
    + pose proof (rotate_file_live_history f st) as [_ E].
      rewrite Hr in E. simpl in E. by rewrite E, <-app_assoc.
Qed.

Lemma rotate_loop_in_order_rotate pattern dry st rs st' :
  rotate pattern dry st = (Ok rs, st') →
  results st' = results st ++ (if dry then [] else rs).
Proof.
  unfold rotate. erewrite bind_Ok by apply gets_eq.
  intros H. apply rotate_loop_in_order in H as (rs' & -> & H).
  by apply rotated_in_order_history in H.
Qed.

(** X10. A live batch that returns has appended exactly the list it
    returns to the history, in the same order; a dry-run batch that
    returns has left the history as it was. *)
Theorem rotate_extends_history pattern dry st rs st' :
  rotate pattern dry st = (Ok rs, st') →
  results st' = results st ++ (if dry then [] else rs).
Proof. apply rotate_loop_in_order_rotate. Qed.

Lemma rotate_loop_none_due dry files :
  ∀ acc st,
    Forall (λ f, due st f = false) files →
    rotate_loop dry files acc st = (Ok acc, st).
Proof.
  induction files as [|f rest IH]; intros acc st Hall; [done|].
  inversion Hall as [|? ? Hf Hrest]; subst.
  rewrite rotate_loop_cons, should_rotate_due, Hf. by apply IH.
Qed.

Lemma elem_of_sorted f xs : f ∈ sorted xs ↔ f ∈ xs.
Proof. unfold sorted. by rewrite merge_sort_Permutation. Qed.

(** X11. When no match of the pattern is due, a batch in either mode
    returns the empty list and leaves the whole state as it was: no
    file, no history entry, no output line and no clock reading. *)
Theorem rotate_nothing_due pattern dry st :
  (∀ f, f ∈ glob_glob pattern (fs st) → due st f = false) →
  rotate pattern dry st = (Ok [], st).
Proof.
  intros H. unfold rotate. erewrite bind_Ok by apply gets_eq.
  apply rotate_loop_none_due, Forall_forall.
  intros f Hf. by apply H, elem_of_sorted.
Qed.

(** *** The sweep in every outcome *)

Lemma only_removes_refl (P : PurePath → Prop) (cutoff : Z)
    (m : gmap PurePath node) :
  only_removes P cutoff m m.
Proof. intros q. by left. Qed.

Lemma only_removes_trans (P : PurePath → Prop) (cutoff : Z)
    (m1 m2 m3 : gmap PurePath node) :
  only_removes P cutoff m1 m2 → only_removes P cutoff m2 m3 →
  only_removes P cutoff m1 m3.
Proof.
  intros H12 H23 q.
  destruct (H23 q) as [E|(E & HP & c & t & E' & Hlt)].
  - rewrite E. apply H12.
  - right. split_and!; [done..|]. exists c, t. split; [|done].
    destruct (H12 q) as [E2|(E2 & _)]; congruence.
Qed.

Lemma only_removes_delete (P : PurePath → Prop) (cutoff : Z)
    (m : gmap PurePath node) (p : PurePath) (c : bytes) (t : Z) :
  P p → m !! p = Some (File c t) → t < cutoff →
  only_removes P cutoff m (delete p m).
Proof.
  intros HP Hm Hlt q. destruct (decide (q = p)) as [->|Hne].
  - right. rewrite lookup_delete_eq. split_and!; [done..|]. by exists c, t.
  - left. by rewrite lookup_delete_ne.
Qed.

Lemma cleanup_loop_only_removes (P : PurePath → Prop) (dry : bool) (cutoff : Z)
    (paths : list PurePath) :
  ∀ (removed : Z) (st : State),
    (∀ q, q ∈ paths → P q) →
    only_removes P cutoff (fs st)
      (fs (cleanup_loop dry cutoff paths removed st).2) ∧
    policy (cleanup_loop dry cutoff paths removed st).2 = policy st ∧
    results (cleanup_loop dry cutoff paths removed st).2 = results st.
Proof.
  induction paths as [|p rest IH]; intros removed st HP.
  - split; [apply only_removes_refl|done].
  - assert (HP' : ∀ q, q ∈ rest → P q)
      by (intros q Hq; apply HP; by right).
    simpl. destruct (fs st !! p) as [n|] eqn:Hn; cycle 1.
    { erewrite bind_Raise by (unfold path_stat; by rewrite Hn).
      split; [apply only_removes_refl|done]. }
    erewrite bind_Ok by (by apply path_stat_Some).
    destruct (st_mtime n <? cutoff) eqn:Hold; [|by apply IH].
    apply Z.ltb_lt in Hold.
    destruct dry.
    { erewrite bind_Ok by reflexivity.
      match goal with |- context [cleanup_loop _ _ _ ?r ?s] =>
        apply (IH r s HP')
      end. }
    destruct n as [c t|s t].
    + erewrite bind_Ok by (unfold unlink; by rewrite Hn).
      destruct (IH (removed + 1) (set_fs (delete p) st) HP')
        as (H1 & H2 & H3).
      split; [|done].
      eapply only_removes_trans; [|exact H1].
      apply (only_removes_delete P cutoff (fs st) p c t);
        [apply HP; by left|done..].
    + erewrite bind_Raise by (unfold unlink; by rewrite Hn).
      split; [apply only_removes_refl|done].
Qed.

Lemma only_removes_sweeps (P : PurePath → Prop) (cutoff : Z)
    (m m' : gmap PurePath node) :
  only_removes P cutoff m m' → sweeps_only P cutoff m m'.
Proof.
  intros H q. destruct (is_dir (m !! q)) eqn:Hdir; [|apply H].
  destruct (H q) as [E|(_ & _ & c & t & E & _)]; [by rewrite E|].
  by rewrite E in Hdir.
Qed.

(** X12. Whatever the mode and whether it returns or raises,
    [cleanup_old] creates nothing and rewrites no file: every path that
    is not a directory is as before, or is gone and was a regular file of
    the directory named [*.gz] or [*.bz2] and older than the cutoff; a
    directory is still a directory. The policy and the history are left
    alone, and a dry run leaves every path. *)
Theorem cleanup_old_only_removes directory dry st :
  let dir := Path directory in
  let cutoff :=
    clock (ticks st) - max_age_days (policy st) * microseconds_per_day in
  let st' := (cleanup_old directory dry st).2 in
  sweeps_only (λ q, in_glob dir ".gz" q ∨ in_glob dir ".bz2" q) cutoff
    (fs st) (fs st') ∧
  policy st' = policy st ∧ results st' = results st ∧
  (dry = true → fs st' = fs st).
Proof.
  intros dir cutoff st'.
  destruct (decide (representable_cutoff (clock (ticks st))
                      (max_age_days (policy st)))) as [Hrep|Hno]; cycle 1.
  { unfold st'.
    destruct (cleanup_old_overflow directory dry st Hno) as (msg & ->).
    split_and!; [|done..]. apply only_removes_sweeps, only_removes_refl. }
  assert (Hdry : dry = true → fs st' = fs st).
  { intros ->. unfold st'.
    destruct (cleanup_old_dry directory st Hrep) as (st1 & -> & Hfs & _).
    done. }
  cut (only_removes (λ q, in_glob dir ".gz" q ∨ in_glob dir ".bz2" q) cutoff
         (fs st) (fs st') ∧
       policy st' = policy st ∧ results st' = results st).
  { intros (? & ? & ?). split_and!; [by apply only_removes_sweeps|done..]. }
  clear Hdry. unfold st', cleanup_old. clear st'.
  erewrite bind_Ok by (by apply cleanup_cutoff_ok). cbv zeta. fold dir.
  fold cutoff.
  erewrite bind_Ok by apply path_glob_eq.
  set (P := λ q : PurePath, in_glob dir ".gz" q ∨ in_glob dir ".bz2" q).
  assert (Hglob : ∀ ext (m : gmap PurePath node),
            (ext = ".gz" ∨ ext = ".bz2") →
            ∀ q, q ∈ (if is_dir (m !! dir)
                      then filter (λ p, in_glob dir ext p) (map_to_list m).*1
                      else []) → P q).
  { intros ext m Hext q. destruct (is_dir (m !! dir)).
    - intros [Hq _]%glob_keys. destruct Hext as [-> | ->]; [by left|by right].
    - by intros ?%elem_of_nil. }
  cbv beta.
  match goal with |- context [cleanup_loop _ _ ?l 0] => set (gz := l) end.
  destruct (cleanup_loop_only_removes P dry cutoff gz 0 (tick st))
    as (H1 & H2 & H3); [apply (Hglob ".gz"); by left|].
  destruct (cleanup_loop dry cutoff gz 0 (tick st)) as [[k|e] st1] eqn:E1.
  - erewrite bind_Ok by exact E1.
    erewrite bind_Ok by apply path_glob_eq.
    cbv beta.
    match goal with |- context [cleanup_loop _ _ ?l k] => set (bz := l) end.
    destruct (cleanup_loop_only_removes P dry cutoff bz k st1)
      as (H4 & H5 & H6); [apply (Hglob ".bz2"); by right|].
    simpl in *. split_and!; [|congruence..].
    by eapply only_removes_trans.
  - erewrite bind_Raise by exact E1. done.
Qed.

Lemma cleanup_loop_directory (cutoff : Z) (p : PurePath) (s t : Z)
    (paths : list PurePath) :
  ∀ (removed : Z) (st : State),
    p ∈ paths → fs st !! p = Some (Dir s t) → t < cutoff →
    ∃ e st', cleanup_loop false cutoff paths removed st = (Raise e, st').
Proof.
  induction paths as [|h rest IH]; intros removed st Hin Hp Hlt.
  { by apply elem_of_nil in Hin. }
  simpl. destruct (fs st !! h) as [n|] eqn:Hn; cycle 1.
  { erewrite bind_Raise by (unfold path_stat; by rewrite Hn). by eexists _, _. }
  erewrite bind_Ok by (by apply path_stat_Some).
  destruct (decide (h = p)) as [->|Hne].
  { simplify_eq. simpl. rewrite (proj2 (Z.ltb_lt t cutoff) Hlt).
    erewrite bind_Raise by (unfold unlink; by rewrite Hp). by eexists _, _. }
  assert (Hrest : p ∈ rest).
  { apply elem_of_cons in Hin as [?|?]; [by subst|done]. }
  destruct (st_mtime n <? cutoff); [|by apply IH].
  destruct n as [c t'|s' t'].
  - erewrite bind_Ok by (unfold unlink; by rewrite Hn).
    apply IH; [done| |done]. simpl. by rewrite lookup_delete_ne.
  - erewrite bind_Raise by (unfold unlink; by rewrite Hn). by eexists _, _.
Qed.

(** X13. An entry of the directory named like an archive, older than
    the cutoff, that is itself a directory: a live [cleanup_old] raises,
    while a dry run (the cutoff being a date that [datetime] has) returns
    and counts it among the removals it announces. *)
Theorem cleanup_old_expired_directory (directory : string) (st : State)
    (p : PurePath) (s t : Z) :
  let dir := Path directory in
  let cutoff :=
    clock (ticks st) - max_age_days (policy st) * microseconds_per_day in
  is_dir (fs st !! dir) = true →
  in_glob dir ".gz" p ∨ in_glob dir ".bz2" p →
  fs st !! p = Some (Dir s t) →
  t < cutoff →
  (∃ e st', cleanup_old directory false st = (Raise e, st')) ∧
  (representable_cutoff (clock (ticks st)) (max_age_days (policy st)) →
   ∃ k st', cleanup_old directory true st = (Ok k, st') ∧ 0 < k).
Proof.
  intros dir cutoff Hdir Hglob Hp Hlt. split.
  - destruct (decide (representable_cutoff (clock (ticks st))
                        (max_age_days (policy st)))) as [Hrep|Hno]; cycle 1.
    { destruct (cleanup_old_overflow directory false st Hno) as (msg & ->).
      by eexists _, _. }
    unfold cleanup_old.
    erewrite bind_Ok by (by apply cleanup_cutoff_ok). cbv zeta. fold dir.
    fold cutoff.
    erewrite bind_Ok by apply path_glob_eq.
    change (fs (tick st)) with (fs st). rewrite Hdir.
    set (gz := filter _ _).
    set (P := λ q : PurePath, in_glob dir ".gz" q ∨ in_glob dir ".bz2" q).
    destruct (cleanup_loop_only_removes P false cutoff gz 0 (tick st))
      as (H1 & _).
    { intros q [Hq _]%glob_keys. by left. }
    destruct (cleanup_loop false cutoff gz 0 (tick st)) as [[k|e] st1] eqn:E1;
      [|erewrite bind_Raise by exact E1; by eexists _, _].
    erewrite bind_Ok by exact E1.
    erewrite bind_Ok by apply path_glob_eq. simpl in H1.
    assert (Hkeep : ∀ q s' t', fs st !! q = Some (Dir s' t') →
                               fs st1 !! q = Some (Dir s' t')).
    { intros q s' t' Hq.
      destruct (H1 q) as [E|(_ & _ & c & t'' & E & _)]; congruence. }
    assert (Hdir1 : is_dir (fs st1 !! dir) = true).
    { destruct (fs st !! dir) as [[|s' t']|] eqn:Hd; try done.
      by rewrite (Hkeep dir s' t' Hd). }
    rewrite Hdir1.
    destruct Hglob as [Hg|Hg].
    + exfalso.
      destruct (cleanup_loop_directory cutoff p s t gz 0 (tick st))
        as (e & st2 & E); [|done|done|congruence].
      apply glob_keys. split; [done|]. by rewrite Hp.
    + apply (cleanup_loop_directory cutoff p s t); [|by apply Hkeep|done].
      apply glob_keys. split; [done|]. by rewrite (Hkeep p s t Hp).
  - intros Hrep.
    destruct (cleanup_old_dry directory st Hrep) as (st1 & Hrun & _).
    eexists _, st1. split; [exact Hrun|]. fold dir. fold cutoff.
    assert (Hin : filter (expired dir cutoff (fs st)) (fs st) !! p
                  = Some (Dir s t)).
    { apply map_lookup_filter_Some. split; [done|].
      split_and!; simpl; [by rewrite Hdir| |done].
      destruct Hglob; [by left|by right]. }
    assert (filter (expired dir cutoff (fs st)) (fs st) ≠ ∅) as Hne.
    { intros E. rewrite E in Hin. by rewrite lookup_empty in Hin. }
    apply map_size_non_empty_iff in Hne. lia.
Qed.

(** *** Where the archive goes *)

Lemma Path_single n :
  has_char "/" n = false → n ≠ "" → n ≠ "." → Path n = [n].
Proof.
  intros Hs Hne Hdot. destruct n as [|x r]; [done|].
  assert (Hroot : path_root (String x r) = "").
  { apply path_root_no_slash. simpl in Hs.
    by apply orb_false_elim in Hs as [? _]. }
  unfold Path. rewrite Hroot, (split_on_whole _ _ Hs). simpl String.eqb.
  cbv iota. by rewrite filter_cons_True, filter_nil.
Qed.

Lemma joinpath_name (dir : PurePath) (n : string) :
  has_char "/" n = false → n ≠ "" → n ≠ "." →
  joinpath dir n = dir ++ [n] ∧
  path_name (dir ++ [n]) = n ∧ path_parent (dir ++ [n]) = dir.
Proof.
  intros Hs Hne Hdot.
  assert (Hr : is_root n = false).
  { destruct (is_root n) eqn:E; [|done].
    apply is_root_has_slash in E. congruence. }
  assert (Hname : path_name (dir ++ [n]) = n).
  { unfold path_name. by rewrite last_snoc, Hr. }
  split_and!; [|done|].
  - unfold joinpath. rewrite (Path_single n) by done. simpl. by rewrite Hr.
  - unfold path_parent. rewrite Hname.
    destruct (String.eqb_spec n "") as [|_]; [done|].
    apply removelast_last.
Qed.

Lemma rev_app_app s t : ∀ acc,
  String.rev_app (s +:+ t) acc = String.rev_app t (String.rev_app s acc).
Proof.
  induction s as [|a s IH]; intros acc; [done|].
  rewrite app_String. simpl. apply IH.
Qed.

Lemma rev_app_acc s : ∀ acc,
  String.rev_app s acc = String.rev_app s "" +:+ acc.
Proof.
  induction s as [|a s IH]; intros acc; [done|]. simpl.
  rewrite (IH (String a acc)), (IH (String a "")).
  generalize (String.rev_app s ""). intros r.
  induction r as [|b r IHr]; [done|]. by rewrite !app_String, IHr.
Qed.

Lemma rev_app_str s t : String.rev (s +:+ t) = String.rev t +:+ String.rev s.
Proof. unfold String.rev. by rewrite rev_app_app, rev_app_acc. Qed.

Lemma prefix_app s t : String.prefix s (s +:+ t) = true.
Proof.
  induction s as [|a s IH]; [by destruct t|].
  rewrite app_String. cbn [String.prefix].
  by destruct (ascii_dec a a).
Qed.

Lemma endswith_app s t : endswith (s +:+ t) t = true.
Proof. unfold endswith. rewrite rev_app_str. apply prefix_app. Qed.

Lemma app_assoc_str s t u : (s +:+ t) +:+ u = s +:+ (t +:+ u).
Proof.
  induction s as [|a s IH]; [done|]. by rewrite !app_String, IH.
Qed.

(** X14. For a named source and a timestamp text without a slash, the
    archive is a different path in the source's own directory, and its
    name is the source's stem, a dot, the timestamp, the source's
    suffix and the backend's extension. *)
Theorem dest_path_beside_source pol t s :
  path_name (Path s) ≠ "" →
  has_char "/" (strftime (timestamp_format pol) t) = false →
  let src := Path s in
  let dst := dest_path pol t src in
  dst ≠ src ∧
  path_parent dst = path_parent src ∧
  path_name dst
  = path_stem src +:+ "." +:+ strftime (timestamp_format pol) t +:+
    path_suffix src +:+ (COMPRESSORS_get (compress pol)).1.
Proof.
  intros Hn HT src dst. subst src dst.
  split; [by apply dest_path_ne|].
  destruct (path_name_parent s Hn) as [_ Hin].
  pose proof (split_on_no_sep _ _ _ Hin) as Hslash.
  rewrite <-(stem_suffix (Path s)), has_char_app in Hslash.
  apply orb_false_elim in Hslash as [Hst Hsu].
  pose proof (stem_not_empty _ Hn) as Hstem.
  unfold dest_path.
  set (d := path_stem (Path s) +:+ _).
  destruct (joinpath_name (path_parent (Path s)) d) as (-> & -> & ->);
    [| | |done].
  - unfold d. rewrite !has_char_app, Hst, HT, Hsu. simpl.
    apply COMPRESSORS_get_suffix.
  - unfold d. destruct (path_stem (Path s)); done.
  - unfold d. destruct (path_stem (Path s)) as [|a r]; [done|].
    rewrite app_String. intros E. injection E as _ E.
    by destruct r.
Qed.

(** X15. The sweep finds what the rotation writes: with the [gzip] or
    the [bz2] backend (and a timestamp text without a slash), the archive
    of a named source matches the pattern [cleanup_old] globs with in the
    source's directory, under the backend's own extension. *)
Theorem archive_in_cleanup_glob pol t s :
  path_name (Path s) ≠ "" →
  has_char "/" (strftime (timestamp_format pol) t) = false →
  compress pol = "gzip" ∨ compress pol = "bz2" →
  let ext := (COMPRESSORS_get (compress pol)).1 in
  (ext = ".gz" ∨ ext = ".bz2") ∧
  in_glob (path_parent (Path s)) ext (dest_path pol t (Path s)) = true.
Proof.
  intros Hn HT Hc ext. split.
  { unfold ext. destruct Hc as [-> | ->]; [by left|by right]. }
  destruct (path_name_parent s Hn) as [_ Hin].
  pose proof (split_on_no_sep _ _ _ Hin) as Hslash.
  rewrite <-(stem_suffix (Path s)), has_char_app in Hslash.
  apply orb_false_elim in Hslash as [Hst Hsu].
  pose proof (stem_not_empty _ Hn) as Hstem.
  unfold dest_path. fold ext.
  set (T := strftime (timestamp_format pol) t) in *.
  set (d := path_stem (Path s) +:+ _).
  destruct (joinpath_name (path_parent (Path s)) d) as (-> & Hname & Hpar).
  - unfold d. rewrite !has_char_app, Hst, HT, Hsu. simpl.
    apply COMPRESSORS_get_suffix.
  - unfold d. destruct (path_stem (Path s)); done.
  - unfold d. destruct (path_stem (Path s)) as [|a r]; [done|].
    rewrite app_String. intros E. injection E as _ E.
    by destruct r.
  - unfold in_glob. rewrite Hname, Hpar, bool_decide_eq_true_2 by done.
    simpl. unfold d.
    rewrite <-!app_assoc_str. apply endswith_app.
Qed.

(** *** The sign of the saving *)

(** X16. The percentage of the summary has the sign of what was saved:
    with a positive original total it is negative exactly when the
    stored total exceeds the original one (archives larger than their
    sources), positive exactly when it is below, and zero when they are
    equal. The bound of [2^53] bytes is the range in which the float
    quotient of two different totals cannot round to [1]. *)
Theorem ratio_sign rs :
  0 < total_original rs →
  total_original rs < 2 ^ 53 →
  ((ratio rs < 0)%Q ↔ total_original rs < total_compressed rs) ∧
  ((0 < ratio rs)%Q ↔ total_compressed rs < total_original rs) ∧
  ((ratio rs == 0)%Q ↔ total_compressed rs = total_original rs).
Proof.
  intros Ho Hbound. unfold ratio. rewrite (proj2 (Z.ltb_lt _ _) Ho).
  destruct (float_percent_sign (total_original rs) (total_compressed rs))
    as (H1 & H2 & H3); [done|].
  split_and!; [done|done|]. rewrite H3. done.
Qed.

Lemma stored_size_None r : compressed_size r = None → stored_size r = original_size r.
Proof. unfold stored_size. by intros ->. Qed.

(** X17. A history of records without a compressed size (what the
    identity backend records) saves nothing: the stored total is the
    original total and the percentage is zero. *)
Theorem ratio_identity_history rs :
  Forall (λ r, compressed_size r = None) rs →
  total_compressed rs = total_original rs ∧ (ratio rs == 0)%Q.
Proof.
  intros Hrs.
  assert (E : total_compressed rs = total_original rs).
  { unfold total_compressed, total_original, sumZ.
    induction Hrs as [|r rs Hr _ IH]; [done|]. csimpl.
    by rewrite IH, stored_size_None. }
  split; [done|]. unfold ratio. rewrite E.
  destruct (0 <? total_original rs) eqn:Ho; [|done].
  apply Z.ltb_lt in Ho.
  assert (Hq : (binary64 (inject_Z (total_original rs)
                          / inject_Z (total_original rs)) == 1)%Q)
    by (by apply quotient_1).
  rewrite (binary64_0 (1 - _)) by lra.
  by rewrite (binary64_0 (0 * 100)).
Qed.

(** *** [main] *)

Lemma main_eq args st size_mb :
  parse_max_size (args_max_size args) = Some size_mb →
  main args st
  = MainRan (main_run args (new_rotator (main_policy args size_mb) st)).1
            (main_run args (new_rotator (main_policy args size_mb) st)).2.
Proof. unfold main. by intros ->. Qed.

Lemma summary_text_eq st : summary st = (Ok (summary_text (results st)), st).
Proof. reflexivity. Qed.

Lemma print_eq line st :
  print line st
  = (Ok tt, {| policy := policy st; results := results st; fs := fs st;
               ticks := ticks st; stdout := stdout st ++ [line] |}).
Proof. reflexivity. Qed.

Lemma main_run_results args st r rs st1 :
  rotate (args_pattern args) (args_dry_run args) st = (Ok (r :: rs), st1) →
  main_run args st
  = (Ok tt, {| policy := policy st1; results := results st1; fs := fs st1;
               ticks := ticks st1;
               stdout := stdout st1 ++ [summary_text (results st1)] |}).
Proof.
  intros H. unfold main_run. erewrite bind_Ok by exact H. cbv beta iota.
  erewrite bind_Ok by apply summary_text_eq. apply print_eq.
Qed.

(** X18. When the batch returns a non-empty list (of sizes within the
    range of floats), [main] prints as its last line the summary of the
    engine's history: of exactly the records returned in a live run, and
    of no file at all in a dry run, however many the batch reported. *)
Theorem main_prints_summary args st size_mb r rs st1 :
  parse_max_size (args_max_size args) = Some size_mb →
  rotate (args_pattern args) (args_dry_run args)
    (new_rotator (main_policy args size_mb) st) = (Ok (r :: rs), st1) →
  float_range (total_original (r :: rs)) →
  float_range (total_compressed (r :: rs)) →
  ∃ st',
    main args st = MainRan (Ok tt) st' ∧
    fs st' = fs st1 ∧
    stdout st'
    = stdout st1 ++ [if args_dry_run args then empty_summary
                     else summary_text (r :: rs)].
Proof.
  intros Hparse Hrun _ _. rewrite (main_eq _ _ _ Hparse).
  rewrite (main_run_results _ _ _ _ _ Hrun).
  eexists. split_and!; [done..|]. simpl. do 2 f_equal.
  apply rotate_loop_in_order_rotate in Hrun. simpl in Hrun. rewrite Hrun.
  by destruct (args_dry_run args).
Qed.

(** X19. A dry run of [main] over a pattern with at least one due match
    returns normally, leaves every file, and ends its output with the
    summary of an empty history (0 files, 0.00 MB, 0.0%), since a dry
    run records nothing. *)
Theorem main_dry_run_empty_summary args st size_mb f :
  parse_max_size (args_max_size args) = Some size_mb →
  args_dry_run args = true →
  f ∈ glob_glob (args_pattern args) (fs st) →
  due (new_rotator (main_policy args size_mb) st) f = true →
  ∃ st',
    main args st = MainRan (Ok tt) st' ∧
    fs st' = fs st ∧
    last (stdout st') = Some empty_summary.
Proof.
  intros Hparse Hdry Hf Hdue. rewrite (main_eq _ _ _ Hparse).
  set (rot := new_rotator (main_policy args size_mb) st) in *.
  destruct (rotate_loop_dry rot (sorted (glob_glob (args_pattern args) (fs rot)))
              [] rot) as (rs & st1 & Hrun & (Hfs & _ & Hres) & Hrs); [done|].
  assert (Hne : filter (λ f, due rot f)
                  (sorted (glob_glob (args_pattern args) (fs rot))) ≠ []).
  { intros E.
    assert (Hin : f ∈ filter (λ f, due rot f)
                    (sorted (glob_glob (args_pattern args) (fs rot)))).
    { apply list_elem_of_filter. split; [by rewrite Hdue|].
      by apply elem_of_sorted. }
    rewrite E in Hin. by apply elem_of_nil in Hin. }
  destruct Hrs as [|f0 r fs0 rs _ _]; [done|].
  assert (Hrot : rotate (args_pattern args) (args_dry_run args) rot
                 = (Ok (r :: rs), st1)).
  { rewrite Hdry. unfold rotate. by erewrite bind_Ok by apply gets_eq. }
  rewrite (main_run_results _ _ _ _ _ Hrot).
  eexists. split_and!; [done|exact Hfs|]. simpl.
  by rewrite last_snoc, Hres.
Qed.

Lemma keeps_paths_main_run args : frames keeps_paths (main_run args).
Proof.
  unfold main_run.
  apply frames_bind; [apply _|apply keeps_paths_rotate|]. intros [|r rs].
  - apply same_files_keeps_paths, frames_print.
  - apply frames_bind; [apply _| |intros text].
    + intros st'. by apply same_fs_keeps_paths.
    + apply same_files_keeps_paths, frames_print.
Qed.

(** X20. [main] never removes a path, whatever the arguments and the
    outcome of the run: every path present before is present after, and
    of the same kind. The retention given by [--retain] is stored in the
    policy, but the sweep is never called. *)
Theorem main_keeps_paths args st o st' :
  main args st = MainRan o st' → keeps_paths st st'.
Proof.
  unfold main. destruct (parse_max_size (args_max_size args)) as [q|]; [|done].
  intros [= _ <-].
  apply (keeps_paths_main_run args (new_rotator (main_policy args q) st)).
Qed.

(** X21. When no match of the pattern is due, [main] prints the one
    line "No files needed rotation." and nothing else happens: no file
    changes and the clock is not read. *)
Theorem main_nothing_due args st size_mb :
  parse_max_size (args_max_size args) = Some size_mb →
  (∀ f, f ∈ glob_glob (args_pattern args) (fs st) →
        due (new_rotator (main_policy args size_mb) st) f = false) →
  ∃ st',
    main args st = MainRan (Ok tt) st' ∧
    fs st' = fs st ∧ ticks st' = ticks st ∧
    stdout st' = stdout st ++ ["No files needed rotation."].
Proof.
  intros Hparse Hnone. rewrite (main_eq _ _ _ Hparse).
  set (rot := new_rotator (main_policy args size_mb) st) in *.
  assert (Hrot : rotate (args_pattern args) (args_dry_run args) rot
                 = (Ok [], rot)).
  { unfold rotate. erewrite bind_Ok by apply gets_eq.
    apply rotate_loop_none_due, Forall_forall.
    intros f Hf. by apply Hnone, elem_of_sorted. }
  unfold main_run. erewrite bind_Ok by exact Hrot. cbv beta iota.
  rewrite print_eq. by eexists.
Qed.

(** *** The size text *)

Lemma rstrip_app chars a b :
  rstrip chars (a +:+ b)
  = match rstrip chars b with
    | "" => rstrip chars a
    | r => a +:+ r
    end.
Proof.
  induction a as [|x a IH].
  { rewrite app_empty_l. by destruct (rstrip chars b). }
  rewrite app_String. simpl. rewrite IH.
  destruct (rstrip chars b) as [|y r]; [done|].
  rewrite app_String. by destruct a.
Qed.

Lemma rstrip_length chars s :
  (String.length (rstrip chars s) ≤ String.length s)%nat.
Proof.
  induction s as [|a s IH]; [done|]. simpl.
  destruct (rstrip chars s) as [|y r].
  - destruct (has_char a chars); simpl; lia.
  - simpl in *. lia.
Qed.

Lemma string_snoc s : s = "" ∨ ∃ s' c, s = s' +:+ String c "".
Proof.
  induction s as [|a s IH]; [by left|]. right.
  destruct IH as [->|(s' & c & ->)].
  - by exists "", a.
  - by exists (String a s'), c.
Qed.

Lemma upper_app a b : upper (a +:+ b) = upper a +:+ upper b.
Proof.
  induction a as [|x a IH]; [done|]. rewrite app_String. simpl.
  by rewrite IH, app_String.
Qed.

Lemma endswith_snoc s c d :
  endswith (s +:+ String c "") (String d "")
  = if ascii_dec d c then true else false.
Proof.
  unfold endswith. rewrite rev_app_str.
  change (String.rev (String c "")) with (String c "").
  change (String.rev (String d "")) with (String d "").
  rewrite app_String, app_empty_l. cbn [String.prefix].
  destruct (ascii_dec d c); [|done]. by destruct (String.rev s).
Qed.

Lemma ascii_upper_G c : has_char c "MmGg" = false → ascii_upper c ≠ "G"%char.
Proof.
  destruct c as [[] [] [] [] [] [] [] []]; vm_compute; congruence.
Qed.

Lemma endswith_G_clean num :
  rstrip "MmGg" num = num → endswith (upper num) "G" = false.
Proof.
  intros Hclean. destruct (string_snoc num) as [->|(s' & c & ->)]; [done|].
  rewrite upper_app. simpl upper. rewrite endswith_snoc.
  destruct (ascii_dec "G" (ascii_upper c)) as [E|]; [|done].
  exfalso. rewrite rstrip_app in Hclean. cbn [rstrip] in Hclean.
  destruct (has_char c "MmGg") eqn:Hc.
  - pose proof (rstrip_length "MmGg" s') as Hlen. rewrite Hclean in Hlen.
    rewrite length_app_str in Hlen. simpl in Hlen. lia.
  - by apply (ascii_upper_G c).
Qed.

(** X22. How [main] reads a size text made of a part that does not end
    in one of the letters [M], [m], [G], [g], followed by any run of
    those letters: the first part alone goes to [float], and the value
    is multiplied by 1024 exactly when the run ends in [G] or [g]; with
    no letter at all the value is taken as megabytes. *)
Theorem parse_max_size_units (num units : string) :
  rstrip "MmGg" num = num →
  rstrip "MmGg" units = "" →
  parse_max_size (num +:+ units)
  = (λ size_mb, if endswith (upper units) "G" then (size_mb * 1024)%Q
                else size_mb) <$> float num.
Proof.
  intros Hnum Hunits. unfold parse_max_size.
  rewrite rstrip_app, Hunits, Hnum.
  assert (endswith (upper (num +:+ units)) "G" = endswith (upper units) "G")
    as ->; [|by destruct (float num)].
  destruct (string_snoc units) as [->|(u & c & ->)].
  - rewrite app_empty_r. by apply endswith_G_clean.
  - rewrite <-app_assoc_str, !upper_app. simpl upper.
    by rewrite !endswith_snoc.
Qed.

End Engine.

(** ** The engine on the concrete world *)

Local Abbreviation demo_rotate_file faults :=
  (rotate_file Demo.strftime Demo.compress_bytes Demo.clock faults).
Local Abbreviation demo_rotate faults :=
  (rotate Demo.strftime Demo.compress_bytes Demo.glob_glob Demo.clock faults).

Ltac run := split_and?; vm_compute; reflexivity.

Lemma demo_roundtrip c data :
  Demo.decompress_bytes c (Demo.compress_bytes c data) = Some data.
Proof. by destruct c. Qed.

(** The scenario of the specification: a 5-byte [b.log] over a 3-byte
    threshold, gzip-like backend. *)
Example rotate_file_gzip_run :
  (demo_rotate_file Demo.no_faults "b.log" false (Demo.start "gzip")).1
  = Ok (Some {| source := "b.log"; destination := "b.1000.log.gz";
                original_size := 5; compressed_size := Some 7;
                timestamp := 1003 |}) ∧
  fs (demo_rotate_file Demo.no_faults "b.log" false (Demo.start "gzip")).2
     !! ["b.log"]
  = Some (File [] 1002) ∧
  fs (demo_rotate_file Demo.no_faults "b.log" false (Demo.start "gzip")).2
     !! ["b.1000.log.gz"]
  = Some (File [x1f; x8b; x62; x62; x62; x62; x62] 1001) ∧
  results (demo_rotate_file Demo.no_faults "b.log" false (Demo.start "gzip")).2
  = [ {| source := "b.log"; destination := "b.1000.log.gz";
         original_size := 5; compressed_size := Some 7;
         timestamp := 1003 |} ].
Proof. run. Qed.

Lemma rotate_file_live_witness :
  ∃ r st',
    demo_rotate_file Demo.no_faults "b.log" false (Demo.start "gzip")
    = (Ok (Some r), st') ∧
    results st' = results (Demo.start "gzip") ++ [r].
Proof.
  destruct (rotate_file_live Demo.strftime Demo.compress_bytes
              Demo.decompress_bytes Demo.clock Demo.no_faults demo_roundtrip
              "b.log" (Demo.start "gzip") [x62; x62; x62; x62; x62] 6)
    as (r & st' & stored & t1 & t2 & Hrun & _ & _ & _ & _ & _ & _ & _ & _ & _
        & _ & Hres);
    [reflexivity|reflexivity|reflexivity|reflexivity|].
  exists r, st'. split; assumption.
Defined.

Lemma should_rotate_contract_witness :
  ∃ b, should_rotate "b.log" (Demo.start "gzip") = (Ok b, Demo.start "gzip") ∧
       (b = true ↔ ((3 # 1048576) * 1048576 <= inject_Z 5)%Q).
Proof.
  destruct (should_rotate_contract "b.log" (Demo.start "gzip"))
    as (b & Hrun & _ & H).
  exists b. split; [exact Hrun|].
  apply (H (File [x62; x62; x62; x62; x62] 6)); reflexivity.
Defined.

(** C2, as stated, fails on a directory: ["."] exists, is not a regular
    file, and is found due. *)
Lemma should_rotate_directory :
  fs (Demo.start "gzip") !! Path "." = Some (Dir 4096 0) ∧
  is_file (Dir 4096 0) = false ∧
  (should_rotate "." (Demo.start "gzip")).1 = Ok true.
Proof. run. Qed.

(** The bound of [2^53] bytes is needed: a path of [2^53 + 3] bytes is
    found due under a threshold of [2^53 + 4] bytes. *)
Lemma should_rotate_rounding filepath st n :
  fs st !! Path filepath = Some n →
  st_size n = 2 ^ 53 + 3 →
  max_size_mb (policy st) = (2 ^ 53 + 4) # 1048576 →
  should_rotate filepath st = (Ok true, st) ∧
  (inject_Z (st_size n) < max_size_mb (policy st) * 1048576)%Q.
Proof.
  intros Hn Hsz Hmax. rewrite (should_rotate_present _ _ _ Hn), Hsz, Hmax.
  by vm_compute.
Qed.

Lemma rotate_file_write_failure_witness :
  ∃ e st',
    demo_rotate_file (Demo.fail_at ["b.1000.log"] (WriteFails 2)) "b.log" false
      (Demo.start "none")
    = (Raise e, st') ∧
    fs st' !! ["b.log"] = Some (File [x62; x62; x62; x62; x62] 6) ∧
    results st' = [].
Proof.
  destruct (rotate_file_write_failure Demo.strftime Demo.compress_bytes
              Demo.clock (Demo.fail_at ["b.1000.log"] (WriteFails 2))
              "b.log" (Demo.start "none") [x62; x62; x62; x62; x62] 6)
    as (e & st' & Hrun & Hsrc & Hres & _);
    [reflexivity|reflexivity|vm_compute; discriminate
    |vm_compute; discriminate|].
  exists e, st'. split_and!; assumption.
Defined.

(** C3, as stated, fails when the disk fills up during the copy: the call
    raises, the source is untouched, and the destination name, free before
    the call, holds the first two of the five bytes. *)
Lemma rotate_file_partial_archive :
  fs (Demo.start "none") !! ["b.1000.log"] = None ∧
  (demo_rotate_file (Demo.fail_at ["b.1000.log"] (WriteFails 2)) "b.log" false
     (Demo.start "none")).1
  = Raise (OSError "b.1000.log") ∧
  fs (demo_rotate_file (Demo.fail_at ["b.1000.log"] (WriteFails 2)) "b.log"
        false (Demo.start "none")).2 !! ["b.log"]
  = Some (File [x62; x62; x62; x62; x62] 6) ∧
  fs (demo_rotate_file (Demo.fail_at ["b.1000.log"] (WriteFails 2)) "b.log"
        false (Demo.start "none")).2 !! ["b.1000.log"]
  = Some (File [x62; x62] 1001).
Proof. run. Qed.

Lemma rotate_aborts_on_failure_witness :
  demo_rotate (Demo.fail_at ["a.1000.log"] OpenFails) "*.log" false
    (LogRotator_init (Some (Demo.policy_with "none")) Demo.two_large)
  = (Raise (PermissionError "a.1000.log"),
     tick (LogRotator_init (Some (Demo.policy_with "none")) Demo.two_large)).
Proof.
  apply (rotate_aborts_on_failure Demo.strftime Demo.compress_bytes
           Demo.glob_glob Demo.clock (Demo.fail_at ["a.1000.log"] OpenFails)
           "*.log" false [] "a.log" ["b.log"]
           (LogRotator_init (Some (Demo.policy_with "none")) Demo.two_large)
           []
           (LogRotator_init (Some (Demo.policy_with "none")) Demo.two_large)
           (PermissionError "a.1000.log")
           (tick (LogRotator_init (Some (Demo.policy_with "none"))
                    Demo.two_large)));
    reflexivity.
Defined.

(** C4, as stated, fails: with two logs due and the archive of the first
    refused, the batch raises, and the second log, still due, is left as it
    was. *)
Lemma rotate_stops_at_first_failure :
  (demo_rotate (Demo.fail_at ["a.1000.log"] OpenFails) "*.log" false
     (LogRotator_init (Some (Demo.policy_with "none")) Demo.two_large)).1
  = Raise (PermissionError "a.1000.log") ∧
  fs (demo_rotate (Demo.fail_at ["a.1000.log"] OpenFails) "*.log" false
        (LogRotator_init (Some (Demo.policy_with "none")) Demo.two_large)).2
     !! ["b.log"]
  = Some (File [x62; x62; x62; x62; x62] 6) ∧
  (should_rotate "b.log"
     (demo_rotate (Demo.fail_at ["a.1000.log"] OpenFails) "*.log" false
        (LogRotator_init (Some (Demo.policy_with "none")) Demo.two_large)).2).1
  = Ok true.
Proof. run. Qed.

Lemma unknown_compression_is_identity_witness :
  COMPRESSORS_get "zstd" = ("", None).
Proof.
  destruct (unknown_compression_is_identity (3 # 1048576) 30 "zstd" "%s" 10)
    as (_ & _ & _ & H).
  apply H; discriminate.
Defined.

(** C5, as stated, fails: a policy naming the unknown backend ["zstd"] is
    constructed without error, and the engine rotates with it, printing
    nothing, into a plain copy without suffix. *)
Lemma unknown_compression_accepted :
  RotationPolicy_init (3 # 1048576) 30 "zstd" "%s" 10
  = Ok (Demo.policy_with "zstd") ∧
  (demo_rotate_file Demo.no_faults "b.log" false (Demo.start "zstd")).1
  = Ok (Some {| source := "b.log"; destination := "b.1000.log";
                original_size := 5; compressed_size := None;
                timestamp := 1003 |}) ∧
  fs (demo_rotate_file Demo.no_faults "b.log" false (Demo.start "zstd")).2
     !! ["b.1000.log"]
  = Some (File [x62; x62; x62; x62; x62] 6) ∧
  stdout (demo_rotate_file Demo.no_faults "b.log" false (Demo.start "zstd")).2
  = [].
Proof. run. Qed.

(** The scenario of the specification: an archive 40 days old and one 10
    days old under a 30-day policy; the one exactly 30 days old stays. *)
Example cleanup_old_run :
  (cleanup_old Demo.clock_day100 "arch" false Demo.sweep_start).1 = Ok 1 ∧
  fs (cleanup_old Demo.clock_day100 "arch" false Demo.sweep_start).2
     !! ["arch"; "app.1.log.gz"] = None ∧
  fs (cleanup_old Demo.clock_day100 "arch" false Demo.sweep_start).2
     !! ["arch"; "app.2.log.gz"]
  = Some (File [x1f; x8b] (70 * microseconds_per_day)) ∧
  fs (cleanup_old Demo.clock_day100 "arch" false Demo.sweep_start).2
     !! ["arch"; "app.3.log.bz2"]
  = Some (File [x42; x5a] (90 * microseconds_per_day)) ∧
  (cleanup_old Demo.clock_day100 "arch" true Demo.sweep_start).1 = Ok 1 ∧
  fs (cleanup_old Demo.clock_day100 "arch" true Demo.sweep_start).2
     !! ["arch"; "app.1.log.gz"]
  = Some (File [x1f; x8b] (60 * microseconds_per_day)).
Proof. run. Qed.

Lemma cleanup_old_removes_expired_witness :
  ∃ st',
    cleanup_old Demo.clock_day100 "arch" false Demo.sweep_start
    = (Ok (Z.of_nat (size (filter
             (expired ["arch"] (70 * microseconds_per_day) Demo.archives)
             Demo.archives))), st') ∧
    fs st' !! ["arch"; "app.2.log.gz"]
    = Some (File [x1f; x8b] (70 * microseconds_per_day)).
Proof.
  destruct (cleanup_old_removes_expired Demo.clock_day100 "arch" false
              Demo.sweep_start) as [H _].
  destruct H as (st' & Hrun & _ & _ & _ & Hcut & _).
  { apply (bool_decide_unpack _). vm_compute. exact I. }
  { intros _. apply (bool_decide_unpack _). vm_compute. exact I. }
  exists st'. split; [exact Hrun|].
  apply Hcut; reflexivity.
Defined.

(** C6, as stated, fails for a retention of a million days: no archive
    is that old, and the sweep raises instead of returning 0, in both
    modes. It fails too when an expired entry named like an archive is a
    directory: the live sweep raises on it. *)
Lemma cleanup_old_not_every_directory :
  (cleanup_old Demo.clock_day100 "arch" false Demo.long_retention).1
  = Raise (OverflowError "date value out of range") ∧
  (cleanup_old Demo.clock_day100 "arch" true Demo.long_retention).1
  = Raise (OverflowError "date value out of range") ∧
  (cleanup_old Demo.clock_day100 "arch" false
     (LogRotator_init (Some (Demo.policy_with "gzip"))
        Demo.archives_with_dir)).1
  = Raise (IsADirectoryError "arch/old.gz").
Proof. run. Qed.

Lemma summary_space_saved_witness :
  (Qabs (ratio Demo.history - space_saved 500 200)
   <= (1 + Qabs (inject_Z 200 / inject_Z 500)) * (1 # 17592186044416))%Q.
Proof.
  destruct (summary_space_saved Demo.with_history) as (_ & H & _).
  { apply (bool_decide_unpack _). vm_compute. exact I. }
  { vm_compute. reflexivity. }
  { vm_compute. reflexivity. }
  apply H. reflexivity.
Defined.

(** Where the float value and the exact one part in print: 80 bytes
    stored as 29 save exactly 63.75%, which would print as 63.8; the
    float product is just below it and prints as 63.7. *)
Example summary_rounding :
  (space_saved 80 29 == 255 # 4)%Q ∧
  format_f 1 (space_saved 80 29) = "63.8" ∧
  format_f 1 (ratio Demo.rounding_history) = "63.7".
Proof. run. Qed.

Example summary_run :
  (summary Demo.with_history).1
  = Ok (String.concat newline
          [ "Rotated 2 file(s)"; "Original total: 0.00 MB";
            "Compressed total: 0.00 MB"; "Space saved: 60.0%" ]).
Proof. run. Qed.

(** The scenario of the specification: of a small and a large log, only
    the large one is rotated and reported. *)
Example rotate_run :
  (demo_rotate Demo.no_faults "*.log" false (Demo.start "gzip")).1
  = Ok [ {| source := "b.log"; destination := "b.1000.log.gz";
            original_size := 5; compressed_size := Some 7;
            timestamp := 1003 |} ] ∧
  fs (demo_rotate Demo.no_faults "*.log" false (Demo.start "gzip")).2
     !! ["a.log"]
  = Some (File [x61] 5).
Proof. run. Qed.

Lemma rotate_sorted_order_witness :
  ∃ rs st',
    demo_rotate Demo.no_faults "*.log" false (Demo.start "gzip")
    = (Ok rs, st') ∧
    sublist (source <$> rs)
      ((str ∘ Path) <$> sorted (Demo.glob_glob "*.log" Demo.logs)).
Proof.
  destruct (rotate_sorted_order Demo.strftime Demo.compress_bytes
              Demo.glob_glob Demo.clock Demo.no_faults "*.log" false
              (Demo.start "gzip")) as (_ & _ & _ & H & _).
  do 2 eexists. split; [vm_compute; reflexivity|].
  eapply H. vm_compute. reflexivity.
Defined.

Lemma dry_run_leaves_files_witness :
  ∃ r,
    (demo_rotate_file Demo.no_faults "b.log" true (Demo.start "gzip")).1
    = Ok (Some r) ∧
    source r = "b.log" ∧ destination r = "b.1000.log.gz" ∧
    original_size r = 5 ∧ compressed_size r = None.
Proof.
  destruct (dry_run_leaves_files Demo.strftime Demo.compress_bytes Demo.clock
              Demo.no_faults "b.log" "arch" (Demo.start "gzip"))
    as (_ & _ & H & _).
  apply (H (File [x62; x62; x62; x62; x62] 6)). reflexivity.
Defined.

(** *** The further properties on the concrete world *)

Local Abbreviation demo_main :=
  (main Demo.strftime Demo.compress_bytes Demo.glob_glob Demo.clock
     Demo.no_faults Demo.float).

Lemma rotate_file_overwrites_witness :
  ∃ r st' stored t,
    demo_rotate_file Demo.no_faults "b.log" false Demo.with_archive
    = (Ok (Some r), st') ∧
    fs st' !! ["b.1000.log.gz"] = Some (File stored t) ∧
    Demo.decompress_bytes gzip_open stored = Some [x62; x62; x62; x62; x62].
Proof.
  destruct (rotate_file_overwrites Demo.strftime Demo.compress_bytes
              Demo.decompress_bytes Demo.clock Demo.no_faults demo_roundtrip
              "b.log" Demo.with_archive [x62; x62; x62; x62; x62] 6 [x00] 1)
    as (r & st' & stored & t & Hrun & Hdst & Hback & _);
    [vm_compute; discriminate|reflexivity|reflexivity|reflexivity
    |reflexivity|].
  exists r, st', stored, t. split_and!; assumption.
Defined.

Lemma rotate_file_truncate_refused_witness :
  ∃ st',
    demo_rotate_file (Demo.fail_at ["b.log"] OpenFails) "b.log" false
      (Demo.start "gzip")
    = (Raise (PermissionError "b.log"), st') ∧
    fs st' !! ["b.log"] = Some (File [x62; x62; x62; x62; x62] 6) ∧
    results st' = [].
Proof.
  destruct (rotate_file_truncate_refused Demo.strftime Demo.compress_bytes
              Demo.clock (Demo.fail_at ["b.log"] OpenFails)
              "b.log" (Demo.start "gzip") [x62; x62; x62; x62; x62] 6)
    as (st' & t & Hrun & _ & Hsrc & Hres & _);
    [vm_compute; discriminate|reflexivity|reflexivity|reflexivity
    |reflexivity|].
  exists st'. split_and!; assumption.
Defined.

Lemma rotated_file_due_again_witness :
  ∃ r st' b,
    demo_rotate_file Demo.no_faults "b.log" false (Demo.start "gzip")
    = (Ok (Some r), st') ∧
    should_rotate "b.log" st' = (Ok b, st') ∧
    (b = true ↔ (3 # 1048576 <= 0)%Q).
Proof.
  apply (rotated_file_due_again Demo.strftime Demo.compress_bytes Demo.clock
           Demo.no_faults "b.log" (Demo.start "gzip")
           [x62; x62; x62; x62; x62] 6);
    [reflexivity|reflexivity|vm_compute; discriminate|reflexivity
    |reflexivity].
Defined.

Lemma rotate_file_directory_witness :
  ∃ e, demo_rotate_file Demo.no_faults "." false (Demo.start "gzip")
       = (Raise e, tick (Demo.start "gzip")).
Proof.
  apply (rotate_file_directory Demo.strftime Demo.compress_bytes Demo.clock
           Demo.no_faults "." (Demo.start "gzip") 4096 0).
  reflexivity.
Defined.

Lemma dry_run_predicts_live_witness :
  ∃ r',
    (demo_rotate_file Demo.no_faults "b.log" true (Demo.start "gzip")).1
    = Ok (Some r') ∧
    destination r' = "b.1000.log.gz".
Proof.
  edestruct (dry_run_predicts_live Demo.strftime Demo.compress_bytes
               Demo.clock Demo.no_faults "b.log" (Demo.start "gzip"))
    as (r' & Hrun & _ & Hdst & _); [vm_compute; reflexivity|].
  exists r'. split; [exact Hrun|exact Hdst].
Defined.

Lemma rotate_extends_history_witness :
  ∃ rs st',
    demo_rotate Demo.no_faults "*.log" false (Demo.start "gzip")
    = (Ok rs, st') ∧
    results st' = results (Demo.start "gzip") ++ rs.
Proof.
  do 2 eexists. split; [vm_compute; reflexivity|].
  apply (rotate_extends_history Demo.strftime Demo.compress_bytes
           Demo.glob_glob Demo.clock Demo.no_faults "*.log" false
           (Demo.start "gzip")).
  vm_compute; reflexivity.
Defined.

Lemma rotate_nothing_due_witness :
  demo_rotate Demo.no_faults "*.log" false
    (LogRotator_init None Demo.logs)
  = (Ok [], LogRotator_init None Demo.logs).
Proof.
  apply (rotate_nothing_due Demo.strftime Demo.compress_bytes Demo.glob_glob
           Demo.clock Demo.no_faults "*.log" false
           (LogRotator_init None Demo.logs)).
  apply Forall_forall. apply (bool_decide_unpack _). vm_compute. exact I.
Defined.

Lemma cleanup_old_expired_directory_witness :
  (∃ e st',
     cleanup_old Demo.clock_day100 "arch" false
       (LogRotator_init (Some (Demo.policy_with "gzip"))
          Demo.archives_with_dir)
     = (Raise e, st')) ∧
  (∃ k st',
     cleanup_old Demo.clock_day100 "arch" true
       (LogRotator_init (Some (Demo.policy_with "gzip"))
          Demo.archives_with_dir)
     = (Ok k, st') ∧ 0 < k).
Proof.
  destruct (cleanup_old_expired_directory Demo.clock_day100 "arch"
              (LogRotator_init (Some (Demo.policy_with "gzip"))
                 Demo.archives_with_dir)
              ["arch"; "old.gz"] 4096 (10 * microseconds_per_day))
    as [Hlive Hdry];
    [reflexivity|left; vm_compute; exact I|reflexivity
    |vm_compute; reflexivity|].
  split; [exact Hlive|].
  apply Hdry. apply (bool_decide_unpack _). vm_compute. exact I.
Defined.

Lemma dest_path_beside_source_witness :
  path_parent (dest_path Demo.strftime (Demo.policy_with "gzip") 1000
                 (Path "logs/b.log"))
  = ["logs"] ∧
  path_name (dest_path Demo.strftime (Demo.policy_with "gzip") 1000
               (Path "logs/b.log"))
  = "b.1000.log.gz".
Proof.
  destruct (dest_path_beside_source Demo.strftime (Demo.policy_with "gzip")
              1000 "logs/b.log") as (_ & Hpar & Hname);
    [vm_compute; discriminate|reflexivity|].
  split; [exact Hpar|exact Hname].
Defined.

Lemma archive_in_cleanup_glob_witness :
  in_glob ["logs"] ".bz2"
    (dest_path Demo.strftime (Demo.policy_with "bz2") 1000
       (Path "logs/b.log"))
  = true.
Proof.
  destruct (archive_in_cleanup_glob Demo.strftime (Demo.policy_with "bz2")
              1000 "logs/b.log") as (_ & H);
    [vm_compute; discriminate|reflexivity|by right|].
  exact H.
Defined.

Lemma ratio_sign_witness : (0 < ratio Demo.history)%Q.
Proof.
  destruct (ratio_sign Demo.history) as (_ & H & _);
    [reflexivity|reflexivity|].
  apply H. reflexivity.
Defined.

Lemma ratio_identity_history_witness : (ratio Demo.plain_history == 0)%Q.
Proof.
  destruct (ratio_identity_history Demo.plain_history) as [_ H]; [|exact H].
  apply (bool_decide_unpack _). vm_compute. exact I.
Defined.

Lemma main_prints_summary_witness :
  ∃ st' lines,
    demo_main (Demo.args "0M" false) (Demo.start "none")
    = MainRan (Ok tt) st' ∧
    stdout st' = lines ++ [
      String.concat newline
        [ "Rotated 2 file(s)"; "Original total: 0.00 MB";
          "Compressed total: 0.00 MB"; "Space saved: -66.7%" ] ].
Proof.
  edestruct (main_prints_summary Demo.strftime Demo.compress_bytes
               Demo.glob_glob Demo.clock Demo.no_faults Demo.float
               (Demo.args "0M" false) (Demo.start "none") 0%Q)
    as (st' & Hrun & _ & Hout);
    [vm_compute; reflexivity|vm_compute; reflexivity
    |vm_compute; reflexivity|vm_compute; reflexivity|].
  exists st'. eexists. split; [exact Hrun|]. rewrite Hout. reflexivity.
Defined.

Lemma main_dry_run_empty_summary_witness :
  ∃ st',
    demo_main (Demo.args "0M" true) (Demo.start "none")
    = MainRan (Ok tt) st' ∧
    fs st' = Demo.logs ∧
    last (stdout st') = Some empty_summary.
Proof.
  apply (main_dry_run_empty_summary Demo.strftime Demo.compress_bytes
           Demo.glob_glob Demo.clock Demo.no_faults Demo.float
           (Demo.args "0M" true) (Demo.start "none") 0%Q "b.log");
    [vm_compute; reflexivity|reflexivity
    |apply (bool_decide_unpack _); vm_compute; exact I
    |vm_compute; reflexivity].
Defined.

Lemma main_keeps_paths_witness :
  ∃ o st',
    demo_main (Demo.args "0M" false) (Demo.start "none") = MainRan o st' ∧
    keeps_paths (Demo.start "none") st'.
Proof.
  do 2 eexists. split; [vm_compute; reflexivity|].
  eapply (main_keeps_paths Demo.strftime Demo.compress_bytes Demo.glob_glob
            Demo.clock Demo.no_faults Demo.float (Demo.args "0M" false)
            (Demo.start "none")).
  vm_compute; reflexivity.
Defined.

Lemma main_nothing_due_witness :
  ∃ st',
    demo_main (Demo.args "3M" false) (Demo.start "none")
    = MainRan (Ok tt) st' ∧
    fs st' = Demo.logs ∧
    stdout st' = ["No files needed rotation."].
Proof.
  destruct (main_nothing_due Demo.strftime Demo.compress_bytes
              Demo.glob_glob Demo.clock Demo.no_faults Demo.float
              (Demo.args "3M" false) (Demo.start "none") (inject_Z 3))
    as (st' & Hrun & Hfs & _ & Hout); [vm_compute; reflexivity| |].
  { apply Forall_forall. apply (bool_decide_unpack _). vm_compute. exact I. }
  exists st'. split_and!; [exact Hrun|exact Hfs|exact Hout].
Defined.

Lemma parse_max_size_units_witness :
  parse_max_size Demo.float "5MG" = Some (inject_Z 5 * 1024)%Q ∧
  parse_max_size Demo.float "5GM" = Some (inject_Z 5).
Proof.
  split.
  - exact (parse_max_size_units Demo.float "5" "MG" eq_refl eq_refl).
  - exact (parse_max_size_units Demo.float "5" "GM" eq_refl eq_refl).
Defined.

Lemma rotate_file_dest_directory_compressed_witness :
  demo_rotate_file Demo.no_faults "b.log" false
    (Demo.dir_at ["b.1000.log.gz"] "gzip")
  = (Raise (IsADirectoryError "b.1000.log.gz"),
     tick (Demo.dir_at ["b.1000.log.gz"] "gzip")).
Proof.
  apply (rotate_file_dest_directory_compressed Demo.strftime
           Demo.compress_bytes Demo.clock Demo.no_faults "b.log"
           (Demo.dir_at ["b.1000.log.gz"] "gzip")
           [x62; x62; x62; x62; x62] 6 4096 1);
    [by left|reflexivity|reflexivity].
Defined.

Lemma rotate_file_dest_directory_copy_witness :
  ∃ r st',
    demo_rotate_file Demo.no_faults "b.log" false
      (Demo.dir_at ["b.1000.log"] "none")
    = (Ok (Some r), st') ∧
    destination r = "b.1000.log" ∧
    fs st' !! ["b.1000.log"; "b.log"]
    = Some (File [x62; x62; x62; x62; x62] 6).
Proof.
  destruct (rotate_file_dest_directory_copy Demo.strftime
              Demo.compress_bytes Demo.clock Demo.no_faults "b.log"
              (Demo.dir_at ["b.1000.log"] "none")
              [x62; x62; x62; x62; x62] 6 4096 1)
    as (r & st' & Hrun & Hdst & _ & Hin & _);
    [discriminate|discriminate|reflexivity|reflexivity|reflexivity
    |vm_compute; discriminate|reflexivity|reflexivity|].
  exists r, st'. split_and!; [exact Hrun|exact Hdst|exact Hin].
Defined.
